(** * TTF4SVG: glyph outlines to canonical SVG path documents

    A shallow embedding of [data_process/tosvgjpg.py] (the file namer, the
    glyph bounds, the path canonicalisation, the export of one glyph, the
    picture of one character and the loop over the characters of a font) and
    of [data_process/to_data_json.py] (the file namer and the entries built
    for one character), together with their properties.

    Python values are modelled as follows.
    - [int] is [Z]; a code point is [N]; a [str] is a list of code points.
    - [float] is IEEE binary64, modelled exactly: a finite float is a sign, a
      significand and a binary exponent, and every operation rounds the exact
      rational result to nearest, ties to even.
    - A raised exception is the [Raise] case of [result].
    - The Unicode character database (decimal digits, white space and general
      categories beyond ASCII) is a parameter [unicode_db]; the ASCII range is
      fixed, as it is in CPython.
    - [os.path] is [posixpath]; the file system is the list of the files
      written, the latest first.
    - The pens of fontTools and the calls into Pillow are parameters.

    The two [main] functions, [load_stokes_chars] and [find_fonts] only
    parse arguments, walk directories and read or write JSON; they are not
    modelled. *)

From Stdlib Require Import ZArith NArith QArith Qpower Lqa.
From Stdlib Require Import String Ascii Bool Lia List.
Import ListNotations.
Local Open Scope Z_scope.

(** ** Exceptions *)

Inductive exn := OverflowError | ZeroDivisionError | ValueError.

Inductive result (A : Type) :=
| Ok (a : A)
| Raise (e : exn).
Arguments Ok {A} a.
Arguments Raise {A} e.

Definition bind {A B : Type} (c : result A) (k : A -> result B) : result B :=
  match c with
  | Ok a => k a
  | Raise e => Raise e
  end.

Notation "x <- c ;; k" := (bind c (fun x => k))
  (at level 61, c at next level, right associativity).

(** ** Binary64 floating point *)

Module Float.

(** [Fin neg m e] is [(-1)^neg * m * 2^e]. The operations below only build
    finite floats with [0 <= m < 2^53] and [-1074 <= e <= 971] (zero is
    [Fin neg 0 0], so the sign of a zero is kept). *)
Inductive float :=
| Fin (neg : bool) (m e : Z)
| Inf (neg : bool)
| NaN.

Definition emin : Z := -1074.
Definition emax : Z := 971.

(** The fraction [n / (d * 2^k)], for any sign of [k]. *)
Definition scaled (n d k : Z) : Z * Z :=
  if 0 <=? k then (n, d * 2 ^ k) else (n * 2 ^ (- k), d).

(** [n / d] rounded to the nearest integer, ties to even ([0 <= n], [0 < d]). *)
Definition rne (n d : Z) : Z :=
  let q := n / d in
  match 2 * (n mod d) ?= d with
  | Lt => q
  | Gt => q + 1
  | Eq => if Z.even q then q else q + 1
  end.

(** [floor (log2 (n / d))] for [0 < n], [0 < d]. *)
Definition floor_log2 (n d : Z) : Z :=
  let k := Z.log2 n - Z.log2 d in
  let '(a, b) := scaled n d k in
  if b <=? a then k else k - 1.

(** The binary64 nearest to [(-1)^neg * n / d] ([0 <= n], [0 < d]): a 53-bit
    significand, gradual underflow below [2^-1022], infinity from
    [2^1024 - 2^970] on. *)
Definition nearest (neg : bool) (n d : Z) : float :=
  if n =? 0 then Fin neg 0 0
  else
    let e := Z.max (floor_log2 n d - 52) emin in
    let '(a, b) := scaled n d e in
    let q := rne a b in
    if q =? 0 then Fin neg 0 0
    else
      let '(m, e') := if q =? 2 ^ 53 then (2 ^ 52, e + 1) else (q, e) in
      if emax <? e' then Inf neg else Fin neg m e'.

(** [float(z)] for an [int] (and the conversion of an [int] operand of a
    mixed operation): correctly rounded, [OverflowError] when out of range. *)
Definition of_int (z : Z) : result float :=
  match nearest (z <? 0) (Z.abs z) 1 with
  | Inf _ => Raise OverflowError
  | x => Ok x
  end.

(** [a / b] on two [int]s: the correctly rounded quotient. *)
Definition int_truediv (a b : Z) : result float :=
  if b =? 0 then Raise ZeroDivisionError
  else
    match nearest (xorb (a <? 0) (b <? 0)) (Z.abs a) (Z.abs b) with
    | Inf _ => Raise OverflowError
    | x => Ok x
    end.

(** [x * y] on two [float]s. *)
Definition mul (x y : float) : float :=
  match x, y with
  | NaN, _ | _, NaN => NaN
  | Inf s1, Inf s2 => Inf (xorb s1 s2)
  | Inf s1, Fin s2 m _ | Fin s1 m _, Inf s2 =>
      if m =? 0 then NaN else Inf (xorb s1 s2)
  | Fin s1 m1 e1, Fin s2 m2 e2 =>
      let '(n, d) := scaled (m1 * m2) 1 (- (e1 + e2)) in
      nearest (xorb s1 s2) n d
  end.

(** [z * x] with [z] an [int] and [x] a [float]. *)
Definition int_mul (z : Z) (x : float) : result float :=
  fz <- of_int z ;; Ok (mul fz x).

(** [-x]. *)
Definition neg (x : float) : float :=
  match x with
  | Fin s m e => Fin (negb s) m e
  | Inf s => Inf (negb s)
  | NaN => NaN
  end.

Definition signed (s : bool) (z : Z) : Z := if s then - z else z.

(** [int(x)]: truncation toward zero. *)
Definition to_int (x : float) : result Z :=
  match x with
  | Fin s m e => let '(n, d) := scaled m 1 (- e) in Ok (signed s (n / d))
  | Inf _ => Raise OverflowError
  | NaN => Raise ValueError
  end.

(** [round(x)] with one argument: the nearest [int], ties to even. *)
Definition round (x : float) : result Z :=
  match x with
  | Fin s m e => let '(n, d) := scaled m 1 (- e) in Ok (signed s (rne n d))
  | Inf _ => Raise OverflowError
  | NaN => Raise ValueError
  end.

(** The float denoted by the decimal [(-1)^neg * m * 10^e]. *)
Definition of_decimal (neg : bool) (m e : Z) : float :=
  if 0 <=? e then nearest neg (m * 10 ^ e) 1
  else nearest neg m (10 ^ (- e)).

Definition zero : float := Fin false 0 0.

End Float.

(** ** Strings and the Unicode character database *)

Definition str := list N.

(** An ASCII literal as a [str]. *)
Definition py (s : string) : str := map N_of_ascii (list_ascii_of_string s).

(** What CPython reads from the Unicode database for a code point from 128
    on: its decimal digit value (category Nd), whether it is white space,
    and its two-letter general category. *)
Record unicode_db := {
  uni_decimal : N -> option Z;
  uni_space : N -> bool;
  uni_category : N -> str
}.

Section Chars.
Variable U : unicode_db.

(** The digit value of a character matched by [\d], read by [float()]. *)
Definition decimal (c : N) : option Z :=
  if (c <? 128)%N then
    if ((48 <=? c) && (c <=? 57))%N then Some (Z.of_N c - 48) else None
  else uni_decimal U c.

Definition is_digit (c : N) : bool :=
  match decimal c with Some _ => true | None => false end.

(** [\s], [str.isspace] and the characters [str.strip] removes. *)
Definition is_space (c : N) : bool :=
  if (c <? 128)%N then
    ((9 <=? c) && (c <=? 13) || (28 <=? c) && (c <=? 32))%N
  else uni_space U c.

End Chars.

(** [str(z)] for an [int]. *)
Fixpoint digits_of (fuel : nat) (n : Z) (acc : str) : str :=
  match fuel with
  | O => acc
  | S f =>
      let acc' := Z.to_N (48 + n mod 10) :: acc in
      if n <? 10 then acc' else digits_of f (n / 10) acc'
  end.

Definition str_of_nat (n : Z) : str :=
  digits_of (S (Z.to_nat (Z.log2 n))) n [].

Definition str_of_int (z : Z) : str :=
  if z <? 0 then 45%N :: str_of_nat (- z) else str_of_nat z.

(** [dropwhile], [str.lstrip] and [str.strip] on white space. *)
Fixpoint dropwhile (p : N -> bool) (s : str) : str :=
  match s with
  | c :: t => if p c then dropwhile p t else s
  | [] => []
  end.

Definition strip (U : unicode_db) (s : str) : str :=
  rev (dropwhile (is_space U) (rev (dropwhile (is_space U) s))).

(** [f"{cp:04X}"]: upper-case hexadecimal, zero-padded to four digits. *)
Definition hex_digit (d : N) : N := (if d <? 10 then 48 + d else 55 + d)%N.

Fixpoint hex_of (fuel : nat) (n : N) (acc : str) : str :=
  match fuel with
  | O => acc
  | S f =>
      let acc' := hex_digit (n mod 16) :: acc in
      if (n <? 16)%N then acc' else hex_of f (n / 16)%N acc'
  end.

Definition hex (n : N) : str := hex_of (S (N.to_nat (N.log2 n))) n [].

Definition format_04X (cp : N) : str :=
  let h := hex cp in repeat 48%N (4 - length h) ++ h.

(** ** [os.path] on a POSIX system *)

(** [s.rfind(c)]: the index of the last [c] in [s], if any. *)
Fixpoint rfind (c : N) (s : str) : option nat :=
  match s with
  | [] => None
  | x :: t =>
      match rfind c t with
      | Some i => Some (S i)
      | None => if (x =? c)%N then Some O else None
      end
  end.

Definition startswith_sep (s : str) : bool :=
  match s with
  | c :: _ => (c =? 47)%N
  | [] => false
  end.

Definition endswith_sep (s : str) : bool := startswith_sep (rev s).

(** One round of the loop of [posixpath.join]: a component that starts with
    a slash replaces the path built so far; otherwise it is appended, after
    a slash unless the path is empty or ends with one. *)
Definition join_step (path b : str) : str :=
  if startswith_sep b then b
  else
    match path with
    | [] => b
    | _ :: _ => if endswith_sep path then path ++ b else path ++ 47%N :: b
    end.

(** [os.path.join(a, *p)]. *)
Definition os_path_join (a : str) (p : list str) : str := fold_left join_step p a.

(** [os.path.basename(p)]: what follows the last slash. *)
Definition os_path_basename (p : str) : str :=
  match rfind 47 p with
  | Some i => skipn (S i) p
  | None => p
  end.

(** [os.path.splitext(p)]: the extension starts at the last dot of the last
    component, unless only dots precede it there. *)
Definition os_path_splitext (p : str) : str * str :=
  let filenameIndex := match rfind 47 p with Some i => S i | None => O end in
  match rfind 46 p with
  | Some dotIndex =>
      if (filenameIndex <=? dotIndex)%nat
         && existsb (fun c => negb (c =? 46)%N)
              (firstn (dotIndex - filenameIndex) (skipn filenameIndex p))
      then (firstn dotIndex p, skipn dotIndex p)
      else (p, [])
  | None => (p, [])
  end.

(** [s.replace(old, new)] for two characters. *)
Definition replace_char (old new : N) (s : str) : str :=
  map (fun c => if (c =? old)%N then new else c) s.

(** ** The file system *)

(** What Pillow is asked to save: a white square image of side [pic_size]
    with [pic_text] drawn in black at [pic_xy], in the font of the file
    [pic_font] at size [pic_font_size]. *)
Record picture := {
  pic_size : Z;
  pic_font : str;
  pic_font_size : Z;
  pic_text : str;
  pic_xy : Z * Z
}.

(** A file is text written through [open(path, "w", encoding="utf-8")] or a
    JPEG saved by Pillow. *)
Inductive file :=
| Text (s : str)
| Jpeg (p : picture).

(** The files written so far, the latest first. Directories are not
    modelled: a file can be written at any path. *)
Definition files := list (str * file).

Fixpoint str_eqb (a b : str) : bool :=
  match a, b with
  | [], [] => true
  | x :: a', y :: b' => (x =? y)%N && str_eqb a' b'
  | _, _ => false
  end.

Definition fs_write (path : str) (f : file) (fs : files) : files := (path, f) :: fs.

Fixpoint fs_read (path : str) (fs : files) : option file :=
  match fs with
  | [] => None
  | (p, f) :: rest => if str_eqb p path then Some f else fs_read path rest
  end.

(** [os.path.exists(path)]. *)
Definition os_path_exists (path : str) (fs : files) : bool :=
  match fs_read path fs with
  | Some _ => true
  | None => false
  end.

(** ** [data_process/tosvgjpg.py] *)

Module Tosvgjpg.

(** The nine characters of the class [bad_chars]: slash, backslash, colon,
    star, question mark, double quote, less-than, greater-than, bar. *)
Definition bad_chars : list N := [47; 92; 58; 42; 63; 34; 60; 62; 124]%N.

Definition is_bad_char (c : N) : bool := existsb (N.eqb c) bad_chars.

Definition startswith_C (cat : str) : bool :=
  match cat with
  | c :: _ => (c =? 67)%N
  | [] => false
  end.

(** [safe_name_for_file(char, cp)], [char] a single character. *)
Definition safe_name_for_file (U : unicode_db) (char cp : N) : str :=
  if is_bad_char char then py "U+" ++ format_04X cp
  else
    let cat := uni_category U char in
    if startswith_C cat || is_space U char then py "U+" ++ format_04X cp
    else [char].

(** *** Bounds *)

Definition point := (Z * Z)%type.
Definition bbox := (Z * Z * Z * Z)%type.

(** The operators a pen receives; [RecordingPen.value] is a list of
    operators with their points. *)
Inductive operator := moveTo | lineTo | curveTo | qCurveTo | closePath | endPath.

Definition program := list (operator * list point).

(** A glyph of the glyph set: its [boundingBox()] when it has that
    attribute, its [bounds] when it has that attribute and it is not [None],
    and the outline program [draw] replays into a pen. *)
Record glyph := {
  boundingBox : option bbox;
  bounds : option bbox;
  draw : program
}.

Definition list_min (x : Z) (xs : list Z) : Z := fold_left Z.min xs x.
Definition list_max (x : Z) (xs : list Z) : Z := fold_left Z.max xs x.

Definition get_glyph_bounds (g : glyph) : bbox :=
  match boundingBox g with
  | Some b => b
  | None =>
    match bounds g with
    | Some b => b
    | None =>
      let pts := flat_map snd (draw g) in
      match map fst pts, map snd pts with
      | x :: xs, y :: ys =>
          (list_min x xs, list_min y ys, list_max x xs, list_max y ys)
      | _, _ => (0, 0, 0, 0)
      end
    end
  end.

(** *** Path canonicalisation *)

Section Paths.
Variable U : unicode_db.

(** A match of [-?\d+\.?\d*(?:e[-+]?\d+)?]: the digit values of its integer,
    fraction and exponent parts, as [float()] reads them. [num_exp] holds the
    sign character of the exponent, if any ([true] for [-]). *)
Record number := {
  num_neg : bool;
  num_int : list Z;
  num_dot : bool;
  num_frac : list Z;
  num_exp : option (option bool * list Z)
}.

Fixpoint span_digits (s : str) : list Z * str :=
  match s with
  | c :: t =>
      match decimal U c with
      | Some d => let '(ds, r) := span_digits t in (d :: ds, r)
      | None => ([], s)
      end
  | [] => ([], [])
  end.

(** An optional character, [c?], at [s]. *)
Definition match_char (c : N) (s : str) : bool * str :=
  match s with
  | x :: t => if (x =? c)%N then (true, t) else (false, s)
  | [] => (false, s)
  end.

(** The sign [[-+]?] of an exponent at [s]: [Some true] for [-]. *)
Definition match_sign (s : str) : option bool * str :=
  match s with
  | x :: t =>
      if (x =? 45)%N then (Some true, t)
      else if (x =? 43)%N then (Some false, t)
      else (None, s)
  | [] => (None, s)
  end.

(** The exponent group [(?:e[-+]?\d+)?] at [s]. *)
Definition match_exponent (s : str) : option (option bool * list Z) * str :=
  match s with
  | x :: t =>
      if (x =? 101)%N then
        let '(sg, t1) := match_sign t in
        let '(ds, t2) := span_digits t1 in
        match ds with
        | [] => (None, s)
        | _ :: _ => (Some (sg, ds), t2)
        end
      else (None, s)
  | [] => (None, s)
  end.

(** The match of the number pattern at the start of [s], with the rest of
    [s] after it. Every quantifier is greedy and the tail of the pattern can
    match the empty string, so the first match found takes all the digits. *)
Definition match_number (s : str) : option (number * str) :=
  let '(ng, s1) := match_char 45 s in
  let '(ds, s2) := span_digits s1 in
  match ds with
  | [] => None
  | _ :: _ =>
      let '(dot, s3) := match_char 46 s2 in
      let '(fs, s4) := span_digits s3 in
      let '(ex, s5) := match_exponent s4 in
      Some ({| num_neg := ng; num_int := ds; num_dot := dot;
               num_frac := fs; num_exp := ex |}, s5)
  end.

Definition horner (ds : list Z) : Z := fold_left (fun a d => 10 * a + d) ds 0.

(** [float(m.group(0))]. *)
Definition float_of_number (t : number) : Float.float :=
  let x :=
    match num_exp t with
    | Some (Some true, ds) => - horner ds
    | Some (_, ds) => horner ds
    | None => 0
    end in
  Float.of_decimal (num_neg t) (horner (num_int t ++ num_frac t))
    (x - Z.of_nat (length (num_frac t))).

(** [repl]: [str(int(round(float(m.group(0)))))]. *)
Definition repl (t : number) : result str :=
  n <- Float.round (float_of_number t) ;; Ok (str_of_int n).

(** [re.sub(pattern, repl, s)]: [skip] characters of a match are still to
    be passed over. *)
Fixpoint sub_numbers (skip : nat) (s : str) : result str :=
  match s with
  | [] => Ok []
  | c :: t =>
      match skip with
      | S k => sub_numbers k t
      | O =>
          match match_number s with
          | Some (tok, rest) =>
              r <- repl tok ;;
              out <- sub_numbers (length t - length rest) t ;;
              Ok (r ++ out)
          | None => out <- sub_numbers 0 t ;; Ok (c :: out)
          end
      end
  end.

Definition round_path_data (d_attr : str) : result str :=
  sub_numbers 0 d_attr.

Definition cmds : str := py "MLHVCSQTAZmlhvcsqtaz".

Definition is_cmd (c : N) : bool := existsb (N.eqb c) cmds.

(** [re.sub("(?<=\\d)([cmds])", r" \1", s)]; [prev] is the character before
    [s] in the subject string. *)
Fixpoint space_before (prev : option N) (s : str) : str :=
  match s with
  | [] => []
  | c :: t =>
      let behind := match prev with Some p => is_digit U p | None => false end in
      if is_cmd c && behind then 32%N :: c :: space_before (Some c) t
      else c :: space_before (Some c) t
  end.

(** [re.sub("([cmds])(?=\\d)", r"\1 ", s)]. *)
Fixpoint space_after (s : str) : str :=
  match s with
  | [] => []
  | c :: t =>
      let ahead := match t with n :: _ => is_digit U n | [] => false end in
      if is_cmd c && ahead then c :: 32%N :: space_after t
      else c :: space_after t
  end.

(** [re.sub(r"\s+", " ", s)]; [inside] says that the run of white space the
    scan is in has been replaced already. *)
Fixpoint collapse (inside : bool) (s : str) : str :=
  match s with
  | [] => []
  | c :: t =>
      if is_space U c then
        if inside then collapse true t else 32%N :: collapse true t
      else c :: collapse false t
  end.

Definition add_space_around_commands (d_attr : str) : str :=
  let d_attr := space_before None d_attr in
  let d_attr := space_after d_attr in
  let d_attr := collapse false d_attr in
  strip U d_attr.

(** The two canonicalisation steps in the order [export_svg_for_glyph_dynamic]
    applies them. *)
Definition canonicalize (d_attr : str) : result str :=
  d <- round_path_data d_attr ;; Ok (add_space_around_commands d).

End Paths.

(** *** Export *)

Record transform := {
  ta : Float.float; tb : Float.float; tc : Float.float;
  td : Float.float; te : Float.float; tf : Float.float
}.

(** Lines 100-112: the glyph's dimensions, the scale and the transform. *)
Record layout := {
  lay_width : Z;
  lay_height : Z;
  lay_scale : Float.float;
  lay_transform : transform
}.

Definition build_layout (bb : bbox) (scale_size : Z) : result layout :=
  let '(xmin, ymin, xmax, ymax) := bb in
  let width := xmax - xmin in
  let height := ymax - ymin in
  let '(width, height) :=
    if (width =? 0) || (height =? 0) then (scale_size, scale_size)
    else (width, height) in
  scale <- Float.int_truediv scale_size (Z.max width height) ;;
  e <- Float.int_mul (- xmin) scale ;;
  f <- Float.int_mul ymax scale ;;
  Ok {| lay_width := width; lay_height := height; lay_scale := scale;
        lay_transform :=
          {| ta := scale; tb := Float.zero; tc := Float.zero;
             td := Float.neg scale; te := e; tf := f |} |}.

(** Lines 126-127: [int(width*scale)] and [int(height*scale)]. *)
Definition canvas_size (lay : layout) : result (Z * Z) :=
  sw <- Float.int_mul (lay_width lay) (lay_scale lay) ;;
  w <- Float.to_int sw ;;
  sh <- Float.int_mul (lay_height lay) (lay_scale lay) ;;
  h <- Float.to_int sh ;;
  Ok (w, h).

(** The document written to [out_svg_path]. *)
Record svg_document := {
  viewBox : Z * Z * Z * Z;
  width : Z;
  height : Z;
  d : str
}.

Definition quoted (s : str) : str := 34%N :: s ++ [34%N].

Definition svg_content (doc : svg_document) : str :=
  let '(x0, y0, w, h) := viewBox doc in
  py "<?xml version=" ++ quoted (py "1.0") ++ py " encoding="
    ++ quoted (py "utf-8") ++ py "?>" ++ [10%N]
    ++ py "<svg xmlns=" ++ quoted (py "http://www.w3.org/2000/svg")
    ++ py " viewBox="
    ++ quoted (str_of_int x0 ++ py " " ++ str_of_int y0 ++ py " "
               ++ str_of_int w ++ py " " ++ str_of_int h)
    ++ py " width=" ++ quoted (str_of_int (width doc))
    ++ py " height=" ++ quoted (str_of_int (height doc)) ++ py ">" ++ [10%N]
    ++ py "  <path d=" ++ quoted (d doc) ++ py " fill=" ++ quoted (py "black")
    ++ py " />" ++ [10%N]
    ++ py "</svg>" ++ [10%N].

Section Exporting.
Variable U : unicode_db.

(** fontTools' [TransformPen] over an [SVGPathPen]: [pen] is the state the
    two pens keep besides the list [_commands], which starts empty and which
    [getCommands] joins; [pen_draw] is the effect of one operator. *)
Variable pen : Type.
Variable pen_init : pen.
Variable pen_draw :
  transform -> operator * list point -> pen * list str -> pen * list str.

Definition getCommands (t : transform) (p : program) : str :=
  concat (snd (fold_left (fun st op => pen_draw t op st) p (pen_init, []))).

Definition export_svg_for_glyph_dynamic (g : glyph) (scale_size : Z)
  : result svg_document :=
  lay <- build_layout (get_glyph_bounds g) scale_size ;;
  let d_attr := strip U (getCommands (lay_transform lay) (draw g)) in
  d_attr <- round_path_data U d_attr ;;
  let d_attr := add_space_around_commands U d_attr in
  let d_attr := match d_attr with [] => py "M0 0" | _ :: _ => d_attr end in
  wh <- canvas_size lay ;;
  let '(w, h) := wh in
  Ok {| viewBox := (0, 0, w, h); width := w; height := h; d := d_attr |}.

End Exporting.

(** *** Rendering a character with Pillow *)

(** The literal [0.75]. *)
Definition three_quarters : Float.float := Float.of_decimal false 75 (- 2).

(** What the [try] block of [process_font_file] can catch: an exception of
    the arithmetic, or one raised by fontTools, by Pillow or by the operating
    system. *)
Inductive failure :=
| Arithmetic (e : exn)
| Library.

(** A step on the file system: the files after it, and the exception it
    raised, if any. *)
Definition effect := (files * option failure)%type.

Section Batch.
Variable U : unicode_db.
Variable pen : Type.
Variable pen_init : pen.
Variable pen_draw :
  transform -> operator * list point -> pen * list str -> pen * list str.

(** Pillow. [textbbox ttf_path font_size img_size char] is the box, in whole
    pixels, that [draw.textbbox((0,0), char, font=pil_font)] measures on a
    new image of side [img_size] with the font
    [ImageFont.truetype(ttf_path, size=font_size)], and [None] when one of
    these calls raises; [save_ok] says whether [draw.text] and [img.save]
    succeed. *)
Variable textbbox : str -> Z -> Z -> str -> option bbox.
Variable save_ok : picture -> bool.

Definition export_jpg_by_pillow (ttf_path char out_jpg_path : str)
    (img_size_px : Z) (fs : files) : effect :=
  match (x <- Float.int_mul img_size_px three_quarters ;; Float.to_int x) with
  | Raise e => (fs, Some (Arithmetic e))
  | Ok font_size =>
      match textbbox ttf_path font_size img_size_px char with
      | None => (fs, Some Library)
      | Some (b0, b1, b2, b3) =>
          let w := b2 - b0 in
          let h := b3 - b1 in
          let x := (img_size_px - w) / 2 - b0 in
          let y := (img_size_px - h) / 2 - b1 in
          let pic := {| pic_size := img_size_px; pic_font := ttf_path;
                        pic_font_size := font_size; pic_text := char;
                        pic_xy := (x, y) |} in
          if save_ok pic then (fs_write out_jpg_path (Jpeg pic) fs, None)
          else (fs, Some Library)
      end
  end.

(** *** A font file *)

(** A font opened by [TTFont]: its best Unicode character map, [None] when
    the font has none, and its glyph set, where looking up a missing glyph
    name raises [KeyError]. *)
Record ttfont := {
  getBestCmap : option (N -> option str);
  getGlyphSet : str -> option glyph
}.

(** [export_svg_for_glyph_dynamic] with its first and last lines: the glyph
    is looked up in the glyph set and the document is written to
    [out_svg_path]. The file is opened after the document is built, so a
    failure leaves the files as they are; opening it is taken to succeed. *)
Definition export_svg_file (font : ttfont) (glyph_name out_svg_path : str)
    (scale_size : Z) (fs : files) : effect :=
  match getGlyphSet font glyph_name with
  | None => (fs, Some Library)
  | Some g =>
      match export_svg_for_glyph_dynamic U pen pen_init pen_draw g scale_size with
      | Raise e => (fs, Some (Arithmetic e))
      | Ok doc => (fs_write out_svg_path (Text (svg_content doc)) fs, None)
      end
  end.

(** The files and the lines printed, one line for each character whose
    export failed. *)
Record world := {
  stored : files;
  printed : list (str * failure)
}.

(** The outcome of [process_font_file]: [Aborted w] when a [TypeError] left
    the loop with the world as [w]. *)
Inductive run :=
| Completed (w : world)
| Aborted (w : world).

Definition font_basename (ttf_path : str) : str :=
  fst (os_path_splitext (os_path_basename ttf_path)).

Definition svg_dir (outdir ttf_path : str) : str :=
  os_path_join outdir [font_basename ttf_path; py "svg"].

Definition jpg_dir (outdir ttf_path : str) : str :=
  os_path_join outdir [font_basename ttf_path; py "jpg"].

(** The body of the [try] block for one character. *)
Definition export_char (ttf_path : str) (font : ttfont) (outdir : str)
    (svg_scale img_size : Z) (export_jpg : bool)
    (char : N) (glyph_name : str) (fs : files) : effect :=
  let filename_base := safe_name_for_file U char char in
  let svg_path := os_path_join (svg_dir outdir ttf_path) [filename_base ++ py ".svg"] in
  match export_svg_file font glyph_name svg_path svg_scale fs with
  | (fs1, Some f) => (fs1, Some f)
  | (fs1, None) =>
      if export_jpg then
        let jpg_path :=
          os_path_join (jpg_dir outdir ttf_path) [filename_base ++ py ".jpg"] in
        export_jpg_by_pillow ttf_path [char] jpg_path img_size fs1
      else (fs1, None)
  end.

(** The loop over [char_list]. [ord(char)] raises [TypeError] on a key
    that is not one character, and so does [cp not in cmap] on a font
    without character map; both are outside the [try] block. *)
Fixpoint process_chars (ttf_path : str) (font : ttfont) (outdir : str)
    (svg_scale img_size : Z) (export_jpg : bool)
    (char_list : list str) (w : world) : run :=
  match char_list with
  | [] => Completed w
  | char :: rest =>
      match char, getBestCmap font with
      | [cp], Some cmap =>
          match cmap cp with
          | None => process_chars ttf_path font outdir svg_scale img_size export_jpg rest w
          | Some glyph_name =>
              let '(fs, raised) :=
                export_char ttf_path font outdir svg_scale img_size export_jpg
                  cp glyph_name (stored w) in
              let w' :=
                {| stored := fs;
                   printed := match raised with
                              | Some f => printed w ++ [(char, f)]
                              | None => printed w
                              end |} in
              process_chars ttf_path font outdir svg_scale img_size export_jpg rest w'
          end
      | _, _ => Aborted w
      end
  end.

(** [process_font_file(ttf_path, char_list, outdir, svg_scale, img_size,
    export_jpg)] on the font that [TTFont(ttf_path)] opens; the two
    directories are taken to exist after [os.makedirs]. *)
Definition process_font_file (ttf_path : str) (font : ttfont)
    (char_list : list str) (outdir : str) (svg_scale img_size : Z)
    (export_jpg : bool) (w : world) : run :=
  process_chars ttf_path font outdir svg_scale img_size export_jpg char_list w.

End Batch.

End Tosvgjpg.

(** ** [data_process/to_data_json.py] *)

Module ToDataJson.

Definition bad_chars : list N := [47; 92; 58; 42; 63; 34; 60; 62; 124]%N.

Definition is_bad_char (c : N) : bool := existsb (N.eqb c) bad_chars.

(** [safe_name_for_file(char, cp=None)], [char] a single character;
    [ord(char)] is the character's code point. *)
Definition safe_name_for_file (U : unicode_db) (char : N) (cp : option N) : str :=
  let cp := match cp with None => char | Some cp => cp end in
  if is_bad_char char then py "U+" ++ format_04X cp
  else
    let cat := uni_category U char in
    if Tosvgjpg.startswith_C cat || is_space U char then py "U+" ++ format_04X cp
    else [char].

(** *** The entries of a character *)

Record message := {
  content : str;
  role : str
}.

Record item := {
  messages : list message;
  images : list str
}.

(** The question of line 65, the three parts of the answer of line 66 and
    the question of line 67, as code points. *)
Definition ask_style : str :=
  [60; 105; 109; 97; 103; 101; 62; 36825; 20010; 22270; 29255; 19978; 26159;
   20160; 20040; 39118; 26684; 30340; 23383; 20307; 65292; 24182; 19988;
   35831; 20320; 35782; 21035; 26159; 20160; 20040; 23383; 65311]%N.

Definition answer_style (font_name char : str) : str :=
  [36825; 20010; 23383; 26159]%N ++ font_name
  ++ [39118; 26684; 30340; 65292; 23427; 26159; 39]%N ++ char ++ [39; 23383]%N.

Definition ask_svg : str :=
  [25105; 38656; 35201; 36825; 24352; 22270; 29255; 19978; 23383; 20307;
   30340; 83; 86; 71; 20195; 30721; 65292; 35831; 20320; 29983; 25104; 12290]%N.

(** [open(path, "r", encoding="utf-8").read()]: it raises when there is no
    such file and when the file is a JPEG, which is not UTF-8 text. *)
Definition read_text (path : str) (fs : files) : option str :=
  match fs_read path fs with
  | Some (Text s) => Some s
  | _ => None
  end.

Section Collecting.
Variable U : unicode_db.

Definition svg_path (output_dir font_name : str) (char : N) : str :=
  let font_dir := os_path_join output_dir [font_name] in
  replace_char 92 47
    (os_path_join font_dir
       [py "svg"; safe_name_for_file U char None ++ py ".svg"]).

Definition jpg_path (output_dir font_name : str) (char : N) : str :=
  let font_dir := os_path_join output_dir [font_name] in
  replace_char 92 47
    (os_path_join font_dir
       [py "jpg"; safe_name_for_file U char None ++ py ".jpg"]).

(** [build_json_for_char(char, fonts, output_dir)]; [None] when an exception
    leaves the function: the [TypeError] of [ord] on a key that is not one
    character, or the failure to read a file. *)
Fixpoint build_json_for_char (char : str) (fonts : list str) (output_dir : str)
    (fs : files) : option (list item) :=
  match fonts with
  | [] => Some []
  | font_name :: rest =>
      match char with
      | [c] =>
          let svg := svg_path output_dir font_name c in
          let jpg := jpg_path output_dir font_name c in
          if negb (os_path_exists svg fs) || negb (os_path_exists jpg fs) then
            build_json_for_char char rest output_dir fs
          else
            match read_text svg fs with
            | None => None
            | Some text =>
                let it :=
                  {| messages :=
                       [ {| content := ask_style; role := py "user" |};
                         {| content := answer_style font_name char;
                            role := py "assistant" |};
                         {| content := ask_svg; role := py "user" |};
                         {| content := text; role := py "assistant" |} ];
                     images := [jpg] |} in
                match build_json_for_char char rest output_dir fs with
                | None => None
                | Some items => Some (it :: items)
                end
            end
      | _ => None
      end
  end.

End Collecting.

End ToDataJson.

(** ** Vocabulary of the statements *)

Import Float Tosvgjpg.

(** Exact values, over the rationals: [p2 k] is [2^k] for any sign of [k],
    [frac (n, d)] is [n / d], and [mag m e] is the magnitude [m * 2^e] of a
    finite float. [ulp53] is the unit roundoff [2^-53]. *)
Definition p2 (k : Z) : Q := (2 ^ k)%Q.
Definition frac (p : Z * Z) : Q := (inject_Z (fst p) / inject_Z (snd p))%Q.
Definition mag (m e : Z) : Q := (inject_Z m * p2 e)%Q.
Definition ulp53 : Q := p2 (- 53).


(** Concrete inputs for the examples: a database with nothing beyond ASCII,
    a pen that draws nothing, a glyph without outline and a glyph whose
    precomputed bounding box is a square of side 49. *)
Definition ascii_db : unicode_db :=
  {| uni_decimal := fun _ => None; uni_space := fun _ => false;
     uni_category := fun _ => py "Cn" |}.

Definition no_pen
  : transform -> operator * list point -> unit * list str -> unit * list str :=
  fun _ _ st => st.

Definition blank_glyph : glyph :=
  {| boundingBox := None; bounds := None; draw := [] |}.

Definition square49 : glyph :=
  {| boundingBox := Some (0, 0, 49, 49); bounds := None; draw := [] |}.

Definition is_upper_hex (c : N) : bool :=
  ((48 <=? c) && (c <=? 57) || (65 <=? c) && (c <=? 70))%N.

Definition hex_digit_value (c : N) : N := (if c <=? 57 then c - 48 else c - 55)%N.

Definition hex_value (s : str) : N :=
  fold_left (fun a c => (16 * a + hex_digit_value c)%N) s 0%N.

Definition is_ascii_digit (c : N) : bool := ((48 <=? c) && (c <=? 57))%N.

Definition decimal_value (s : str) : Z :=
  fold_left (fun a c => 10 * a + (Z.of_N c - 48)) s 0.

Definition no_bad_char (s : str) : bool := forallb (fun c => negb (is_bad_char c)) s.

(** The characters canonicalisation writes: digits, the minus sign, the space. *)
Definition is_filler (c : N) : bool := is_ascii_digit c || (c =? 45)%N || (c =? 32)%N.

(** The characters of a printed integer. *)
Definition is_number_char (c : N) : bool := is_ascii_digit c || (c =? 45)%N.

Definition neighbour_isolated (U : unicode_db) (o : option N) : bool :=
  match o with
  | None => true
  | Some c => (c =? 32)%N || is_digit U c
  end.

(** The claimed isolation: the neighbours of a command letter are a space,
    a digit or an end of the string. *)
Fixpoint isolated_from (U : unicode_db) (prev : option N) (s : str) : bool :=
  match s with
  | [] => true
  | c :: t =>
      (if is_cmd c then neighbour_isolated U prev && neighbour_isolated U (hd_error t)
       else true)
      && isolated_from U (Some c) t
  end.

Definition cmd_isolated (U : unicode_db) (s : str) : bool := isolated_from U None s.

(** No adjacent pair of [prev :: s] is rejected by [bad]. *)
Fixpoint pairs_ok (bad : N -> N -> bool) (prev : option N) (s : str) : bool :=
  match s with
  | [] => true
  | c :: t =>
      negb (match prev with Some p => bad p c | None => false end)
      && pairs_ok bad (Some c) t
  end.

Definition digit_then_cmd (U : unicode_db) (p c : N) : bool := is_digit U p && is_cmd c.
Definition cmd_then_digit (U : unicode_db) (p c : N) : bool := is_cmd p && is_digit U c.

(** What the code guarantees: a command letter and a digit never touch. *)
Definition cmd_separated (U : unicode_db) (s : str) : bool :=
  pairs_ok (fun p c => digit_then_cmd U p c || cmd_then_digit U p c) None s.

(** A relation on adjacent characters that never involves the space. *)
Definition ignores_space (bad : N -> N -> bool) : Prop :=
  forall x, bad x 32%N = false /\ bad 32%N x = false.

(** A character that is not white space, or the space itself. *)
Definition plain_space (U : unicode_db) (c : N) : bool :=
  negb (is_space U c) || (c =? 32)%N.

(** The characters of [s] outside every match of the number pattern. *)
Fixpoint unmatched (U : unicode_db) (skip : nat) (s : str) : str :=
  match s with
  | [] => []
  | c :: t =>
      match skip with
      | S k => unmatched U k t
      | O =>
          match match_number U s with
          | Some (_, rest) => unmatched U (length t - length rest) t
          | None => c :: unmatched U 0 t
          end
      end
  end.

(** The frame of [s]: its characters that are neither part of a numeric
    token nor white space, in order. *)
Definition frame (U : unicode_db) (s : str) : str :=
  filter (fun c => negb (is_space U c)) (unmatched U 0 s).

(** [weave kept filler t]: [t] interleaves [kept] and [filler], each in order. *)
Inductive weave : str -> str -> str -> Prop :=
| weave_nil : weave [] [] []
| weave_keep c k f t : weave k f t -> weave (c :: k) f (c :: t)
| weave_fill c k f t : weave k f t -> weave k (c :: f) (c :: t).

Definition starts_nondigit (U : unicode_db) (s : str) : bool :=
  match s with [] => true | c :: _ => negb (is_digit U c) end.

(** A character that can neither start nor extend a numeric token. *)
Definition inert (U : unicode_db) (c : N) : bool :=
  negb (is_digit U c || (c =? 45)%N || (c =? 46)%N || (c =? 101)%N).

Definition starts_inert (U : unicode_db) (s : str) : bool :=
  match s with
  | [] => true
  | c :: _ => inert U c
  end.

Definition digit_char (d : Z) : N := Z.to_N (48 + d).

Definition digits_ok (ds : list Z) : bool := forallb (fun d => (0 <=? d) && (d <=? 9)) ds.

Definition nonempty {A : Type} (l : list A) : bool :=
  match l with [] => false | _ :: _ => true end.

Definition sign_text (sg : option bool) : str :=
  match sg with
  | Some true => [45%N]
  | Some false => [43%N]
  | None => []
  end.

Definition exponent_text (ex : option (option bool * list Z)) : str :=
  match ex with
  | None => []
  | Some (sg, ds) => 101%N :: sign_text sg ++ map digit_char ds
  end.

(** The text of a numeric token, written with ASCII digits. *)
Definition number_text (t : number) : str :=
  (if num_neg t then [45%N] else []) ++ map digit_char (num_int t)
  ++ (if num_dot t then [46%N] else []) ++ map digit_char (num_frac t)
  ++ exponent_text (num_exp t).

Definition wf_number (t : number) : bool :=
  nonempty (num_int t) && digits_ok (num_int t) && digits_ok (num_frac t)
  && (num_dot t || negb (nonempty (num_frac t)))
  && match num_exp t with
     | None => true
     | Some (_, ds) => nonempty ds && digits_ok ds
     end.

(** Paths as a renderer writes them: numeric tokens, each followed by the
    end of the string or by an inert character, and inert characters. *)
Inductive path (U : unicode_db) (tok : number -> Prop) : str -> Prop :=
| path_nil : path U tok []
| path_sep c s : inert U c = true -> path U tok s -> path U tok (c :: s)
| path_num t s :
    wf_number t = true -> tok t -> starts_inert U s = true -> path U tok s ->
    path U tok (number_text t ++ s).

Definition rendered_path (U : unicode_db) : str -> Prop := path U (fun _ => True).

(** A token that [repl] writes back unchanged. *)
Definition rounded_token (t : number) : Prop := repl t = Ok (number_text t).

Definition canonical_path (U : unicode_db) : str -> Prop := path U rounded_token.

(** The token [repl] writes for the integer [n]. *)
Definition int_number (n : Z) : number :=
  {| num_neg := n <? 0;
     num_int := map (fun c => Z.of_N c - 48) (str_of_nat (Z.abs n));
     num_dot := false; num_frac := []; num_exp := None |}.

(** [rev (dropwhile p (rev s))], by recursion on [s]. *)
Fixpoint rstrip (p : N -> bool) (s : str) : str :=
  match s with
  | [] => []
  | c :: t =>
      match rstrip p t with
      | [] => if p c then [] else [c]
      | r => c :: r
      end
  end.

Definition token_char (c : N) : bool :=
  is_ascii_digit c || (c =? 45)%N || (c =? 46)%N || (c =? 101)%N || (c =? 43)%N.

(** White space is the space character, never twice in a row; [after_space]
    says that a space precedes [s]. *)
Fixpoint single_spaced (U : unicode_db) (after_space : bool) (s : str) : bool :=
  match s with
  | [] => true
  | c :: t =>
      if is_space U c then (c =? 32)%N && negb after_space && single_spaced U true t
      else single_spaced U false t
  end.

(** No character of [s] is a digit. *)
Definition no_digit (U : unicode_db) (s : str) : bool :=
  forallb (fun c => negb (is_digit U c)) s.

(** The token [m e x] of two printed naturals. *)
Definition exp_number (m x : Z) : number :=
  {| num_neg := false;
     num_int := map (fun c => Z.of_N c - 48) (str_of_nat m);
     num_dot := false; num_frac := [];
     num_exp := Some (None, map (fun c => Z.of_N c - 48) (str_of_nat x)) |}.

(** A token that is a printed integer, and a path whose numbers are printed
    integers. *)
Definition integer_token (t : number) : Prop := exists n, t = int_number n.

Definition integer_path (U : unicode_db) : str -> Prop := path U integer_token.

(** Neither the first nor the last character is white space. *)
Definition trimmed (U : unicode_db) (s : str) : bool :=
  match s with
  | [] => true
  | c :: _ => negb (is_space U c) && negb (is_space U (last s c))
  end.

(** The binary64 [1.0]. *)
Definition float_one : float := Fin false (2 ^ 52) (- 52).

(** The two files of the character [c]: the directory, a slash, the file
    name of the character and the extension. *)
Definition svg_file (U : unicode_db) (outdir ttf_path : str) (c : N) : str :=
  svg_dir outdir ttf_path ++ py "/" ++ Tosvgjpg.safe_name_for_file U c c ++ py ".svg".

Definition jpg_file (U : unicode_db) (outdir ttf_path : str) (c : N) : str :=
  jpg_dir outdir ttf_path ++ py "/" ++ Tosvgjpg.safe_name_for_file U c c ++ py ".jpg".

(** The world a run ends in, completed or not. *)
Definition world_of (r : run) : world :=
  match r with
  | Completed w => w
  | Aborted w => w
  end.

(** A key of one character. *)
Definition single_character (k : str) : bool :=
  match k with
  | [_] => true
  | _ => false
  end.

Definition no_backslash (s : str) : bool := forallb (fun c => negb (c =? 92)%N) s.

(** More concrete inputs: a database that knows the upper-case letters, a
    glyph drawn as a triangle, a pen that writes one contour at each
    [moveTo], a text box, a font with the single character [A] and a world
    without files. *)
Definition letters_db : unicode_db :=
  {| uni_decimal := fun _ => None; uni_space := fun _ => false;
     uni_category :=
       fun c => if ((65 <=? c) && (c <=? 90))%N then py "Lu" else py "Cn" |}.

Definition triangle : glyph :=
  {| boundingBox := None; bounds := None;
     draw := [(moveTo, [(1, 2)]); (lineTo, [(5, 0)]); (lineTo, [(3, 7)]);
              (closePath, [])] |}.

Definition sketch_pen
  : transform -> operator * list point -> unit * list str -> unit * list str :=
  fun _ op st =>
    match fst op with
    | moveTo => (tt, snd st ++ [py "M10.6,20.4L30,40Z"])
    | _ => st
    end.

Definition fixed_box : str -> Z -> Z -> str -> option bbox :=
  fun _ _ _ _ => Some (2, -5, 301, 340).

Definition letter_font : ttfont :=
  {| getBestCmap := Some (fun c => if (c =? 65)%N then Some (py "A") else None);
     getGlyphSet := fun n => if str_eqb n (py "A") then Some square49 else None |}.

Definition empty_world : world := {| stored := []; printed := [] |}.

(** Files as two runs could have left them: the font directory [Kai/Ti]
    holds both files of [A], the directory [Song] only the document. *)
Definition sample_files : files :=
  [(py "out/Kai/Ti/svg/A.svg", Text (py "<svg/>"));
   (py "out/Kai/Ti/jpg/A.jpg",
    Jpeg {| pic_size := 512; pic_font := py "fonts/Kai.ttf"; pic_font_size := 384;
            pic_text := py "A"; pic_xy := (104, 88) |});
   (py "out/Song/svg/A.svg", Text (py "<svg/>"))].

Definition sample_item : ToDataJson.item :=
  {| ToDataJson.messages :=
       [ {| ToDataJson.content := ToDataJson.ask_style; ToDataJson.role := py "user" |};
         {| ToDataJson.content := ToDataJson.answer_style (py "Kai\Ti") (py "A");
            ToDataJson.role := py "assistant" |};
         {| ToDataJson.content := ToDataJson.ask_svg; ToDataJson.role := py "user" |};
         {| ToDataJson.content := py "<svg/>"; ToDataJson.role := py "assistant" |} ];
     ToDataJson.images := [py "out/Kai/Ti/jpg/A.jpg"] |}.

(** * Properties *)

(** ** Rounding to the nearest binary64 *)

Lemma rne_bounds a b : 0 <= a -> 0 < b -> - b <= 2 * (rne a b * b - a) <= b.
Proof.
  intros Ha Hb. unfold rne.
  pose proof (Z.div_mod a b ltac:(lia)) as E.
  pose proof (Z.mod_pos_bound a b Hb) as R.
  set (q := a / b) in *. set (r := a mod b) in *. clearbody q r.
  destruct (Z.compare_spec (2 * r) b); [destruct (Z.even q)| |]; lia.
Qed.

Lemma rne_exact k b : 0 < b -> rne (k * b) b = k.
Proof.
  intros Hb. unfold rne. rewrite Z.mod_mul, Z.div_mul by lia.
  destruct (Z.compare_spec (2 * 0) b); lia.
Qed.

Lemma rne_nonneg a b : 0 <= a -> 0 < b -> 0 <= rne a b.
Proof.
  intros Ha Hb. unfold rne. pose proof (Z.div_pos a b Ha Hb).
  destruct (2 * (a mod b) ?= b); [destruct (Z.even (a / b))| |]; lia.
Qed.

Local Open Scope Q_scope.

Lemma p2_pos k : 0 < p2 k.
Proof. apply Qpower_0_lt. reflexivity. Qed.

Lemma p2_add a b : p2 (a + b) == p2 a * p2 b.
Proof. apply Qpower_plus. discriminate. Qed.

Lemma p2_opp a : p2 (- a) == / p2 a.
Proof. apply Qpower_opp. Qed.

Lemma p2_Z k : (0 <= k)%Z -> p2 k == inject_Z (2 ^ k).
Proof. intros. unfold p2. rewrite Zpower_Qpower by assumption. reflexivity. Qed.

Lemma p2_le a b : (a <= b)%Z -> p2 a <= p2 b.
Proof. intros. apply Qpower_le_compat_l; [assumption|]. discriminate. Qed.

Lemma p2_lt a b : (a < b)%Z -> p2 a < p2 b.
Proof. intros. apply Qpower_lt_compat_l; [assumption|]. reflexivity. Qed.

Lemma p2_lt_inv a b : p2 a < p2 b -> (a < b)%Z.
Proof.
  intros H. destruct (Z_lt_le_dec a b) as [|L]; [assumption|].
  apply p2_le in L. lra.
Qed.

Lemma Zle_Q x y : (x <= y)%Z -> inject_Z x <= inject_Z y.
Proof. intros H. rewrite <- Zle_Qle. exact H. Qed.

Lemma Zlt_Q x y : (x < y)%Z -> inject_Z x < inject_Z y.
Proof. intros H. rewrite <- Zlt_Qlt. exact H. Qed.

Lemma Q_Zle x y : inject_Z x <= inject_Z y -> (x <= y)%Z.
Proof. intros H. rewrite Zle_Qle. exact H. Qed.

Lemma Q_Zlt x y : inject_Z x < inject_Z y -> (x < y)%Z.
Proof. intros H. rewrite Zlt_Qlt. exact H. Qed.

Lemma inject_Z_pos z : (0 < z)%Z -> 0 < inject_Z z.
Proof. intros H. apply (Zlt_Q 0 z H). Qed.

Lemma frac_mul a b : (0 < b)%Z -> frac (a, b) * inject_Z b == inject_Z a.
Proof.
  intros Hb. unfold frac; simpl. field.
  pose proof (inject_Z_pos b Hb). lra.
Qed.

Lemma frac_scaled n d k :
  (0 < d)%Z -> (0 < snd (scaled n d k))%Z /\ frac (scaled n d k) == frac (n, d) * p2 (- k).
Proof.
  intros Hd. pose proof (inject_Z_pos d Hd) as Hd'.
  unfold scaled. destruct (Z.leb_spec 0 k) as [Hk|Hk]; simpl.
  - assert (0 < 2 ^ k)%Z as H2 by (apply Z.pow_pos_nonneg; lia).
    split; [lia|]. unfold frac; simpl.
    rewrite p2_opp, (p2_Z k Hk), inject_Z_mult.
    pose proof (inject_Z_pos _ H2). field. split; lra.
  - split; [lia|]. unfold frac; simpl.
    rewrite (p2_Z (- k)) by lia. rewrite inject_Z_mult. field. lra.
Qed.

Lemma frac_floor a b :
  (0 < b)%Z -> inject_Z (a / b) <= frac (a, b) /\ frac (a, b) < inject_Z (a / b) + 1.
Proof.
  intros Hb. pose proof (inject_Z_pos b Hb) as Hb'.
  pose proof (frac_mul a b Hb) as E.
  pose proof (Z.div_mod a b ltac:(lia)) as D.
  pose proof (Z.mod_pos_bound a b Hb) as R.
  assert (inject_Z a == inject_Z b * inject_Z (a / b) + inject_Z (a mod b)) as D'.
  { rewrite <- inject_Z_mult, <- inject_Z_plus, <- D. reflexivity. }
  assert (0 <= inject_Z (a mod b)) as R1 by (apply (Zle_Q 0); lia).
  assert (inject_Z (a mod b) < inject_Z b) as R2 by (apply Zlt_Q; lia).
  set (y := frac (a, b)) in *. clearbody y.
  set (q := inject_Z (a / b)) in *. clearbody q.
  split; nra.
Qed.

Lemma frac_rne a b :
  (0 <= a)%Z -> (0 < b)%Z ->
  inject_Z (rne a b) - (1#2) <= frac (a, b) /\ frac (a, b) <= inject_Z (rne a b) + (1#2).
Proof.
  intros Ha Hb. pose proof (inject_Z_pos b Hb) as Hb'.
  pose proof (frac_mul a b Hb) as E.
  pose proof (rne_bounds a b Ha Hb) as [L R].
  assert (2 * a <= 2 * (rne a b * b) + b)%Z as L' by lia.
  assert (2 * (rne a b * b) <= 2 * a + b)%Z as R' by lia.
  clear L R. apply Zle_Q in L', R'.
  rewrite ?inject_Z_plus, ?inject_Z_mult in L', R'.
  set (y := frac (a, b)) in *. clearbody y.
  set (q := inject_Z (rne a b)) in *. clearbody q.
  change (inject_Z 2) with 2 in *.
  split; nra.
Qed.

Lemma log2_Q n : (0 < n)%Z -> p2 (Z.log2 n) <= inject_Z n /\ inject_Z n < p2 (Z.log2 n + 1).
Proof.
  intros Hn. pose proof (Z.log2_spec n Hn) as [L R].
  pose proof (Z.log2_nonneg n).
  rewrite !p2_Z by lia. split.
  - apply Zle_Q. exact L.
  - apply Zlt_Q. replace (Z.log2 n + 1)%Z with (Z.succ (Z.log2 n)) by lia. exact R.
Qed.

Lemma floor_log2_spec n d :
  (0 < n)%Z -> (0 < d)%Z ->
  p2 (floor_log2 n d) <= frac (n, d) /\ frac (n, d) < p2 (floor_log2 n d + 1).
Proof.
  intros Hn Hd. unfold floor_log2.
  set (k := (Z.log2 n - Z.log2 d)%Z).
  pose proof (frac_scaled n d k Hd) as [Hb E].
  destruct (scaled n d k) as [a b] eqn:Es. simpl in Hb.
  pose proof (frac_mul a b Hb) as Ea.
  pose proof (frac_mul n d Hd) as En.
  pose proof (inject_Z_pos b Hb) as Hb'.
  pose proof (inject_Z_pos d Hd) as Hd'.
  pose proof (log2_Q n Hn) as [Ln Rn].
  pose proof (log2_Q d Hd) as [Ld Rd].
  pose proof (p2_pos k) as Pk. pose proof (p2_pos (- k)) as Pk'.
  assert (p2 k * p2 (- k) == 1) as Pinv.
  { rewrite <- p2_add. replace (k + - k)%Z with 0%Z by lia. reflexivity. }
  assert (p2 (Z.log2 n) == p2 k * p2 (Z.log2 d)) as Pn.
  { rewrite <- p2_add. unfold k. replace (Z.log2 n - Z.log2 d + Z.log2 d)%Z with (Z.log2 n) by lia. reflexivity. }
  assert (forall j, p2 (j + 1) == 2 * p2 j) as P1.
  { intros j. rewrite p2_add. change (p2 1) with 2. ring. }
  rewrite P1 in Rn, Rd.
  assert (x_eq : frac (n, d) == frac (a, b) * p2 k).
  { rewrite E. rewrite <- Qmult_assoc, (Qmult_comm (p2 (- k))), Pinv. ring. }
  assert (p2 (k - 1 + 1) == p2 k) as Pk1 by (replace (k - 1 + 1)%Z with k by lia; reflexivity).
  assert (p2 k == 2 * p2 (k - 1)) as Pk2 by (rewrite <- P1, Pk1; reflexivity).
  pose proof (p2_pos (Z.log2 d)) as Pd.
  destruct (Z.leb_spec b a) as [C|C].
  - apply Zle_Q in C. rewrite P1.
    set (x := frac (n, d)) in *. set (y := frac (a, b)) in *.
    set (A := inject_Z a) in *. set (B := inject_Z b) in *.
    set (N := inject_Z n) in *. set (D := inject_Z d) in *.
    set (pk := p2 k) in *. set (pn := p2 (Z.log2 n)) in *. set (pd := p2 (Z.log2 d)) in *.
    clearbody x y A B N D pk pn pd.
    assert (1 <= y) by nra.
    split; [nra|].
    assert (x * D < 2 * pk * D) by nra.
    nra.
  - apply Zlt_Q in C. rewrite Pk1.
    set (x := frac (n, d)) in *. set (y := frac (a, b)) in *.
    set (A := inject_Z a) in *. set (B := inject_Z b) in *.
    set (N := inject_Z n) in *. set (D := inject_Z d) in *.
    set (pk := p2 k) in *. set (pk1 := p2 (k - 1)) in *.
    set (pn := p2 (Z.log2 n)) in *. set (pd := p2 (Z.log2 d)) in *.
    clearbody x y A B N D pk pk1 pn pd.
    assert (y < 1) by nra.
    split; [|nra].
    assert (pk1 * D <= x * D) by nra.
    nra.
Qed.

Lemma p2_inv k : p2 k * p2 (- k) == 1.
Proof. rewrite <- p2_add. replace (k + - k)%Z with 0%Z by lia. reflexivity. Qed.

Lemma Z_of_Q_half q k :
  inject_Z q - (1#2) <= inject_Z k -> inject_Z k <= inject_Z q + (1#2) -> q = k.
Proof.
  intros L R.
  assert (inject_Z q < inject_Z (k + 1)) as A by (rewrite inject_Z_plus; change (inject_Z 1) with 1; lra).
  assert (inject_Z k < inject_Z (q + 1)) as B by (rewrite inject_Z_plus; change (inject_Z 1) with 1; lra).
  apply Q_Zlt in A, B. lia.
Qed.

(** The shape of [nearest]: the scaled fraction, its rounding and the exponent. *)
Lemma nearest_cases s n d :
  (0 < n)%Z -> (0 < d)%Z ->
  exists q e,
    e = Z.max (floor_log2 n d - 52) emin /\
    (0 <= q <= 2 ^ 53)%Z /\
    inject_Z q - (1#2) <= frac (n, d) * p2 (- e) /\
    frac (n, d) * p2 (- e) <= inject_Z q + (1#2) /\
    nearest s n d =
      (if (q =? 0)%Z then Fin s 0 0
       else let '(m, e') := if (q =? 2 ^ 53)%Z then (2 ^ 52, e + 1)%Z else (q, e) in
            if (emax <? e')%Z then Inf s else Fin s m e').
Proof.
  intros Hn Hd.
  set (e := Z.max (floor_log2 n d - 52) emin).
  pose proof (frac_scaled n d e Hd) as [Hb E].
  destruct (scaled n d e) as [a b] eqn:Es. simpl in Hb.
  assert (0 <= a)%Z as Ha.
  { unfold scaled in Es. destruct (0 <=? e)%Z; inversion Es; subst.
    - lia.
    - apply Z.mul_nonneg_nonneg; [lia|]. apply Z.pow_nonneg. lia. }
  exists (rne a b), e.
  pose proof (frac_rne a b Ha Hb) as [L R].
  pose proof (floor_log2_spec n d Hn Hd) as [_ Up].
  split; [reflexivity|]. rewrite <- E.
  split; [|split; [exact L|split; [exact R|]]].
  - split; [apply rne_nonneg; assumption|].
    assert (frac (a, b) < inject_Z (2 ^ 53)) as Lt.
    { rewrite E. rewrite <- p2_Z by lia.
      assert (p2 (floor_log2 n d + 1) <= p2 (53 + e)) by (apply p2_le; lia).
      assert (p2 (53 + e) * p2 (- e) == p2 53).
      { rewrite p2_add, <- Qmult_assoc, p2_inv. ring. }
      pose proof (p2_pos (- e)).
      set (x := frac (n, d)) in *. clearbody x. nra. }
    assert (inject_Z (rne a b) < inject_Z (2 ^ 53 + 1)) as Lt'.
    { rewrite inject_Z_plus. change (inject_Z 1) with 1. lra. }
    apply Q_Zlt in Lt'. lia.
  - unfold nearest. replace (n =? 0)%Z with false by (symmetry; apply Z.eqb_neq; lia).
    fold e. rewrite Es. reflexivity.
Qed.

(** Rounding error in the normal range. *)
Lemma nearest_normal s n d :
  (0 < n)%Z -> (0 < d)%Z ->
  p2 (- 1022) <= frac (n, d) -> frac (n, d) < p2 1023 ->
  exists m e,
    nearest s n d = Fin s m e /\ (2 ^ 52 <= m < 2 ^ 53)%Z /\ (emin <= e <= emax)%Z /\
    frac (n, d) * (1 - ulp53) <= mag m e /\ mag m e <= frac (n, d) * (1 + ulp53).
Proof.
  intros Hn Hd Lo Hi.
  destruct (nearest_cases s n d Hn Hd) as (q & e & He & Hq & L & R & Eq).
  pose proof (floor_log2_spec n d Hn Hd) as [Dn Up].
  set (lg := floor_log2 n d) in *.
  assert (- 1022 <= lg <= 1022)%Z as Hlg.
  { split.
    - assert (p2 (- 1022) < p2 (lg + 1)) as A by lra. apply p2_lt_inv in A. lia.
    - assert (p2 lg < p2 1023) as A by lra. apply p2_lt_inv in A. lia. }
  assert (e = lg - 52)%Z as He' by (unfold emin in He; lia).
  assert (p2 lg * p2 (- e) == p2 52) as P52.
  { rewrite <- p2_add. replace (lg + - e)%Z with 52%Z by lia. reflexivity. }
  assert (p2 e * p2 53 == 2 * p2 lg) as Pe.
  { rewrite <- p2_add. replace (e + 53)%Z with (lg + 1)%Z by lia. rewrite p2_add. change (p2 1) with 2. ring. }
  pose proof (p2_pos (- e)) as Pne. pose proof (p2_pos e) as Ppe. pose proof (p2_pos lg) as Plg.
  pose proof (p2_inv e) as Pinv.
  assert (p2 53 * ulp53 == 1) as Pu by (unfold ulp53; apply p2_inv).
  assert (0 < ulp53) as Upos by apply p2_pos.
  pose proof (p2_pos 53) as P53.
  assert (2 ^ 52 <= q)%Z as Hq52.
  { assert (inject_Z (2 ^ 52 - 1) < inject_Z q) as A.
    { assert (p2 52 <= frac (n, d) * p2 (- e)) as B.
      { rewrite <- P52. apply Qmult_le_compat_r; lra. }
      rewrite (p2_Z 52) in B by lia.
      change (inject_Z (2 ^ 52 - 1)) with (inject_Z (2 ^ 52) - 1). lra. }
    apply Q_Zlt in A. lia. }
  assert (frac (n, d) * (1 - ulp53) <= mag q e /\ mag q e <= frac (n, d) * (1 + ulp53)) as Err.
  { unfold mag.
    set (x := frac (n, d)) in *. set (Q := inject_Z q) in *.
    set (pe := p2 e) in *. set (pne := p2 (- e)) in *. set (plg := p2 lg) in *.
    set (u := ulp53) in *. set (p53 := p2 53) in *.
    clearbody x Q pe pne plg u p53.
    assert (x == x * pne * pe) as X by (rewrite <- Qmult_assoc, (Qmult_comm pne), Pinv; ring).
    assert (pe * (1#2) <= x * u) as Hu.
    { assert (pe * (1#2) * p53 <= x * u * p53) as A.
      { setoid_replace (x * u * p53) with (x * (p53 * u)) by ring. rewrite Pu.
        setoid_replace (pe * (1#2) * p53) with ((1#2) * (pe * p53)) by ring. rewrite Pe. lra. }
      nra. }
    split; nra. }
  destruct (Z.eqb_spec q 0) as [Z0|_]; [lia|].
  destruct (Z.eqb_spec q (2 ^ 53)) as [C|C].
  - exists (2 ^ 52)%Z, (e + 1)%Z. cbv zeta iota beta in Eq.
    replace (emax <? e + 1)%Z with false in Eq by (symmetry; apply Z.ltb_ge; unfold emax; lia).
    split; [exact Eq|]. split; [lia|]. split; [unfold emin, emax; lia|].
    assert (mag (2 ^ 52) (e + 1) == mag q e) as M.
    { unfold mag. rewrite C, p2_add. change (p2 1) with 2.
      change (inject_Z (2 ^ 53)) with (2 * inject_Z (2 ^ 52)). ring. }
    rewrite M. exact Err.
  - exists q, e. cbv zeta iota beta in Eq.
    replace (emax <? e)%Z with false in Eq by (symmetry; apply Z.ltb_ge; unfold emax; lia).
    split; [exact Eq|]. split; [lia|]. split; [unfold emin, emax; lia|]. exact Err.
Qed.

(** A representable value is returned as it is. *)
Lemma nearest_exact s n d m0 e0 :
  (0 < n)%Z -> (0 < d)%Z -> (0 < m0 < 2 ^ 53)%Z -> (emin <= e0 <= emax)%Z ->
  frac (n, d) == mag m0 e0 ->
  exists m e,
    nearest s n d = Fin s m e /\ (0 < m < 2 ^ 53)%Z /\ (emin <= e <= emax)%Z /\
    mag m e == frac (n, d).
Proof.
  intros Hn Hd Hm He0 X.
  destruct (nearest_cases s n d Hn Hd) as (q & e & He & Hq & L & R & Eq).
  pose proof (floor_log2_spec n d Hn Hd) as [Dn Up].
  set (lg := floor_log2 n d) in *.
  assert (lg - 52 <= e0)%Z as Hlg.
  { assert (p2 lg < p2 (53 + e0)) as A.
    { rewrite p2_add. rewrite X in Dn. unfold mag in Dn.
      assert (inject_Z m0 < p2 53) by (rewrite (p2_Z 53) by lia; apply Zlt_Q; lia).
      pose proof (p2_pos e0). nra. }
    apply p2_lt_inv in A. lia. }
  assert (e <= e0)%Z as Hee by lia.
  set (K := (m0 * 2 ^ (e0 - e))%Z).
  assert (frac (n, d) * p2 (- e) == inject_Z K) as Y.
  { rewrite X. unfold mag, K. rewrite inject_Z_mult, <- p2_Z by lia.
    replace (e0 - e)%Z with (e0 + - e)%Z by lia. rewrite p2_add. ring. }
  rewrite Y in L, R.
  assert (q = K) as QK by (apply Z_of_Q_half; assumption).
  assert (0 < K)%Z as Kpos.
  { unfold K. apply Z.mul_pos_pos; [lia|]. apply Z.pow_pos_nonneg; lia. }
  assert (mag q e == frac (n, d)) as M.
  { unfold mag. rewrite QK, <- Y, <- Qmult_assoc, (Qmult_comm (p2 (- e))), p2_inv. ring. }
  destruct (Z.eqb_spec q 0) as [Z0|_]; [lia|].
  destruct (Z.eqb_spec q (2 ^ 53)) as [C|C].
  - assert (e < e0)%Z as Hlt.
    { assert (p2 e < p2 e0) as A.
      { rewrite X in M. unfold mag in M. rewrite C in M.
        assert (inject_Z m0 < inject_Z (2 ^ 53)) by (apply Zlt_Q; lia).
        pose proof (p2_pos e0). pose proof (p2_pos e).
        assert (0 < inject_Z m0) by (apply inject_Z_pos; lia). nra. }
      apply p2_lt_inv in A. exact A. }
    exists (2 ^ 52)%Z, (e + 1)%Z. cbv zeta iota beta in Eq.
    replace (emax <? e + 1)%Z with false in Eq by (symmetry; apply Z.ltb_ge; lia).
    split; [exact Eq|]. split; [lia|]. split; [unfold emin in *; lia|].
    rewrite <- M. unfold mag. rewrite C, p2_add. change (p2 1) with 2.
    change (inject_Z (2 ^ 53)) with (2 * inject_Z (2 ^ 52)). ring.
  - exists q, e. cbv zeta iota beta in Eq.
    replace (emax <? e)%Z with false in Eq by (symmetry; apply Z.ltb_ge; lia).
    split; [exact Eq|]. split; [lia|]. split; [unfold emin in *; lia|]. exact M.
Qed.

Lemma frac_val m e :
  (0 < snd (scaled m 1 (- e)))%Z /\ frac (scaled m 1 (- e)) == mag m e.
Proof.
  pose proof (frac_scaled m 1 (- e) ltac:(lia)) as [H E].
  split; [exact H|]. rewrite E. unfold frac, mag; simpl.
  rewrite Z.opp_involutive. field.
Qed.

(** [int(x)] is the floor of a non-negative finite value. *)
Lemma to_int_spec s m e :
  exists z, to_int (Fin s m e) = Ok (signed s z) /\
            inject_Z z <= mag m e /\ mag m e < inject_Z z + 1.
Proof.
  pose proof (frac_val m e) as [Hb E].
  unfold to_int. destruct (scaled m 1 (- e)) as [a b]. simpl in Hb.
  exists (a / b)%Z. split; [reflexivity|]. rewrite <- E. apply frac_floor. exact Hb.
Qed.

(** [round(x)] is within one half of a non-negative finite value. *)
Lemma round_spec s m e :
  (0 <= m)%Z ->
  exists z, round (Fin s m e) = Ok (signed s z) /\
            inject_Z z - (1#2) <= mag m e /\ mag m e <= inject_Z z + (1#2).
Proof.
  intros Hm. pose proof (frac_val m e) as [Hb E].
  unfold round. destruct (scaled m 1 (- e)) as [a b] eqn:Es. simpl in Hb.
  assert (0 <= a)%Z as Ha.
  { unfold scaled in Es. destruct (0 <=? - e)%Z; inversion Es; subst.
    - lia.
    - apply Z.mul_nonneg_nonneg; [lia|]. apply Z.pow_nonneg. lia. }
  exists (rne a b). split; [reflexivity|]. rewrite <- E. apply frac_rne; assumption.
Qed.

Lemma mag_int z : mag z 0 == inject_Z z.
Proof. unfold mag. change (p2 0) with 1. ring. Qed.

Lemma frac_int z : frac (z, 1%Z) == inject_Z z.
Proof. unfold frac; simpl. field. Qed.

(** Integers up to [2^53] convert exactly. *)
Lemma representable_int z :
  (0 < z <= 2 ^ 53)%Z ->
  exists m0 e0, (0 < m0 < 2 ^ 53)%Z /\ (emin <= e0 <= emax)%Z /\ inject_Z z == mag m0 e0.
Proof.
  intros Hz. destruct (Z.eq_dec z (2 ^ 53)) as [E|E].
  - exists (2 ^ 52)%Z, 1%Z. split; [lia|]. split; [unfold emin, emax; lia|].
    subst z. reflexivity.
  - exists z, 0%Z. split; [lia|]. split; [unfold emin, emax; lia|].
    rewrite mag_int. reflexivity.
Qed.

Lemma of_int_exact z :
  (0 < z <= 2 ^ 53)%Z ->
  exists m e, of_int z = Ok (Fin false m e) /\ (0 < m < 2 ^ 53)%Z /\
              (emin <= e <= emax)%Z /\ mag m e == inject_Z z.
Proof.
  intros Hz. destruct (representable_int z Hz) as (m0 & e0 & Hm & He & X).
  destruct (nearest_exact false z 1 m0 e0) as (m & e & N & Hm' & He' & M);
    try lia; try assumption.
  { rewrite frac_int. exact X. }
  exists m, e. unfold of_int.
  replace (z <? 0)%Z with false by (symmetry; apply Z.ltb_ge; lia).
  rewrite Z.abs_eq by lia. rewrite N.
  split; [reflexivity|]. split; [assumption|]. split; [assumption|].
  rewrite M. apply frac_int.
Qed.

(** The product of two positive finite floats is the rounding of the exact product. *)
Lemma mul_frac s1 m1 e1 s2 m2 e2 :
  exists n d, mul (Fin s1 m1 e1) (Fin s2 m2 e2) = nearest (xorb s1 s2) n d /\
              (0 < d)%Z /\ frac (n, d) == mag m1 e1 * mag m2 e2 /\
              ((0 < m1)%Z -> (0 < m2)%Z -> (0 < n)%Z).
Proof.
  pose proof (frac_val (m1 * m2) (e1 + e2)) as [Hb E].
  unfold mul. destruct (scaled (m1 * m2) 1 (- (e1 + e2))) as [n d] eqn:Es.
  exists n, d. split; [reflexivity|]. simpl in Hb. split; [exact Hb|]. split.
  - rewrite E. unfold mag. rewrite inject_Z_mult, p2_add. ring.
  - intros H1 H2. unfold scaled in Es.
    destruct (Z.leb_spec 0 (- (e1 + e2))); inversion Es; subst.
    + nia.
    + apply Z.mul_pos_pos; [nia|]. apply Z.pow_pos_nonneg; lia.
Qed.

Local Open Scope Z_scope.

Lemma bind_ok {A B} (c : result A) (k : A -> result B) v :
  bind c k = Ok v -> exists a, c = Ok a /\ k a = Ok v.
Proof. destruct c; simpl; intros H; [eauto|discriminate]. Qed.

Lemma of_int_zero : of_int 0 = Ok (Fin false 0 0).
Proof. reflexivity. Qed.

Lemma mul_zero_l s x m e : mul (Fin s 0 x) (Fin false m e) = Fin s 0 0.
Proof.
  unfold mul. rewrite Z.mul_0_l. unfold scaled.
  destruct (0 <=? - (x + e)); unfold nearest; simpl; destruct s; reflexivity.
Qed.

Local Open Scope Q_scope.

Lemma ulp53_val : ulp53 == 1 # 9007199254740992.
Proof. reflexivity. Qed.

(** The quotient of two positive machine-range integers. *)
Lemma int_truediv_pos S M :
  (0 < S <= 2 ^ 53)%Z -> (0 < M <= 2 ^ 53)%Z ->
  exists m e,
    int_truediv S M = Ok (Fin false m e) /\ (2 ^ 52 <= m < 2 ^ 53)%Z /\
    frac (S, M) * (1 - ulp53) <= mag m e /\ mag m e <= frac (S, M) * (1 + ulp53).
Proof.
  intros HS HM.
  assert (p2 (- 1022) <= frac (S, M) /\ frac (S, M) < p2 1023) as [Lo Hi].
  { pose proof (frac_mul S M ltac:(lia)) as E.
    assert (1 <= inject_Z S) by (apply (Zle_Q 1); lia).
    assert (inject_Z S <= inject_Z (2 ^ 53)) by (apply Zle_Q; lia).
    assert (1 <= inject_Z M) by (apply (Zle_Q 1); lia).
    assert (inject_Z M <= inject_Z (2 ^ 53)) by (apply Zle_Q; lia).
    assert (p2 (- 1022) * inject_Z (2 ^ 53) <= 1) as A.
    { rewrite <- (p2_Z 53) by lia. rewrite <- p2_add.
      apply Qle_trans with (p2 0); [apply p2_le; lia|]. apply Qle_refl. }
    assert (inject_Z (2 ^ 53) < p2 1023) as B.
    { rewrite <- (p2_Z 53) by lia. apply p2_lt. lia. }
    pose proof (p2_pos (- 1022)).
    set (x := frac (S, M)) in *. clearbody x.
    set (s := inject_Z S) in *. set (m := inject_Z M) in *.
    set (c := inject_Z (2 ^ 53)) in *. set (lo := p2 (- 1022)) in *. set (hi := p2 1023) in *.
    clearbody s m c lo hi.
    assert (0 < x) by nra.
    split.
    - assert (lo * m <= x * m) by nra. nra.
    - assert (x <= s) by nra. lra. }
  destruct (nearest_normal false S M ltac:(lia) ltac:(lia) Lo Hi) as (m & e & N & Hm & He & L & R).
  exists m, e. unfold int_truediv.
  replace (M =? 0)%Z with false by (symmetry; apply Z.eqb_neq; lia).
  replace (S <? 0)%Z with false by (symmetry; apply Z.ltb_ge; lia).
  replace (M <? 0)%Z with false by (symmetry; apply Z.ltb_ge; lia).
  rewrite !Z.abs_eq by lia. simpl. rewrite N. auto.
Qed.

Lemma Qmul_mono_pos a b c : 0 <= c -> a <= b -> c * a <= c * b.
Proof. intros. nra. Qed.

(** The arithmetic of two successive roundings, over the rationals. *)
Lemma two_roundings y s' P p qS :
  0 < y -> y <= qS -> qS <= 2251799813685248 ->
  y * (1 - (1 # 9007199254740992)) <= s' -> s' <= y * (1 + (1 # 9007199254740992)) ->
  P == s' ->
  P * (1 - (1 # 9007199254740992)) <= p -> p <= P * (1 + (1 # 9007199254740992)) ->
  p < qS + 1 /\ (y == qS -> qS - 1 < p).
Proof.
  intros Y0 Y1 S1 L R E L' R'. rewrite E in L', R'. split; [lra|]. intros Ey. lra.
Qed.

Lemma Zlt_of_Q_up a b : inject_Z b < inject_Z a + 1 -> (b < a + 1)%Z.
Proof. intros H. apply Q_Zlt. rewrite inject_Z_plus. exact H. Qed.

Lemma Zlt_of_Q_down a b : inject_Z a - 1 < inject_Z b + 1 -> (a - 1 < b + 1)%Z.
Proof.
  intros H. apply Q_Zlt. unfold Z.sub. rewrite !inject_Z_plus. exact H.
Qed.

(** One emitted dimension: [int(w * scale)] for [0 < w <= M]. *)
Lemma scaled_dimension S M w m e :
  (0 < S <= 2 ^ 51)%Z -> (0 < M <= 2 ^ 53)%Z -> (0 < w <= M)%Z ->
  (2 ^ 52 <= m < 2 ^ 53)%Z ->
  frac (S, M) * (1 - ulp53) <= mag m e -> mag m e <= frac (S, M) * (1 + ulp53) ->
  exists z, (sw <- int_mul w (Fin false m e) ;; to_int sw) = Ok z /\
            (z <= S)%Z /\ (w = M -> S - 1 <= z)%Z.
Proof.
  intros HS HM Hw Hm L R.
  destruct (of_int_exact w ltac:(lia)) as (mw & ew & Ow & Hmw & Hew & Mw).
  destruct (mul_frac false mw ew false m e) as (n & d & Mu & Hd & Fr & Hn).
  specialize (Hn ltac:(lia) ltac:(lia)).
  pose proof (frac_mul S M ltac:(lia)) as E.
  assert (1 <= inject_Z S) as S1 by (apply (Zle_Q 1); lia).
  assert (inject_Z S <= 2251799813685248) as S2 by (apply (Zle_Q _ (2 ^ 51)); lia).
  assert (1 <= inject_Z M) as M1 by (apply (Zle_Q 1); lia).
  assert (inject_Z M <= 9007199254740992) as M2 by (apply (Zle_Q _ (2 ^ 53)); lia).
  assert (1 <= inject_Z w) as W1 by (apply (Zle_Q 1); lia).
  assert (inject_Z w <= inject_Z M) as W2 by (apply Zle_Q; lia).
  rewrite Mw in Fr. rewrite ulp53_val in L, R.
  set (x := frac (S, M)) in *. set (s := mag m e) in *. set (P := frac (n, d)) in *.
  set (qS := inject_Z S) in *. set (qM := inject_Z M) in *. set (qw := inject_Z w) in *.
  assert (w = M -> qw == qM) as EwM by (intros ->; reflexivity).
  clearbody x s qM qw.
  assert (0 < x) as Xpos by (clear - E S1 M1; nra).
  set (y := qw * x).
  assert (0 < y) as Y0 by (unfold y; clear - Xpos W1; nra).
  assert (y <= qS) as Y1 by (unfold y; clear - Xpos W2 E; nra).
  assert (qS <= y * 9007199254740992) as Y2 by (unfold y; clear - Xpos W1 E M2; nra).
  assert (y * (1 - (1 # 9007199254740992)) <= qw * s) as Ls.
  { unfold y. setoid_replace (qw * x * (1 - (1 # 9007199254740992)))
      with (qw * (x * (1 - (1 # 9007199254740992)))) by ring.
    apply Qmul_mono_pos; [lra|exact L]. }
  assert (qw * s <= y * (1 + (1 # 9007199254740992))) as Rs.
  { unfold y. setoid_replace (qw * x * (1 + (1 # 9007199254740992)))
      with (qw * (x * (1 + (1 # 9007199254740992)))) by ring.
    apply Qmul_mono_pos; [lra|exact R]. }
  assert (w = M -> y == qS) as EyS.
  { intros Ew. unfold y. rewrite (EwM Ew), <- E. ring. }
  clearbody y.
  assert (p2 (- 1022) <= P /\ P < p2 1023) as [Lo Hi].
  { assert (p2 (- 1022) <= 1 # 18014398509481984) as A.
    { apply Qle_trans with (p2 (- 54)); [apply p2_le; lia|]. apply Qle_refl. }
    assert (18014398509481984 < p2 1023) as B.
    { apply Qle_lt_trans with (p2 54); [apply Qle_refl|]. apply p2_lt; lia. }
    rewrite Fr. split; lra. }
  destruct (nearest_normal false n d Hn Hd Lo Hi) as (m' & e' & N & Hm' & He' & L' & R').
  destruct (to_int_spec false m' e') as (z & T & Lz & Rz).
  exists z. unfold int_mul. rewrite Ow. cbn [bind]. rewrite Mu. cbn [xorb]. rewrite N.
  split; [exact T|]. fold P in L', R'. rewrite ulp53_val in L', R'.
  set (p := mag m' e') in *. set (qz := inject_Z z) in *.
  destruct (two_roundings y (qw * s) P p qS Y0 Y1 S2 Ls Rs Fr L' R') as [Up Dn].
  split.
  - cut (z < S + 1)%Z; [lia|]. apply Zlt_of_Q_up. fold qS qz. clearbody p qz qS. lra.
  - intros Ew. cut (S - 1 < z + 1)%Z; [lia|]. apply Zlt_of_Q_down. fold qS qz.
    specialize (Dn (EyS Ew)). clearbody p qz qS. lra.
Qed.

(** ** The canvas transform and the emitted document *)

Local Open Scope Z_scope.

Lemma of_int_finite z :
  Z.abs z <= 2 ^ 53 -> exists m e, of_int z = Ok (Fin (z <? 0) m e).
Proof.
  intros Hz. destruct (Z.eq_dec z 0) as [->|Hn]; [exists 0, 0; reflexivity|].
  destruct (representable_int (Z.abs z) ltac:(lia)) as (m0 & e0 & Hm & He & X).
  destruct (nearest_exact (z <? 0) (Z.abs z) 1 m0 e0) as (m & e & N & _);
    try lia; try assumption.
  { rewrite frac_int. exact X. }
  exists m, e. unfold of_int. rewrite N. reflexivity.
Qed.

Lemma int_mul_finite z m e :
  Z.abs z <= 2 ^ 53 -> exists x, int_mul z (Fin false m e) = Ok x.
Proof.
  intros Hz. destruct (of_int_finite z Hz) as (m' & e' & O).
  unfold int_mul. rewrite O. cbn [bind]. eauto.
Qed.

(** The layout of a proper, non-degenerate bounding box. *)
Lemma build_layout_proper xmin ymin xmax ymax S :
  - 2 ^ 52 <= xmin < xmax -> xmax <= 2 ^ 52 ->
  - 2 ^ 52 <= ymin < ymax -> ymax <= 2 ^ 52 ->
  0 < S <= 2 ^ 53 ->
  exists m e te' tf',
    build_layout (xmin, ymin, xmax, ymax) S =
      Ok {| lay_width := xmax - xmin; lay_height := ymax - ymin;
            lay_scale := Fin false m e;
            lay_transform := {| ta := Fin false m e; tb := zero; tc := zero;
                                td := neg (Fin false m e); te := te'; tf := tf' |} |} /\
    2 ^ 52 <= m < 2 ^ 53 /\
    (frac (S, Z.max (xmax - xmin) (ymax - ymin)) * (1 - ulp53) <= mag m e)%Q /\
    (mag m e <= frac (S, Z.max (xmax - xmin) (ymax - ymin)) * (1 + ulp53))%Q.
Proof.
  intros Hx Hx' Hy Hy' HS.
  set (M := Z.max (xmax - xmin) (ymax - ymin)).
  destruct (int_truediv_pos S M HS ltac:(lia)) as (m & e & D & Hm & L & R).
  destruct (int_mul_finite (- xmin) m e ltac:(lia)) as (te' & Ee).
  destruct (int_mul_finite ymax m e ltac:(lia)) as (tf' & Ef).
  exists m, e, te', tf'. split; [|auto].
  unfold build_layout.
  replace (xmax - xmin =? 0) with false by (symmetry; apply Z.eqb_neq; lia).
  replace (ymax - ymin =? 0) with false by (symmetry; apply Z.eqb_neq; lia).
  cbn [orb]. fold M. rewrite D. cbn [bind]. rewrite Ee. cbn [bind]. rewrite Ef. reflexivity.
Qed.

Lemma scale_one S :
  0 < S <= 2 ^ 53 ->
  exists m e, int_truediv S S = Ok (Fin false m e) /\ 0 < m < 2 ^ 53 /\ (mag m e == 1)%Q.
Proof.
  intros HS.
  destruct (nearest_exact false S S 1 0) as (m & e & N & Hm & He & M);
    try lia; try (unfold emin, emax; lia).
  { rewrite mag_int. unfold frac; simpl. field.
    pose proof (inject_Z_pos S ltac:(lia)). lra. }
  exists m, e. unfold int_truediv.
  replace (S =? 0) with false by (symmetry; apply Z.eqb_neq; lia).
  replace (S <? 0) with false by (symmetry; apply Z.ltb_ge; lia).
  rewrite Z.abs_eq by lia. cbn [xorb]. rewrite N.
  split; [reflexivity|]. split; [exact Hm|].
  rewrite M. unfold frac; simpl. field.
  pose proof (inject_Z_pos S ltac:(lia)). lra.
Qed.

(** The layout of a degenerate box: both dimensions become the canvas size
    and the scale is one. *)
Lemma build_layout_degenerate S :
  0 < S <= 2 ^ 53 ->
  exists m e,
    build_layout (0, 0, 0, 0) S =
      Ok {| lay_width := S; lay_height := S; lay_scale := Fin false m e;
            lay_transform := {| ta := Fin false m e; tb := zero; tc := zero;
                                td := Fin true m e; te := zero; tf := zero |} |} /\
    0 < m < 2 ^ 53 /\ (mag m e == 1)%Q.
Proof.
  intros HS. destruct (scale_one S HS) as (m & e & D & Hm & M).
  exists m, e. split; [|auto].
  unfold build_layout. cbn [Z.sub Z.opp Z.add Z.eqb orb].
  rewrite Z.max_id, D. cbn [bind]. unfold int_mul. cbn [Z.opp].
  rewrite of_int_zero. cbn [bind]. rewrite mul_zero_l. reflexivity.
Qed.

(** Multiplying an exactly representable integer by a scale of one and
    truncating gives the integer back. *)
Lemma canvas_side_exact S m e :
  0 < S <= 2 ^ 53 -> 0 < m < 2 ^ 53 -> (mag m e == 1)%Q ->
  (sw <- int_mul S (Fin false m e) ;; to_int sw) = Ok S.
Proof.
  intros HS Hm M.
  destruct (of_int_exact S HS) as (mS & eS & O & HmS & HeS & MS).
  destruct (mul_frac false mS eS false m e) as (n & d & Mu & Hd & Fr & Hn).
  specialize (Hn ltac:(lia) ltac:(lia)).
  destruct (representable_int S HS) as (m0 & e0 & Hm0 & He0 & X).
  destruct (nearest_exact false n d m0 e0 Hn Hd Hm0 He0) as (m' & e' & N & Hm' & He' & M').
  { rewrite Fr, MS, M, <- X. ring. }
  destruct (to_int_spec false m' e') as (z & T & Lz & Rz).
  unfold int_mul. rewrite O. cbn [bind]. rewrite Mu. cbn [xorb]. rewrite N, T.
  cbn [signed]. f_equal.
  rewrite M', Fr, MS, M in Lz, Rz.
  assert (inject_Z z <= inject_Z S)%Q as A by lra.
  assert (inject_Z S < inject_Z z + 1)%Q as B by lra.
  apply Q_Zle in A. apply Zlt_of_Q_up in B. lia.
Qed.

Section ExportFacts.
Variable U : unicode_db.
Variable pen : Type.
Variable pen_init : pen.
Variable pen_draw :
  transform -> operator * list point -> pen * list str -> pen * list str.

Local Abbreviation export := (export_svg_for_glyph_dynamic U pen pen_init pen_draw).

(** A document is emitted with the canvas size of the glyph's layout. *)
Lemma export_canvas g S doc :
  export g S = Ok doc ->
  exists lay, build_layout (get_glyph_bounds g) S = Ok lay /\
              canvas_size lay = Ok (width doc, height doc) /\
              viewBox doc = (0, 0, width doc, height doc).
Proof.
  unfold export_svg_for_glyph_dynamic. intros H.
  apply bind_ok in H. destruct H as (lay & B & H).
  apply bind_ok in H. destruct H as (p & _ & H).
  apply bind_ok in H. destruct H as ([w h] & C & H).
  inversion H; subst; clear H. exists lay. simpl. auto.
Qed.

(** Once the layout and the canvas size are known, only the rounding of the
    rendered path can make the export fail. *)
Lemma export_emits g S lay wh p :
  build_layout (get_glyph_bounds g) S = Ok lay ->
  canvas_size lay = Ok wh ->
  round_path_data U (strip U (getCommands pen pen_init pen_draw (lay_transform lay) (draw g))) = Ok p ->
  exists doc, export g S = Ok doc.
Proof.
  intros B C R. unfold export_svg_for_glyph_dynamic.
  rewrite B. cbn [bind]. rewrite R. cbn [bind]. rewrite C. cbn [bind].
  destruct wh. eauto.
Qed.

Lemma empty_program_bounds g :
  draw g = [] -> boundingBox g = None -> bounds g = None ->
  get_glyph_bounds g = (0, 0, 0, 0).
Proof. intros D B1 B2. unfold get_glyph_bounds. rewrite B1, B2, D. reflexivity. Qed.

(** Claim C4, amended. A glyph whose outline program is empty and that has
    no precomputed box resolves to the degenerate box [(0,0,0,0)], and for a
    canvas size [S] between 1 and [2^53] the emitted document has the view
    box [0 0 S S], width [S], height [S] and the path data [M0 0]. *)
Theorem empty_glyph_document g S :
  draw g = [] -> boundingBox g = None -> bounds g = None ->
  0 < S <= 2 ^ 53 ->
  get_glyph_bounds g = (0, 0, 0, 0) /\
  export g S =
    Ok {| viewBox := (0, 0, S, S); width := S; height := S; d := py "M0 0" |}.
Proof.
  intros D B1 B2 HS. pose proof (empty_program_bounds g D B1 B2) as G.
  split; [exact G|].
  destruct (build_layout_degenerate S HS) as (m & e & L & Hm & M).
  pose proof (canvas_side_exact S m e HS Hm M) as C.
  apply bind_ok in C. destruct C as (sw & C1 & C2).
  unfold export_svg_for_glyph_dynamic. rewrite G, L. cbn [bind]. rewrite D.
  unfold canvas_size. cbn [lay_width lay_height lay_scale].
  rewrite C1. cbn [bind]. rewrite C2. cbn [bind]. reflexivity.
Qed.

(** Claim C5, amended. For a glyph whose bounds are a non-degenerate box
    with coordinates within [2^52], and a canvas size [S] between 1 and
    [2^51], the canvas size is computed without error and the larger of the
    two emitted dimensions is [S] or [S - 1]: it equals [S] within one
    unit. *)
Theorem canvas_longest_side g S xmin ymin xmax ymax :
  get_glyph_bounds g = (xmin, ymin, xmax, ymax) ->
  - 2 ^ 52 <= xmin < xmax -> xmax <= 2 ^ 52 ->
  - 2 ^ 52 <= ymin < ymax -> ymax <= 2 ^ 52 ->
  0 < S <= 2 ^ 51 ->
  (exists lay w h,
      build_layout (xmin, ymin, xmax, ymax) S = Ok lay /\
      canvas_size lay = Ok (w, h) /\ S - 1 <= Z.max w h <= S) /\
  (forall doc, export g S = Ok doc ->
               S - 1 <= Z.max (width doc) (height doc) <= S).
Proof.
  intros G Hx Hx' Hy Hy' HS.
  destruct (build_layout_proper xmin ymin xmax ymax S Hx Hx' Hy Hy' ltac:(lia))
    as (m & e & te' & tf' & B & Hm & L & R).
  set (M := Z.max (xmax - xmin) (ymax - ymin)) in *.
  destruct (scaled_dimension S M (xmax - xmin) m e HS ltac:(lia) ltac:(lia) Hm L R)
    as (w & Cw & Uw & Lw).
  destruct (scaled_dimension S M (ymax - ymin) m e HS ltac:(lia) ltac:(lia) Hm L R)
    as (h & Ch & Uh & Lh).
  apply bind_ok in Cw. destruct Cw as (sw & Cw1 & Cw2).
  apply bind_ok in Ch. destruct Ch as (sh & Ch1 & Ch2).
  match type of B with _ = Ok ?l => set (lay := l) in * end.
  assert (canvas_size lay = Ok (w, h)) as C.
  { unfold canvas_size, lay. cbn [lay_width lay_height lay_scale].
    rewrite Cw1. cbn [bind]. rewrite Cw2. cbn [bind]. rewrite Ch1. cbn [bind].
    rewrite Ch2. reflexivity. }
  assert (S - 1 <= Z.max w h <= S) as Bd.
  { destruct (Z.max_spec (xmax - xmin) (ymax - ymin)) as [[_ E]|[_ E]]; fold M in E.
    - specialize (Lh (eq_sym E)). lia.
    - specialize (Lw (eq_sym E)). lia. }
  split.
  - exists lay, w, h. auto.
  - intros doc E. destruct (export_canvas g S doc E) as (lay' & B' & C' & _).
    rewrite G, B in B'. inversion B'; subst lay'. rewrite C in C'.
    inversion C'; subst. exact Bd.
Qed.


End ExportFacts.

Lemma build_layout_total xmin ymin xmax ymax S :
  - 2 ^ 52 <= xmin <= xmax -> xmax <= 2 ^ 52 ->
  - 2 ^ 52 <= ymin <= ymax -> ymax <= 2 ^ 52 ->
  0 < S <= 2 ^ 53 ->
  exists lay, build_layout (xmin, ymin, xmax, ymax) S = Ok lay.
Proof.
  intros Hx Hx' Hy Hy' HS. unfold build_layout.
  set (dg := (xmax - xmin =? 0) || (ymax - ymin =? 0)).
  assert (exists w h, (if dg then (S, S) else (xmax - xmin, ymax - ymin)) = (w, h)
                      /\ 0 < Z.max w h <= 2 ^ 53) as (w & h & E & HM).
  { destruct dg eqn:Edg.
    - exists S, S. split; [reflexivity|lia].
    - exists (xmax - xmin), (ymax - ymin). split; [reflexivity|].
      unfold dg in Edg. apply orb_false_elim in Edg. destruct Edg as [A B].
      apply Z.eqb_neq in A, B. lia. }
  rewrite E.
  destruct (int_truediv_pos S (Z.max w h) HS HM) as (m & e & D & _).
  destruct (int_mul_finite (- xmin) m e ltac:(lia)) as (te' & Ee).
  destruct (int_mul_finite ymax m e ltac:(lia)) as (tf' & Ef).
  rewrite D. cbn [bind]. rewrite Ee. cbn [bind]. rewrite Ef. cbn [bind]. eauto.
Qed.

(** Claim C1. Whenever [build_layout] returns a layout for the bounding box
    [(xmin, ymin, xmax, ymax)] and the canvas size [S], its width and height
    are [xmax - xmin] and [ymax - ymin], both replaced by [S] when either is
    zero, its scale is the float [S / max(width, height)], and its transform
    is [a = scale], [b = 0.0], [c = 0.0], [d = -scale], [e = -xmin*scale],
    [f = ymax*scale], in binary64 arithmetic. It does return a layout for
    every proper box with coordinates within [2^52] and every canvas size up
    to [2^53]. For the box [(0,0,100,200)] and [S = 1024] the scale is the
    float [5.12], [e] is [0.0], [f] is [1024.0], and every emitted document
    has the canvas 512 by 1024. *)
Theorem transform_coefficients :
  (forall xmin ymin xmax ymax S lay,
      build_layout (xmin, ymin, xmax, ymax) S = Ok lay ->
      let w := xmax - xmin in
      let h := ymax - ymin in
      let degenerate := (w =? 0) || (h =? 0) in
      let w' := if degenerate then S else w in
      let h' := if degenerate then S else h in
      let scale := lay_scale lay in
      let t := lay_transform lay in
      lay_width lay = w' /\ lay_height lay = h' /\
      int_truediv S (Z.max w' h') = Ok scale /\
      ta t = scale /\ tb t = zero /\ tc t = zero /\ td t = neg scale /\
      int_mul (- xmin) scale = Ok (te t) /\ int_mul ymax scale = Ok (tf t)) /\
  (forall xmin ymin xmax ymax S,
      - 2 ^ 52 <= xmin <= xmax -> xmax <= 2 ^ 52 ->
      - 2 ^ 52 <= ymin <= ymax -> ymax <= 2 ^ 52 ->
      0 < S <= 2 ^ 53 ->
      exists lay, build_layout (xmin, ymin, xmax, ymax) S = Ok lay) /\
  (let scale := of_decimal false 512 (-2) in
   let lay :=
     {| lay_width := 100; lay_height := 200; lay_scale := scale;
        lay_transform := {| ta := scale; tb := zero; tc := zero; td := neg scale;
                            te := zero; tf := of_decimal false 1024 0 |} |} in
   build_layout (0, 0, 100, 200) 1024 = Ok lay /\
   canvas_size lay = Ok (512, 1024) /\
   forall U pen pen_init pen_draw g doc,
     get_glyph_bounds g = (0, 0, 100, 200) ->
     export_svg_for_glyph_dynamic U pen pen_init pen_draw g 1024 = Ok doc ->
     viewBox doc = (0, 0, 512, 1024) /\ width doc = 512 /\ height doc = 1024).
Proof.
  split; [|split].
  - intros xmin ymin xmax ymax S lay H. cbv zeta.
    unfold build_layout in H.
    destruct ((xmax - xmin =? 0) || (ymax - ymin =? 0));
      apply bind_ok in H; destruct H as (scale & D & H);
      apply bind_ok in H; destruct H as (e & Ee & H);
      apply bind_ok in H; destruct H as (f & Ef & H);
      inversion H; subst; clear H; cbn; auto 10.
  - exact build_layout_total.
  - cbv zeta. split; [vm_compute; reflexivity|]. split; [vm_compute; reflexivity|].
    intros U pen pen_init pen_draw g doc G E.
    destruct (export_canvas U pen pen_init pen_draw g 1024 doc E) as (lay & B & C & V).
    rewrite G in B.
    pose (layA :=
      {| lay_width := 100; lay_height := 200; lay_scale := of_decimal false 512 (-2);
         lay_transform := {| ta := of_decimal false 512 (-2); tb := zero; tc := zero;
                             td := neg (of_decimal false 512 (-2));
                             te := zero; tf := of_decimal false 1024 0 |} |}).
    assert (build_layout (0, 0, 100, 200) 1024 = Ok layA) as B'
      by (vm_compute; reflexivity).
    assert (canvas_size layA = Ok (512, 1024)) as C' by (vm_compute; reflexivity).
    assert (lay = layA) as -> by congruence.
    rewrite C' in C. injection C as Ew Eh. rewrite V, <- Ew, <- Eh. auto.
Qed.

Lemma transform_coefficients_witness :
  let scale := of_decimal false 512 (-2) in
  int_truediv 1024 (Z.max 100 200) = Ok scale /\
  int_mul (- 0) scale = Ok zero /\ int_mul 200 scale = Ok (of_decimal false 1024 0).
Proof.
  destruct (proj1 transform_coefficients 0 0 100 200 1024 _ eq_refl)
    as (_ & _ & D & _ & _ & _ & _ & E & F).
  exact (conj D (conj E F)).
Defined.


Lemma empty_glyph_document_witness :
  get_glyph_bounds blank_glyph = (0, 0, 0, 0) /\
  export_svg_for_glyph_dynamic ascii_db unit tt no_pen blank_glyph 1024 =
    Ok {| viewBox := (0, 0, 1024, 1024); width := 1024; height := 1024; d := py "M0 0" |}.
Proof.
  apply (empty_glyph_document ascii_db unit tt no_pen blank_glyph 1024);
    [reflexivity | reflexivity | reflexivity | lia].
Defined.

(** Beyond [2^53] the canvas size is not a binary64 any more: for
    [S = 2^53 + 1] the scale is still [1.0], but [S * 1.0] is [2^53], and the
    document of an empty glyph has width and height [S - 1]. *)
Lemma empty_glyph_beyond_2_53 :
  (forall U,
     export_svg_for_glyph_dynamic U unit tt no_pen blank_glyph (2 ^ 53 + 1) =
       Ok {| viewBox := (0, 0, 2 ^ 53, 2 ^ 53); width := 2 ^ 53; height := 2 ^ 53;
             d := py "M0 0" |}) /\
  2 ^ 53 = (2 ^ 53 + 1) - 1.
Proof. split; [intros U|]; vm_compute; reflexivity. Qed.

Lemma canvas_longest_side_witness :
  (exists lay w h,
      build_layout (0, 0, 49, 49) 1024 = Ok lay /\
      canvas_size lay = Ok (w, h) /\ 1024 - 1 <= Z.max w h <= 1024) /\
  (forall doc, export_svg_for_glyph_dynamic ascii_db unit tt no_pen square49 1024 = Ok doc ->
               1024 - 1 <= Z.max (width doc) (height doc) <= 1024).
Proof.
  apply (canvas_longest_side ascii_db unit tt no_pen square49 1024 0 0 49 49);
    [reflexivity | lia | lia | lia | lia | lia].
Defined.

(** For a large canvas size the error of the two roundings exceeds one
    unit: a square of 49 units with [S = 2^60] gets the scale [2^60 / 49]
    rounded to 53 bits, and [int(49 * scale)] is 128 below [S]. *)
Lemma canvas_far_from_large_size :
  (forall U,
     export_svg_for_glyph_dynamic U unit tt no_pen square49 (2 ^ 60) =
       Ok {| viewBox := (0, 0, 2 ^ 60 - 128, 2 ^ 60 - 128);
             width := 2 ^ 60 - 128; height := 2 ^ 60 - 128; d := py "M0 0" |}) /\
  Z.max (2 ^ 60 - 128) (2 ^ 60 - 128) = 2 ^ 60 - 1 - 127.
Proof. split; [intros U|]; vm_compute; reflexivity. Qed.

(** The longest side of a square of 49 units falls one short of a canvas of
    1024: [49 * (1024 / 49)] is [1023.9999999999999] in binary64. *)
Example square49_canvas :
  exists lay, build_layout (0, 0, 49, 49) 1024 = Ok lay /\
              canvas_size lay = Ok (1023, 1023).
Proof. eexists. split; vm_compute; reflexivity. Qed.


(** ** Formatting code points *)

(** ** Formatting integers *)

Lemma hex_value_app s c :
  hex_value (s ++ [c]) = (16 * hex_value s + hex_digit_value c)%N.
Proof. unfold hex_value. rewrite fold_left_app. reflexivity. Qed.

Lemma hex_digit_ok d :
  (d < 16)%N -> is_upper_hex (hex_digit d) = true /\ hex_digit_value (hex_digit d) = d.
Proof.
  intros H. unfold hex_digit, is_upper_hex, hex_digit_value.
  destruct (N.ltb_spec d 10).
  - replace (48 + d <=? 57)%N with true by (symmetry; apply N.leb_le; lia).
    replace (48 <=? 48 + d)%N with true by (symmetry; apply N.leb_le; lia).
    split; [reflexivity|lia].
  - replace (55 + d <=? 57)%N with false by (symmetry; apply N.leb_gt; lia).
    replace (65 <=? 55 + d)%N with true by (symmetry; apply N.leb_le; lia).
    replace (55 + d <=? 70)%N with true by (symmetry; apply N.leb_le; lia).
    rewrite andb_false_r. split; [reflexivity|lia].
Qed.

Lemma hex_of_spec fuel : forall n acc,
  (n < 16 ^ N.of_nat fuel)%N -> (0 < fuel)%nat ->
  exists pre, hex_of fuel n acc = pre ++ acc /\ forallb is_upper_hex pre = true /\
              hex_value pre = n /\ (0 < length pre)%nat /\
              (1 < length pre -> hd 0%N pre <> 48%N)%nat.
Proof.
  induction fuel as [|f IH]; intros n acc Hn Hf; [lia|].
  cbn [hex_of]. pose proof (N.mod_lt n 16 ltac:(lia)) as Hm.
  destruct (hex_digit_ok (n mod 16) Hm) as [Hu Hv].
  destruct (N.ltb_spec n 16) as [Lt|Ge].
  - exists [hex_digit (n mod 16)]. split; [reflexivity|].
    split; [simpl; rewrite Hu; reflexivity|]. split.
    + unfold hex_value; simpl. rewrite Hv. rewrite N.mod_small by lia. reflexivity.
    + simpl. split; lia.
  - destruct f as [|f'].
    { simpl in Hn. lia. }
    assert (n / 16 < 16 ^ N.of_nat (S f'))%N as Hq.
    { apply N.Div0.div_lt_upper_bound.
      replace (16 * 16 ^ N.of_nat (S f'))%N with (16 ^ N.of_nat (S (S f')))%N; [exact Hn|].
      rewrite (Nat2N.inj_succ (S f')), N.pow_succ_r'. reflexivity. }
    destruct (IH (n / 16)%N (hex_digit (n mod 16) :: acc) Hq ltac:(lia))
      as (pre & E & Hall & Hval & Hlen & Hhd).
    exists (pre ++ [hex_digit (n mod 16)]). split; [rewrite E, <- app_assoc; reflexivity|].
    split; [rewrite forallb_app, Hall; simpl; rewrite Hu; reflexivity|]. split.
    + rewrite hex_value_app, Hval, Hv. symmetry. rewrite N.add_comm, N.mul_comm.
      rewrite (N.div_mod n 16) at 1 by lia. lia.
    + rewrite length_app. simpl. split; [lia|]. intros _.
      destruct pre as [|c pre']; [simpl in Hlen; lia|]. simpl.
      destruct pre' as [|c' pre''].
      * (* single digit: value n/16 >= 1 *)
        unfold hex_value in Hval. simpl in Hval. intros ->.
        assert (1 <= n / 16)%N by (apply N.div_le_lower_bound; lia).
        unfold hex_digit_value in Hval. simpl in Hval. lia.
      * apply Hhd. simpl. lia.
Qed.

Lemma pow16_log2 n : (n < 16 ^ N.of_nat (S (N.to_nat (N.log2 n))))%N.
Proof.
  rewrite Nat2N.inj_succ, N2Nat.id.
  destruct (N.eq_dec n 0) as [->|Hn]; [simpl; lia|].
  pose proof (N.log2_spec n ltac:(lia)) as [_ H].
  apply N.lt_le_trans with (2 ^ N.succ (N.log2 n))%N; [exact H|].
  apply N.pow_le_mono_l. lia.
Qed.

Lemma hex_spec n :
  forallb is_upper_hex (hex n) = true /\ hex_value (hex n) = n /\
  (0 < length (hex n))%nat /\ (1 < length (hex n) -> hd 0%N (hex n) <> 48%N)%nat.
Proof.
  unfold hex.
  destruct (hex_of_spec (S (N.to_nat (N.log2 n))) n [] (pow16_log2 n) ltac:(lia))
    as (pre & E & H). rewrite E, app_nil_r. exact H.
Qed.

Lemma hex_value_zeros k s : hex_value (repeat 48%N k ++ s) = hex_value s.
Proof.
  induction k as [|k IH]; [reflexivity|].
  unfold hex_value in *. simpl. exact IH.
Qed.

Lemma forallb_repeat {A} (p : A -> bool) x k : p x = true -> forallb p (repeat x k) = true.
Proof. intros H. induction k; simpl; [reflexivity|]. rewrite H, IHk. reflexivity. Qed.

(** [format_04X]: upper-case hexadecimal digits of the code point, at least
    four of them, and no more than four when a leading digit is zero. *)
Lemma format_04X_spec cp :
  forallb is_upper_hex (format_04X cp) = true /\
  hex_value (format_04X cp) = cp /\
  (4 <= length (format_04X cp))%nat /\
  (4 < length (format_04X cp) -> hd 0%N (format_04X cp) <> 48%N)%nat.
Proof.
  destruct (hex_spec cp) as (Hall & Hval & Hlen & Hhd). unfold format_04X.
  split; [rewrite forallb_app, Hall, forallb_repeat by reflexivity; reflexivity|].
  split; [rewrite hex_value_zeros; exact Hval|].
  rewrite length_app, repeat_length. split; [lia|].
  intros H. assert (4 - length (hex cp) = 0)%nat as -> by lia. simpl. apply Hhd. lia.
Qed.

(** ** The file namer *)

Lemma upper_hex_not_bad c : is_upper_hex c = true -> is_bad_char c = false.
Proof.
  unfold is_upper_hex, is_bad_char, bad_chars. intros H.
  apply orb_true_iff in H.
  assert ((48 <= c <= 57) \/ (65 <= c <= 70))%N as R.
  { destruct H as [H|H]; apply andb_true_iff in H; destruct H as [A B];
      apply N.leb_le in A, B; lia. }
  cbn [existsb].
  repeat (match goal with |- context [(c =? ?k)%N] =>
            replace (c =? k)%N with false by (symmetry; apply N.eqb_neq; lia) end).
  reflexivity.
Qed.

Lemma code_point_form_safe cp : no_bad_char (py "U+" ++ format_04X cp) = true.
Proof.
  unfold no_bad_char. rewrite forallb_app. apply andb_true_iff. split; [reflexivity|].
  destruct (format_04X_spec cp) as (Hall & _).
  rewrite forallb_forall in *. intros c Hc. rewrite upper_hex_not_bad; auto.
Qed.

(** Claim C9. For a character [char] with code point [cp = ord(char)],
    [safe_name_for_file] returns [U+] followed by [cp] in upper-case
    hexadecimal, zero-padded to at least four digits, when [char] is one of
    the nine reserved characters, or its general category starts with [C], or
    it is white space, and [char] itself otherwise; the function of
    [to_data_json.py] returns the same, with [cp] given or not; and the result
    never contains a reserved character. *)
Theorem safe_name_for_file_spec (U : unicode_db) (char : N) :
  let escaped :=
    is_bad_char char || startswith_C (uni_category U char) || is_space U char in
  let name := Tosvgjpg.safe_name_for_file U char char in
  name = (if escaped then py "U+" ++ format_04X char else [char]) /\
  ToDataJson.safe_name_for_file U char None = name /\
  (forall cp, ToDataJson.safe_name_for_file U char (Some cp) =
              Tosvgjpg.safe_name_for_file U char cp) /\
  (forall cp, no_bad_char (Tosvgjpg.safe_name_for_file U char cp) = true) /\
  forallb is_upper_hex (format_04X char) = true /\
  hex_value (format_04X char) = char /\
  (4 <= length (format_04X char))%nat /\
  (4 < length (format_04X char) -> hd 0%N (format_04X char) <> 48%N)%nat.
Proof.
  cbv zeta. split; [|split; [|split; [|split]]].
  - unfold Tosvgjpg.safe_name_for_file.
    destruct (is_bad_char char); [reflexivity|]. cbn [orb].
    destruct (startswith_C (uni_category U char) || is_space U char); reflexivity.
  - reflexivity.
  - reflexivity.
  - intros cp. unfold Tosvgjpg.safe_name_for_file.
    destruct (is_bad_char char) eqn:B; [apply code_point_form_safe|].
    destruct (startswith_C (uni_category U char) || is_space U char);
      [apply code_point_form_safe|].
    unfold no_bad_char. simpl. rewrite B. reflexivity.
  - apply format_04X_spec.
Qed.

(** ** Scenarios of the path canonicalisation *)

(** Claim C2, evaluated. [round_path_data] breaks exact ties to the even
    integer, not away from zero: [2.5] becomes [2], [0.5] becomes [0] and
    [-2.5] becomes [-2], while [3.5] becomes [4]. *)
Theorem round_path_data_ties_to_even (U : unicode_db) :
  round_path_data U (py "M2.5,0.5") = Ok (py "M2,0") /\
  round_path_data U (py "M-2.5,3.5") = Ok (py "M-2,4").
Proof. split; vm_compute; reflexivity. Qed.

(** Claim C6, amended. The raw path [M10.6,20.4C30,40,50,60,70.49,80]
    canonicalises to [M 11,20 C 30,40,50,60,70,80]: the numbers are rounded,
    a space is put between each command letter and the digit next to it, and
    the commas stay. *)
Theorem scenario_D_canonical_form (U : unicode_db) :
  canonicalize U (py "M10.6,20.4C30,40,50,60,70.49,80")
  = Ok (py "M 11,20 C 30,40,50,60,70,80").
Proof. vm_compute. reflexivity. Qed.

Lemma scenario_D_keeps_commas :
  (forall U, canonicalize U (py "M10.6,20.4C30,40,50,60,70.49,80")
             = Ok (py "M 11,20 C 30,40,50,60,70,80")) /\
  py "M 11,20 C 30,40,50,60,70,80" <> py "M11 20 C30 40 50 60 70 80".
Proof. split; [intros U; vm_compute; reflexivity|]. vm_compute. discriminate. Qed.

(** ** Printing integers *)

Lemma decimal_value_app s c :
  decimal_value (s ++ [c]) = 10 * decimal_value s + (Z.of_N c - 48).
Proof. unfold decimal_value. rewrite fold_left_app. reflexivity. Qed.

Lemma digit_char_ok r :
  0 <= r < 10 ->
  is_ascii_digit (Z.to_N (48 + r)) = true /\ Z.of_N (Z.to_N (48 + r)) - 48 = r.
Proof.
  intros H. unfold is_ascii_digit. split; [|lia].
  apply andb_true_iff. split; apply N.leb_le; lia.
Qed.

Lemma digits_of_spec fuel : forall n acc,
  0 <= n < 10 ^ Z.of_nat fuel -> (0 < fuel)%nat ->
  exists pre, digits_of fuel n acc = pre ++ acc /\ forallb is_ascii_digit pre = true /\
              decimal_value pre = n /\ (0 < length pre)%nat /\
              (1 < length pre -> hd 0%N pre <> 48%N)%nat.
Proof.
  induction fuel as [|f IH]; intros n acc Hn Hf; [lia|].
  cbn [digits_of]. pose proof (Z.mod_pos_bound n 10 ltac:(lia)) as Hm.
  destruct (digit_char_ok (n mod 10) Hm) as [Hu Hv].
  destruct (Z.ltb_spec n 10) as [Lt|Ge].
  - exists [Z.to_N (48 + n mod 10)]. split; [reflexivity|].
    split; [cbn [forallb]; rewrite Hu; reflexivity|]. split.
    + unfold decimal_value; cbn [fold_left]. rewrite Hv. rewrite Z.mod_small by lia. reflexivity.
    + simpl. split; lia.
  - destruct f as [|f'].
    { simpl in Hn. lia. }
    assert (0 <= n / 10 < 10 ^ Z.of_nat (S f')) as Hq.
    { split; [apply Z.div_pos; lia|]. apply Z.div_lt_upper_bound; [lia|].
      replace (10 * 10 ^ Z.of_nat (S f')) with (10 ^ Z.of_nat (S (S f'))); [lia|].
      rewrite (Nat2Z.inj_succ (S f')), Z.pow_succ_r by lia. reflexivity. }
    destruct (IH (n / 10) (Z.to_N (48 + n mod 10) :: acc) Hq ltac:(lia))
      as (pre & E & Hall & Hval & Hlen & Hhd).
    exists (pre ++ [Z.to_N (48 + n mod 10)]).
    split; [rewrite E, <- app_assoc; reflexivity|].
    split; [rewrite forallb_app, Hall; cbn [forallb]; rewrite Hu; reflexivity|]. split.
    + rewrite decimal_value_app, Hval, Hv. symmetry. apply Z.div_mod. lia.
    + rewrite length_app. simpl. split; [lia|]. intros _.
      destruct pre as [|c pre']; [simpl in Hlen; lia|]. simpl.
      destruct pre' as [|c' pre''].
      * unfold decimal_value in Hval. cbn [fold_left] in Hval. intros ->.
        assert (1 <= n / 10) by (apply Z.div_le_lower_bound; lia).
        change (Z.of_N 48) with 48 in Hval. lia.
      * apply Hhd. simpl. lia.
Qed.

Lemma pow10_log2 n : 0 <= n -> n < 10 ^ Z.of_nat (S (Z.to_nat (Z.log2 n))).
Proof.
  intros Hn. pose proof (Z.log2_nonneg n).
  rewrite Nat2Z.inj_succ, Z2Nat.id by lia.
  destruct (Z.eq_dec n 0) as [->|Hz]; [simpl; lia|].
  pose proof (Z.log2_spec n ltac:(lia)) as [_ H'].
  apply Z.lt_le_trans with (2 ^ Z.succ (Z.log2 n)); [exact H'|].
  apply Z.pow_le_mono_l. lia.
Qed.

Lemma str_of_nat_spec n :
  0 <= n ->
  forallb is_ascii_digit (str_of_nat n) = true /\ decimal_value (str_of_nat n) = n /\
  (0 < length (str_of_nat n))%nat /\
  (1 < length (str_of_nat n) -> hd 0%N (str_of_nat n) <> 48%N)%nat.
Proof.
  intros Hn. unfold str_of_nat.
  destruct (digits_of_spec (S (Z.to_nat (Z.log2 n))) n []) as (pre & E & H).
  { split; [lia|]. apply pow10_log2. exact Hn. }
  { lia. }
  rewrite E, app_nil_r. exact H.
Qed.

Lemma str_of_int_chars z : forallb is_number_char (str_of_int z) = true.
Proof.
  assert (forall n, 0 <= n -> forallb is_number_char (str_of_nat n) = true) as H.
  { intros n Hn. destruct (str_of_nat_spec n Hn) as (Hall & _).
    rewrite forallb_forall in *. intros c Hc. unfold is_number_char.
    rewrite (Hall c Hc). reflexivity. }
  unfold str_of_int. destruct (Z.ltb_spec z 0).
  - cbn [forallb]. rewrite H by lia. reflexivity.
  - apply H. lia.
Qed.

Lemma number_char_filler c : is_number_char c = true -> is_filler c = true.
Proof. unfold is_filler, is_number_char. intros ->. reflexivity. Qed.

Lemma number_char_solid U c : is_number_char c = true -> is_space U c = false.
Proof.
  unfold is_number_char, is_ascii_digit, is_space. intros F.
  apply orb_true_iff in F. destruct F as [F|F].
  - apply andb_true_iff in F. destruct F as [A B]. apply N.leb_le in A, B.
    replace (c <? 128)%N with true by (symmetry; apply N.ltb_lt; lia).
    apply orb_false_iff. split; apply andb_false_iff.
    + right. apply N.leb_gt. lia.
    + right. apply N.leb_gt. lia.
  - apply N.eqb_eq in F. subst c. reflexivity.
Qed.

(** ** Spacing of command letters *)

Section Spacing.
Variable U : unicode_db.

Lemma space_not_digit : is_digit U 32 = false.
Proof. reflexivity. Qed.

Lemma space_not_cmd : is_cmd 32 = false.
Proof. reflexivity. Qed.

Lemma space_is_space : is_space U 32 = true.
Proof. reflexivity. Qed.

Lemma digit_then_cmd_space : ignores_space (digit_then_cmd U).
Proof.
  intros x. unfold digit_then_cmd. rewrite space_not_digit, space_not_cmd, andb_false_r.
  auto.
Qed.

Lemma cmd_then_digit_space : ignores_space (cmd_then_digit U).
Proof.
  intros x. unfold cmd_then_digit. rewrite space_not_digit, space_not_cmd, andb_false_r.
  auto.
Qed.

Lemma pairs_ok_any_prev bad prev s : pairs_ok bad prev s = true -> pairs_ok bad None s = true.
Proof.
  destruct s as [|c t]; [reflexivity|]. cbn [pairs_ok]. intros H.
  apply andb_true_iff in H. destruct H as [_ H]. rewrite H. reflexivity.
Qed.

Lemma pairs_ok_app bad s1 : forall prev s2,
  pairs_ok bad prev (s1 ++ s2) = true ->
  pairs_ok bad prev s1 = true /\ pairs_ok bad None s2 = true.
Proof.
  induction s1 as [|c t IH]; intros prev s2 H.
  - split; [reflexivity|]. eapply pairs_ok_any_prev. exact H.
  - cbn [app pairs_ok] in *. apply andb_true_iff in H. destruct H as [A B].
    destruct (IH _ _ B) as [B1 B2]. rewrite A, B1. auto.
Qed.

(** Step 1 leaves no digit right before a command letter. *)
Lemma space_before_ok s : forall prev,
  pairs_ok (digit_then_cmd U) prev (space_before U prev s) = true.
Proof.
  induction s as [|c t IH]; intros prev; [reflexivity|].
  cbn [space_before].
  destruct (is_cmd c && match prev with Some p => is_digit U p | None => false end) eqn:E.
  - cbn [pairs_ok]. rewrite (proj2 (digit_then_cmd_space c)), IH.
    destruct prev; [rewrite (proj1 (digit_then_cmd_space _))|]; reflexivity.
  - cbn [pairs_ok]. rewrite IH, andb_true_r.
    destruct prev as [p|]; [|reflexivity].
    unfold digit_then_cmd. rewrite andb_comm, E. reflexivity.
Qed.

(** Step 2 keeps that and leaves no digit right after a command letter. *)
Lemma space_after_keeps bad s :
  ignores_space bad ->
  forall prev, pairs_ok bad prev s = true -> pairs_ok bad prev (space_after U s) = true.
Proof.
  intros Hb. induction s as [|c t IH]; intros prev H; [reflexivity|].
  cbn [space_after pairs_ok] in *. apply andb_true_iff in H. destruct H as [A B].
  destruct (is_cmd c && match t with [] => false | n :: _ => is_digit U n end).
  - cbn [pairs_ok]. rewrite A. cbn [andb].
    rewrite (proj1 (Hb c)). cbn [negb andb].
    apply IH. destruct t as [|n t']; [reflexivity|].
    cbn [pairs_ok] in *. apply andb_true_iff in B. destruct B as [_ B].
    rewrite (proj2 (Hb n)), B. reflexivity.
  - cbn [pairs_ok]. rewrite A. cbn [andb]. apply IH. exact B.
Qed.

Lemma space_after_ok s : forall prev,
  match prev, s with
  | Some p, c :: _ => cmd_then_digit U p c = false
  | _, _ => True
  end ->
  pairs_ok (cmd_then_digit U) prev (space_after U s) = true.
Proof.
  induction s as [|c t IH]; intros prev H; [reflexivity|].
  cbn [space_after].
  assert (negb (match prev with Some p => cmd_then_digit U p c | None => false end) = true) as A.
  { destruct prev; [rewrite H|]; reflexivity. }
  destruct (is_cmd c && match t with [] => false | n :: _ => is_digit U n end) eqn:E.
  - cbn [pairs_ok]. rewrite A. cbn [andb].
    rewrite (proj1 (cmd_then_digit_space c)). cbn [negb andb].
    apply IH. destruct t; [exact I|]. apply cmd_then_digit_space.
  - cbn [pairs_ok]. rewrite A. cbn [andb]. apply IH.
    destruct t as [|n t']; [exact I|]. unfold cmd_then_digit. exact E.
Qed.

(** Step 3 keeps any relation that ignores the space. *)
Lemma collapse_keeps bad s :
  ignores_space bad ->
  forall prev (inside : bool),
    pairs_ok bad prev s = true ->
    pairs_ok bad (if inside then Some 32%N else prev) (collapse U inside s) = true.
Proof.
  intros Hb. induction s as [|c t IH]; intros prev inside H; [reflexivity|].
  cbn [collapse pairs_ok] in *. apply andb_true_iff in H. destruct H as [A B].
  destruct (is_space U c).
  - destruct inside.
    + apply (IH (Some c) true B).
    + cbn [pairs_ok].
      replace (match prev with Some p => bad p 32%N | None => false end) with false
        by (destruct prev; [rewrite (proj1 (Hb _))|]; reflexivity).
      cbn [negb andb]. apply (IH (Some c) true B).
  - cbn [pairs_ok]. rewrite (IH (Some c) false B), andb_true_r.
    destruct inside; [|exact A]. rewrite (proj2 (Hb c)). reflexivity.
Qed.

(** [strip] returns a segment of its argument, between two runs of white space. *)
Lemma dropwhile_suffix p s :
  exists pre, s = pre ++ dropwhile p s /\ forallb p pre = true.
Proof.
  induction s as [|c t [pre [E F]]]; [exists []; auto|].
  cbn [dropwhile]. destruct (p c) eqn:Ec.
  - exists (c :: pre). split; [cbn [app]; rewrite <- E; reflexivity|].
    cbn [forallb]. rewrite Ec, F. reflexivity.
  - exists []. auto.
Qed.

Lemma strip_segment s :
  exists pre post, s = pre ++ strip U s ++ post /\
                   forallb (is_space U) pre = true /\ forallb (is_space U) post = true.
Proof.
  unfold strip.
  destruct (dropwhile_suffix (is_space U) s) as (pre & E1 & F1).
  set (s1 := dropwhile (is_space U) s) in *.
  destruct (dropwhile_suffix (is_space U) (rev s1)) as (post & E2 & F2).
  exists pre, (rev post). split; [|split; [exact F1|]].
  - rewrite E1 at 1. f_equal. rewrite <- rev_app_distr, <- E2, rev_involutive. reflexivity.
  - rewrite forallb_forall in *. intros c Hc. apply F2. apply in_rev. exact Hc.
Qed.

Lemma strip_keeps bad s : pairs_ok bad None s = true -> pairs_ok bad None (strip U s) = true.
Proof.
  intros H. destruct (strip_segment s) as (pre & post & E & _).
  rewrite E in H. apply pairs_ok_app in H. destruct H as [_ H].
  apply pairs_ok_app in H. apply H.
Qed.

Lemma pairs_ok_or b1 b2 s : forall prev,
  pairs_ok b1 prev s = true -> pairs_ok b2 prev s = true ->
  pairs_ok (fun p c => b1 p c || b2 p c) prev s = true.
Proof.
  induction s as [|c t IH]; intros prev H1 H2; [reflexivity|].
  cbn [pairs_ok] in *. apply andb_true_iff in H1, H2.
  destruct H1 as [A1 B1], H2 as [A2 B2]. rewrite (IH _ B1 B2), andb_true_r.
  destruct prev; [|reflexivity].
  apply negb_true_iff in A1, A2. rewrite A1, A2. reflexivity.
Qed.

Lemma add_space_separates s : cmd_separated U (add_space_around_commands U s) = true.
Proof.
  unfold cmd_separated, add_space_around_commands.
  apply pairs_ok_or; apply strip_keeps.
  - apply (collapse_keeps _ _ digit_then_cmd_space None false).
    apply (space_after_keeps _ _ digit_then_cmd_space). apply space_before_ok.
  - apply (collapse_keeps _ _ cmd_then_digit_space None false).
    apply space_after_ok. exact I.
Qed.

End Spacing.

(** Claim C7, amended. In every output of [add_space_around_commands], and
    so in every canonical form, no command letter is immediately preceded or
    immediately followed by a digit. *)
Theorem command_letters_never_touch_digits (U : unicode_db) (s : str) :
  cmd_separated U (add_space_around_commands U s) = true /\
  forall t, canonicalize U s = Ok t -> cmd_separated U t = true.
Proof.
  split; [apply add_space_separates|].
  intros t H. unfold canonicalize in H.
  destruct (round_path_data U s) as [r|]; [|discriminate].
  cbn [bind] in H. injection H as <-. apply add_space_separates.
Qed.

Lemma command_letters_never_touch_digits_witness :
  cmd_separated ascii_db (py "M 0,0 L 5,5 ZM 7,7") = true.
Proof.
  apply (proj2 (command_letters_never_touch_digits ascii_db (py "M0,0L5,5ZM7,7"))).
  vm_compute. reflexivity.
Defined.

Lemma closed_contour_not_isolated :
  (forall U, canonicalize U (py "M0,0L5,5ZM7,7") = Ok (py "M 0,0 L 5,5 ZM 7,7")) /\
  (forall U, cmd_isolated U (py "M 0,0 L 5,5 ZM 7,7") = false).
Proof. split; intros U; vm_compute; reflexivity. Qed.

(** ** What canonicalisation leaves alone *)

Lemma weave_fill_app x : forall k f t, weave k f t -> weave k (x ++ f) (x ++ t).
Proof. induction x; intros; cbn [app]; [assumption|]. constructor. auto. Qed.

Lemma weave_all_kept k : weave k [] k.
Proof. induction k; constructor; assumption. Qed.

Lemma weave_filter (p : N -> bool) t :
  weave (filter p t) (filter (fun c => negb (p c)) t) t.
Proof.
  induction t as [|c t IH]; [constructor|].
  cbn [filter]. destruct (p c); cbn [negb]; constructor; exact IH.
Qed.

Lemma weave_trans k f1 m :
  weave k f1 m ->
  forall f2 t, weave m f2 t ->
  exists f, weave k f t /\
            forall p, forallb p f1 = true -> forallb p f2 = true -> forallb p f = true.
Proof.
  intros H f2 t H2. revert k f1 H.
  induction H2 as [|c m f2 t H2 IH|c m f2 t H2 IH]; intros k f1 H.
  - inversion H; subst. exists []. split; [constructor|reflexivity].
  - inversion H as [|c' k' g' t' H'|c' k' g' t' H']; subst.
    + destruct (IH _ _ H') as (g & W & P). exists g. split; [constructor; exact W|exact P].
    + destruct (IH _ _ H') as (g & W & P). exists (c :: g).
      split; [constructor; exact W|].
      intros p A B. cbn [forallb] in *. apply andb_true_iff in A. destruct A as [A1 A2].
      rewrite A1, (P p A2 B). reflexivity.
  - destruct (IH _ _ H) as (g & W & P). exists (c :: g).
    split; [constructor; exact W|].
    intros p A B. cbn [forallb] in *. apply andb_true_iff in B. destruct B as [B1 B2].
    rewrite B1, (P p A B2). reflexivity.
Qed.

Section Frame.
Variable U : unicode_db.

Local Abbreviation solid := (fun c => negb (is_space U c)).

(** Rounding weaves the unmatched characters with digits and minus signs. *)
Lemma sub_numbers_weave s : forall skip r,
  sub_numbers U skip s = Ok r ->
  exists f, weave (unmatched U skip s) f r /\ forallb is_number_char f = true.
Proof.
  induction s as [|c t IH]; intros skip r H.
  - injection H as <-. exists []. split; [constructor|auto].
  - cbn [sub_numbers unmatched] in *. destruct skip as [|k]; [|apply IH; exact H].
    destruct (match_number U (c :: t)) as [[tok rest]|].
    + unfold repl in H. destruct (round (float_of_number tok)) as [n|]; [|discriminate].
      cbn [bind] in H.
      destruct (sub_numbers U (length t - length rest) t) as [out|] eqn:E; [|discriminate].
      cbn [bind] in H. injection H as <-.
      destruct (IH _ _ E) as (f & W & F).
      exists (str_of_int n ++ f). split; [apply weave_fill_app; exact W|].
      rewrite forallb_app, F, str_of_int_chars. reflexivity.
    + destruct (sub_numbers U 0 t) as [out|] eqn:E; [|discriminate].
      cbn [bind] in H. injection H as <-.
      destruct (IH _ _ E) as (f & W & F).
      exists f. split; [constructor; exact W|auto].
Qed.

Lemma weave_solid k f r :
  weave k f r -> forallb is_number_char f = true ->
  weave (filter solid k) f (filter solid r).
Proof.
  induction 1 as [|c k f t W IH|c k f t W IH]; intros F.
  - constructor.
  - cbn [filter]. destruct (negb (is_space U c)); [constructor|]; apply IH; exact F.
  - cbn [forallb] in F. apply andb_true_iff in F. destruct F as [F1 F2].
    cbn [filter]. rewrite (number_char_solid U c F1). cbn [negb].
    constructor. apply IH. exact F2.
Qed.

(** The spacing steps only add and remove white space, and every white
    space they leave is the space character. *)
Lemma space_before_solid s : forall prev,
  filter solid (space_before U prev s) = filter solid s.
Proof.
  induction s as [|c t IH]; intros prev; [reflexivity|].
  cbn [space_before].
  destruct (is_cmd c && match prev with Some p => is_digit U p | None => false end);
    cbn [filter]; rewrite ?space_is_space; cbn [negb]; rewrite IH; reflexivity.
Qed.

Lemma space_after_solid s : filter solid (space_after U s) = filter solid s.
Proof.
  induction s as [|c t IH]; [reflexivity|].
  cbn [space_after].
  destruct (is_cmd c && match t with [] => false | n :: _ => is_digit U n end);
    cbn [filter]; rewrite ?space_is_space; cbn [negb]; rewrite IH; reflexivity.
Qed.

Lemma collapse_solid s : forall inside,
  filter solid (collapse U inside s) = filter solid s.
Proof.
  induction s as [|c t IH]; intros inside; [reflexivity|].
  cbn [collapse filter]. destruct (is_space U c) eqn:E; cbn [negb].
  - destruct inside; [apply IH|]. cbn [filter]. rewrite space_is_space. cbn [negb]. apply IH.
  - cbn [filter]. rewrite E. cbn [negb]. rewrite IH. reflexivity.
Qed.

Lemma filter_solid_spaces s : forallb (is_space U) s = true -> filter solid s = [].
Proof.
  induction s as [|c t IH]; [reflexivity|]. cbn [forallb filter]. intros H.
  apply andb_true_iff in H. destruct H as [A B]. rewrite A. cbn [negb]. apply IH. exact B.
Qed.

Lemma strip_solid s : filter solid (strip U s) = filter solid s.
Proof.
  destruct (strip_segment U s) as (pre & post & E & F1 & F2).
  rewrite E at 2. rewrite !filter_app, (filter_solid_spaces pre F1), (filter_solid_spaces post F2).
  rewrite app_nil_r. reflexivity.
Qed.

Lemma collapse_plain s : forall inside, forallb (plain_space U) (collapse U inside s) = true.
Proof.
  induction s as [|c t IH]; intros inside; [reflexivity|].
  cbn [collapse]. destruct (is_space U c) eqn:E.
  - destruct inside; [apply IH|]. cbn [forallb]. rewrite IH.
    unfold plain_space. rewrite N.eqb_refl, orb_true_r. reflexivity.
  - cbn [forallb]. rewrite IH. unfold plain_space. rewrite E. reflexivity.
Qed.

Lemma strip_plain s : forallb (plain_space U) s = true -> forallb (plain_space U) (strip U s) = true.
Proof.
  intros H. destruct (strip_segment U s) as (pre & post & E & _).
  rewrite E, !forallb_app in H. apply andb_true_iff in H. destruct H as [_ H].
  apply andb_true_iff in H. apply H.
Qed.

Lemma add_space_solid s :
  filter solid (add_space_around_commands U s) = filter solid s.
Proof.
  unfold add_space_around_commands.
  rewrite strip_solid, collapse_solid, space_after_solid, space_before_solid. reflexivity.
Qed.

Lemma add_space_plain s : forallb (plain_space U) (add_space_around_commands U s) = true.
Proof. unfold add_space_around_commands. apply strip_plain, collapse_plain. Qed.

Lemma canonicalize_weave s t :
  canonicalize U s = Ok t ->
  exists filler, weave (frame U s) filler t /\ forallb is_filler filler = true.
Proof.
  unfold canonicalize, round_path_data. intros H.
  destruct (sub_numbers U 0 s) as [r|] eqn:E; [|discriminate].
  cbn [bind] in H. injection H as <-.
  destruct (sub_numbers_weave s 0 r E) as (f1 & W1 & F1).
  pose proof (weave_solid _ _ _ W1 F1) as W1'.
  rewrite <- (add_space_solid r) in W1'.
  pose proof (weave_filter solid (add_space_around_commands U r)) as W2.
  destruct (weave_trans _ _ _ W1' _ _ W2) as (f & W & P).
  exists f. split; [exact W|]. apply P.
  - rewrite forallb_forall in *. intros c Hc. apply number_char_filler, F1, Hc.
  - pose proof (add_space_plain r) as Pl. rewrite forallb_forall in *.
    intros c Hc. apply filter_In in Hc. destruct Hc as [Hc Hs].
    specialize (Pl c Hc). unfold plain_space in Pl. cbn beta in Hs.
    apply negb_true_iff in Hs. rewrite Hs in Pl. cbn [orb] in Pl.
    unfold is_filler. rewrite Pl, orb_true_r. reflexivity.
Qed.

End Frame.

Lemma weave_sublist k f t : weave k f t -> length t = (length k + length f)%nat.
Proof. induction 1; cbn [length]; lia. Qed.

(** Claim C10. The canonical form [t] of [s] interleaves the frame of [s],
    that is its characters that are neither part of a numeric token nor
    white space, unchanged and in order, with nothing but digits, minus
    signs and spaces. *)
Theorem canonicalize_preserves_frame (U : unicode_db) (s t : str) :
  canonicalize U s = Ok t ->
  exists filler, weave (frame U s) filler t /\ forallb is_filler filler = true.
Proof. apply canonicalize_weave. Qed.

Lemma canonicalize_preserves_frame_witness :
  exists filler,
    weave (frame ascii_db (py "M10.6,20.4C30,40")) filler (py "M 11,20 C 30,40") /\
    forallb is_filler filler = true.
Proof.
  apply (canonicalize_preserves_frame ascii_db (py "M10.6,20.4C30,40")).
  vm_compute. reflexivity.
Defined.

(** ** Canonicalising twice *)

(** *** Matching a token *)

Section Tokens.
Variable U : unicode_db.

Lemma decimal_digit_char d : 0 <= d <= 9 -> decimal U (digit_char d) = Some d.
Proof.
  intros H. unfold decimal, digit_char.
  replace (Z.to_N (48 + d) <? 128)%N with true by (symmetry; apply N.ltb_lt; lia).
  replace ((48 <=? Z.to_N (48 + d)) && (Z.to_N (48 + d) <=? 57))%N with true.
  - f_equal. lia.
  - symmetry. apply andb_true_iff. split; apply N.leb_le; lia.
Qed.

Lemma digit_char_range d : 0 <= d <= 9 -> (48 <= digit_char d <= 57)%N.
Proof. unfold digit_char. lia. Qed.

Lemma span_digits_nondigit s : starts_nondigit U s = true -> span_digits U s = ([], s).
Proof.
  destruct s as [|c t]; [reflexivity|]. cbn [starts_nondigit span_digits]. unfold is_digit.
  destruct (decimal U c); [discriminate|reflexivity].
Qed.

Lemma span_digits_text ds s :
  digits_ok ds = true -> starts_nondigit U s = true ->
  span_digits U (map digit_char ds ++ s) = (ds, s).
Proof.
  intros H Hs. induction ds as [|d ds IH]; [apply span_digits_nondigit; exact Hs|].
  cbn [digits_ok forallb] in H. apply andb_true_iff in H. destruct H as [Hd H].
  apply andb_true_iff in Hd. destruct Hd as [A B]. apply Z.leb_le in A, B.
  cbn [map app span_digits]. rewrite decimal_digit_char by lia.
  rewrite (IH H). reflexivity.
Qed.

Lemma inert_facts c :
  inert U c = true ->
  is_digit U c = false /\ (c =? 45)%N = false /\ (c =? 46)%N = false /\ (c =? 101)%N = false.
Proof.
  unfold inert. intros H. apply negb_true_iff in H.
  apply orb_false_iff in H. destruct H as [H E]. apply orb_false_iff in H.
  destruct H as [H D]. apply orb_false_iff in H. destruct H as [H M]. auto.
Qed.

Lemma starts_inert_nondigit s : starts_inert U s = true -> starts_nondigit U s = true.
Proof.
  destruct s as [|c t]; [reflexivity|]. cbn. intros H.
  apply inert_facts in H. destruct H as [H _]. rewrite H. reflexivity.
Qed.

Lemma match_char_miss c s :
  match s with [] => True | x :: _ => (x =? c)%N = false end ->
  match_char c s = (false, s).
Proof. destruct s as [|x t]; [reflexivity|]. cbn. intros ->. reflexivity. Qed.

Lemma digits_head_not c ds s :
  nonempty ds = true -> digits_ok ds = true -> (c < 48 \/ 57 < c)%N ->
  match map digit_char ds ++ s with [] => True | x :: _ => (x =? c)%N = false end.
Proof.
  destruct ds as [|d ds]; [discriminate|]. intros _ H Hc.
  cbn [digits_ok forallb] in H. apply andb_true_iff in H. destruct H as [Hd _].
  apply andb_true_iff in Hd. destruct Hd as [A B]. apply Z.leb_le in A, B.
  cbn [map app]. apply N.eqb_neq. pose proof (digit_char_range d ltac:(lia)). lia.
Qed.

Lemma match_exponent_text ex s :
  match ex with None => true | Some (_, ds) => nonempty ds && digits_ok ds end = true ->
  starts_inert U s = true ->
  match_exponent U (exponent_text ex ++ s) = (ex, s).
Proof.
  intros W Hs. destruct ex as [[sg ds]|].
  - apply andb_true_iff in W. destruct W as [Wn Wd].
    cbn [exponent_text app match_exponent]. rewrite N.eqb_refl.
    assert (match_sign (sign_text sg ++ map digit_char ds ++ s)
            = (sg, map digit_char ds ++ s)) as Es.
    { destruct sg as [[|]|]; [reflexivity|reflexivity|].
      cbn [sign_text app].
      pose proof (digits_head_not 45 ds s Wn Wd ltac:(lia)) as H1.
      pose proof (digits_head_not 43 ds s Wn Wd ltac:(lia)) as H2.
      destruct (map digit_char ds ++ s) as [|x r]; [reflexivity|].
      cbn [match_sign]. rewrite H1, H2. reflexivity. }
    rewrite <- app_assoc, Es.
    rewrite (span_digits_text ds s Wd (starts_inert_nondigit s Hs)).
    destruct ds; [discriminate|reflexivity].
  - cbn [exponent_text app]. destruct s as [|c t]; [reflexivity|].
    cbn [starts_inert] in Hs. apply inert_facts in Hs. destruct Hs as (_ & _ & _ & E).
    cbn [match_exponent]. rewrite E. reflexivity.
Qed.

Lemma exponent_text_nondigit ex s :
  starts_inert U s = true -> starts_nondigit U (exponent_text ex ++ s) = true.
Proof.
  intros Hs. destruct ex as [[sg ds]|]; [reflexivity|]. apply starts_inert_nondigit, Hs.
Qed.

Lemma exponent_text_not_dot ex s :
  starts_inert U s = true ->
  match exponent_text ex ++ s with [] => True | x :: _ => (x =? 46)%N = false end.
Proof.
  intros Hs. destruct ex as [[sg ds]|]; [reflexivity|].
  destruct s as [|c t]; [exact I|]. cbn in *. apply inert_facts in Hs. apply Hs.
Qed.

(** The matcher reads a token back from its text. *)
Lemma match_number_text t s :
  wf_number t = true -> starts_inert U s = true ->
  match_number U (number_text t ++ s) = Some (t, s).
Proof.
  destruct t as [ng ds dot fs ex]. unfold wf_number, number_text. cbn [num_neg num_int num_dot num_frac num_exp].
  intros W Hs.
  apply andb_true_iff in W. destruct W as [W Wex].
  apply andb_true_iff in W. destruct W as [W Wdot].
  apply andb_true_iff in W. destruct W as [W Wfs].
  apply andb_true_iff in W. destruct W as [Wne Wds].
  set (E := exponent_text ex ++ s).
  set (F := map digit_char fs ++ E).
  set (D := (if dot then [46%N] else []) ++ F).
  set (I := map digit_char ds ++ D).
  replace (((if ng then [45%N] else []) ++ map digit_char ds
            ++ (if dot then [46%N] else []) ++ map digit_char fs ++ exponent_text ex) ++ s)
    with ((if ng then [45%N] else []) ++ I)
    by (unfold I, D, F, E; rewrite <- !app_assoc; reflexivity).
  assert (match_exponent U E = (ex, s)) as HE by (apply match_exponent_text; assumption).
  assert (span_digits U F = (fs, E)) as HF.
  { apply span_digits_text; [exact Wfs|]. apply exponent_text_nondigit, Hs. }
  assert (match_char 46 D = (dot, F)) as HD.
  { unfold D. destruct dot; [reflexivity|]. cbn [app]. apply match_char_miss.
    cbn [orb negb] in Wdot. destruct fs; [|discriminate].
    unfold F. cbn [map app]. apply exponent_text_not_dot, Hs. }
  assert (starts_nondigit U D = true) as HDn.
  { unfold D. destruct dot; [reflexivity|]. cbn [app].
    cbn [orb negb] in Wdot. destruct fs; [|discriminate].
    unfold F. cbn [map app]. apply exponent_text_nondigit, Hs. }
  assert (span_digits U I = (ds, D)) as HI by (apply span_digits_text; assumption).
  assert (match_char 45 ((if ng then [45%N] else []) ++ I) = (ng, I)) as HN.
  { destruct ng; [reflexivity|]. cbn [app]. apply match_char_miss.
    unfold I. apply digits_head_not; [assumption|assumption|lia]. }
  unfold match_number. rewrite HN, HI.
  destruct ds as [|d ds']; [discriminate|]. rewrite HD, HF, HE. reflexivity.
Qed.

Lemma match_number_inert c s : inert U c = true -> match_number U (c :: s) = None.
Proof.
  intros H. apply inert_facts in H. destruct H as (Hd & Hm & _).
  unfold match_number. cbn [match_char]. rewrite Hm.
  cbn [span_digits]. unfold is_digit in Hd. destruct (decimal U c); [discriminate|reflexivity].
Qed.

Lemma sub_numbers_skip x : forall s,
  sub_numbers U (length x) (x ++ s) = sub_numbers U 0 s.
Proof.
  induction x as [|c x IH]; intros s; [reflexivity|].
  cbn [length app sub_numbers]. apply IH.
Qed.

Lemma number_text_nonempty t : wf_number t = true -> nonempty (number_text t) = true.
Proof.
  destruct t as [ng ds dot fs ex]. unfold wf_number, number_text. cbn. intros W.
  destruct ng; [reflexivity|]. destruct ds; [discriminate W|reflexivity].
Qed.

Lemma sub_numbers_token t s :
  wf_number t = true -> starts_inert U s = true ->
  sub_numbers U 0 (number_text t ++ s)
  = (r <- repl t ;; out <- sub_numbers U 0 s ;; Ok (r ++ out)).
Proof.
  intros W Hs. pose proof (match_number_text t s W Hs) as M.
  pose proof (number_text_nonempty t W) as Ne.
  destruct (number_text t) as [|c x]; [discriminate|].
  cbn [app] in *. cbn [sub_numbers]. rewrite M.
  replace (length (x ++ s) - length s)%nat with (length x) by (rewrite length_app; lia).
  rewrite sub_numbers_skip. reflexivity.
Qed.

Lemma sub_numbers_sep c s :
  inert U c = true ->
  sub_numbers U 0 (c :: s) = (out <- sub_numbers U 0 s ;; Ok (c :: out)).
Proof. intros H. cbn [sub_numbers]. rewrite (match_number_inert c s H). reflexivity. Qed.

End Tokens.

(** *** Rounding a token twice *)

Lemma nearest_valid s n d :
  0 <= n -> 0 < d ->
  match nearest s n d with
  | Fin _ m e => 0 <= m < 2 ^ 53 /\ emin <= e <= emax
  | Inf _ => True
  | NaN => False
  end.
Proof.
  intros Hn Hd. destruct (Z.eq_dec n 0) as [->|Hz].
  { cbn. unfold emin, emax. lia. }
  destruct (nearest_cases s n d ltac:(lia) Hd) as (q & e & He & Hq & _ & _ & Eq).
  rewrite Eq. destruct (Z.eqb_spec q 0); [unfold emin, emax; lia|].
  destruct (Z.eqb_spec q (2 ^ 53)).
  - destruct (Z.ltb_spec emax (e + 1)); [exact I|]. unfold emin in *. lia.
  - destruct (Z.ltb_spec emax e); [exact I|]. unfold emin in *. lia.
Qed.

Lemma of_decimal_valid s m x :
  0 <= m ->
  match of_decimal s m x with
  | Fin _ m' e => 0 <= m' < 2 ^ 53 /\ emin <= e <= emax
  | Inf _ => True
  | NaN => False
  end.
Proof.
  intros Hm. unfold of_decimal. destruct (Z.leb_spec 0 x).
  - apply nearest_valid; [|lia]. apply Z.mul_nonneg_nonneg; [lia|]. apply Z.pow_nonneg. lia.
  - apply nearest_valid; [lia|]. apply Z.pow_pos_nonneg; lia.
Qed.

Lemma scaled_fst_nonneg n d k : 0 <= n -> 0 <= fst (scaled n d k).
Proof.
  intros Hn. unfold scaled. destruct (0 <=? k); cbn [fst]; [exact Hn|].
  apply Z.mul_nonneg_nonneg; [exact Hn|]. apply Z.pow_nonneg. lia.
Qed.

(** Rounding a binary64 to an integer gives zero or an integer that is a
    binary64 itself. *)
Lemma round_representable s m e :
  0 <= m < 2 ^ 53 -> emin <= e <= emax ->
  exists k, round (Fin s m e) = Ok (signed s k) /\ 0 <= k /\
            (k = 0 \/ exists m0 e0, 0 < m0 < 2 ^ 53 /\ emin <= e0 <= emax /\
                                    (inject_Z k == mag m0 e0)%Q).
Proof.
  intros Hm He. destruct (round_spec s m e ltac:(lia)) as (k & R & L & Up).
  exists k. split; [exact R|].
  assert (0 <= k) as Hk.
  { unfold round in R. pose proof (frac_val m e) as [Hb _].
    pose proof (scaled_fst_nonneg m 1 (- e) ltac:(lia)) as Ha.
    destruct (scaled m 1 (- e)) as [a b]. cbn [fst snd] in *.
    pose proof (rne_nonneg a b Ha Hb) as P.
    injection R as R. destruct s; cbn [signed] in R; lia. }
  split; [exact Hk|].
  destruct (Z.eq_dec k 0) as [|Hk0]; [left; assumption|right].
  destruct (Z.leb_spec 0 e) as [Hpos|Hneg].
  - (* the float is an integer *)
    assert (mag m e == inject_Z (m * 2 ^ e))%Q as M.
    { unfold mag. rewrite inject_Z_mult, p2_Z by lia. reflexivity. }
    rewrite M in L, Up.
    assert (k = m * 2 ^ e) as Ek by (apply Z_of_Q_half; assumption).
    exists m, e. split; [|split; [exact He|]].
    + destruct (Z.eq_dec m 0) as [->|]; [lia|lia].
    + rewrite M, Ek. reflexivity.
  - apply representable_int. split; [lia|].
    assert (mag m e < inject_Z (2 ^ 52))%Q as B.
    { unfold mag.
      assert (p2 e <= p2 (-1))%Q by (apply p2_le; lia).
      assert (inject_Z m < inject_Z (2 ^ 53))%Q by (apply Zlt_Q; lia).
      assert (0 <= inject_Z m)%Q by (apply (Zle_Q 0); lia).
      pose proof (p2_pos e).
      change (p2 (-1)) with (1 # 2)%Q in *.
      change (inject_Z (2 ^ 53)) with (2 * inject_Z (2 ^ 52))%Q in *.
      set (a := inject_Z m) in *. set (b := p2 e) in *. set (c := inject_Z (2 ^ 52)) in *.
      assert (0 < c)%Q by reflexivity.
      clearbody a b c. nra. }
    assert (inject_Z k < inject_Z (2 ^ 52) + 1)%Q as B' by lra.
    apply Zlt_of_Q_up in B'. lia.
Qed.

Lemma horner_values cs :
  horner (map (fun c => Z.of_N c - 48) cs) = decimal_value cs.
Proof.
  unfold horner, decimal_value. generalize 0.
  induction cs as [|c cs IH]; intros a; [reflexivity|]. cbn [map fold_left]. apply IH.
Qed.

Lemma digit_values_ok cs :
  forallb is_ascii_digit cs = true ->
  digits_ok (map (fun c => Z.of_N c - 48) cs) = true /\
  map digit_char (map (fun c => Z.of_N c - 48) cs) = cs.
Proof.
  induction cs as [|c cs IH]; [auto|]. cbn [forallb]. intros H.
  apply andb_true_iff in H. destruct H as [A B]. destruct (IH B) as [I1 I2].
  unfold is_ascii_digit in A. apply andb_true_iff in A. destruct A as [A1 A2].
  apply N.leb_le in A1, A2. cbn [map digits_ok forallb]. split.
  - fold (digits_ok (map (fun c => Z.of_N c - 48) cs)). rewrite I1, andb_true_r.
    apply andb_true_iff. split; apply Z.leb_le; lia.
  - rewrite I2. f_equal. unfold digit_char. lia.
Qed.

Lemma int_number_text n : number_text (int_number n) = str_of_int n.
Proof.
  destruct (str_of_nat_spec (Z.abs n) ltac:(lia)) as (Hall & _).
  destruct (digit_values_ok _ Hall) as [_ E].
  unfold number_text, int_number, str_of_int. cbn [num_neg num_int num_dot num_frac num_exp].
  rewrite E. cbn [map exponent_text]. rewrite !app_nil_r.
  destruct (Z.ltb_spec n 0).
  - rewrite Z.abs_neq by lia. reflexivity.
  - rewrite Z.abs_eq by lia. reflexivity.
Qed.

Lemma int_number_wf n : wf_number (int_number n) = true.
Proof.
  destruct (str_of_nat_spec (Z.abs n) ltac:(lia)) as (Hall & _ & Hlen & _).
  destruct (digit_values_ok _ Hall) as [D _].
  unfold wf_number, int_number. cbn [num_neg num_int num_dot num_frac num_exp].
  rewrite D. destruct (str_of_nat (Z.abs n)); [cbn in Hlen; lia|reflexivity].
Qed.

Lemma float_of_int_number n :
  float_of_number (int_number n) = nearest (n <? 0) (Z.abs n) 1.
Proof.
  destruct (str_of_nat_spec (Z.abs n) ltac:(lia)) as (_ & V & _).
  unfold float_of_number, int_number. cbn [num_neg num_int num_dot num_frac num_exp].
  rewrite app_nil_r, horner_values, V. cbn [length]. unfold of_decimal. cbn.
  rewrite Z.mul_1_r. reflexivity.
Qed.

(** An integer that [round] returned is printed and read back unchanged. *)
Lemma repl_int_number s k :
  0 <= k ->
  (k = 0 \/ exists m0 e0, 0 < m0 < 2 ^ 53 /\ emin <= e0 <= emax /\
                          (inject_Z k == mag m0 e0)%Q) ->
  repl (int_number (signed s k)) = Ok (str_of_int (signed s k)).
Proof.
  intros Hk R. unfold repl. rewrite float_of_int_number.
  destruct R as [->|(m0 & e0 & Hm & He & X)].
  { replace (signed s 0) with 0 by (destruct s; reflexivity). reflexivity. }
  assert (k <> 0) as Hk0.
  { intros ->. unfold mag in X.
    assert (0 < inject_Z m0)%Q by (apply inject_Z_pos; lia).
    pose proof (p2_pos e0). change (inject_Z 0) with 0%Q in X. nra. }
  set (n := signed s k).
  assert (Z.abs n = k) as An by (unfold n; destruct s; cbn [signed]; lia).
  rewrite An.
  destruct (nearest_exact (n <? 0) k 1 m0 e0) as (m & e & N & Hm' & He' & M);
    try lia; try assumption.
  { rewrite frac_int. exact X. }
  rewrite N. destruct (round_spec (n <? 0) m e ltac:(lia)) as (z & Rz & L & Up).
  rewrite Rz. cbn [bind]. rewrite M, frac_int in L, Up.
  assert (z = k) as -> by (apply Z_of_Q_half; assumption).
  do 2 f_equal. unfold n. destruct s; cbn [signed].
  - replace (- k <? 0) with true by (symmetry; apply Z.ltb_lt; lia). reflexivity.
  - replace (k <? 0) with false by (symmetry; apply Z.ltb_ge; lia). reflexivity.
Qed.

Lemma horner_nonneg ds : digits_ok ds = true -> 0 <= horner ds.
Proof.
  unfold horner. assert (forall a, 0 <= a -> digits_ok ds = true ->
                                   0 <= fold_left (fun a d => 10 * a + d) ds a) as H.
  { induction ds as [|d ds IH]; intros a Ha W; [exact Ha|].
    cbn [digits_ok forallb] in W. apply andb_true_iff in W. destruct W as [Wd W].
    apply andb_true_iff in Wd. destruct Wd as [A B]. apply Z.leb_le in A, B.
    cbn [fold_left]. apply IH; [lia|exact W]. }
  apply H. lia.
Qed.

Lemma digits_ok_app a b : digits_ok (a ++ b) = digits_ok a && digits_ok b.
Proof. apply forallb_app. Qed.

(** What [repl] writes is a token that [repl] leaves unchanged. *)
Lemma repl_rounded t x :
  wf_number t = true -> repl t = Ok x ->
  exists n, x = number_text (int_number n) /\ rounded_token (int_number n).
Proof.
  intros W H. unfold repl in H.
  assert (0 <= horner (num_int t ++ num_frac t)) as Hh.
  { apply horner_nonneg. rewrite digits_ok_app. unfold wf_number in W.
    apply andb_true_iff in W. destruct W as [W _].
    apply andb_true_iff in W. destruct W as [W _].
    apply andb_true_iff in W. destruct W as [W Wf].
    apply andb_true_iff in W. destruct W as [_ Wd]. rewrite Wd, Wf. reflexivity. }
  unfold float_of_number in H.
  match type of H with context [of_decimal ?s ?m ?e] =>
    pose proof (of_decimal_valid s m e Hh) as V; destruct (of_decimal s m e) as [s' m' e'| |]
  end; try discriminate.
  destruct V as [Vm Ve].
  destruct (round_representable s' m' e' Vm Ve) as (k & R & Hk & Rep).
  rewrite R in H. cbn [bind] in H. injection H as <-.
  exists (signed s' k). split; [symmetry; apply int_number_text|].
  unfold rounded_token. rewrite int_number_text. apply repl_int_number; assumption.
Qed.

(** *** Rounding a rendered path *)

Section Rounding.
Variable U : unicode_db.

Lemma sub_numbers_starts_inert s r :
  starts_inert U s = true -> sub_numbers U 0 s = Ok r -> starts_inert U r = true.
Proof.
  destruct s as [|c s']; intros H E.
  - injection E as <-. reflexivity.
  - cbn [starts_inert] in H. rewrite (sub_numbers_sep U c s' H) in E.
    destruct (sub_numbers U 0 s'); [|discriminate]. injection E as <-. exact H.
Qed.

Lemma round_rendered tok s :
  path U tok s -> forall r, sub_numbers U 0 s = Ok r -> canonical_path U r.
Proof.
  induction 1 as [|c s Hc P IH|t s W T Hs P IH]; intros r E.
  - injection E as <-. constructor.
  - rewrite (sub_numbers_sep U c s Hc) in E.
    destruct (sub_numbers U 0 s) as [out|]; [|discriminate]. injection E as <-.
    constructor; [exact Hc|]. apply IH. reflexivity.
  - rewrite (sub_numbers_token U t s W Hs) in E.
    destruct (repl t) as [x|] eqn:R; [|discriminate]. cbn [bind] in E.
    destruct (sub_numbers U 0 s) as [out|] eqn:O; [|discriminate]. injection E as <-.
    destruct (repl_rounded t x W R) as (n & -> & Rn).
    constructor; [apply int_number_wf|exact Rn| |apply IH; reflexivity].
    exact (sub_numbers_starts_inert s out Hs O).
Qed.

Lemma canonical_fixed s : canonical_path U s -> sub_numbers U 0 s = Ok s.
Proof.
  induction 1 as [|c s Hc P IH|t s W T Hs P IH].
  - reflexivity.
  - rewrite (sub_numbers_sep U c s Hc), IH. reflexivity.
  - rewrite (sub_numbers_token U t s W Hs), T, IH. reflexivity.
Qed.

End Rounding.

(** *** The spacing steps on a path of tokens *)

Lemma dropwhile_app_last p a c :
  dropwhile p (a ++ [c]) =
  match dropwhile p a with
  | [] => if p c then [] else [c]
  | d => d ++ [c]
  end.
Proof.
  induction a as [|x a IH]; [reflexivity|].
  cbn [app dropwhile]. destruct (p x); [exact IH|reflexivity].
Qed.

Lemma rev_dropwhile_rev p s : rev (dropwhile p (rev s)) = rstrip p s.
Proof.
  induction s as [|c t IH]; [reflexivity|].
  cbn [rev rstrip]. rewrite dropwhile_app_last, <- IH.
  destruct (dropwhile p (rev t)) as [|x d] eqn:E.
  - cbn [rev]. destruct (p c); reflexivity.
  - rewrite rev_app_distr. cbn [rev app].
    destruct (rev d ++ [x]) eqn:E'; [destruct (rev d); discriminate|reflexivity].
Qed.

Lemma strip_rstrip U s : strip U s = rstrip (is_space U) (dropwhile (is_space U) s).
Proof. unfold strip. apply rev_dropwhile_rev. Qed.

Section Passes.
Variable U : unicode_db.
Variable tok : number -> Prop.

Lemma token_char_plain c : token_char c = true -> is_cmd c = false /\ is_space U c = false.
Proof.
  unfold token_char, is_ascii_digit. intros H.
  assert ((48 <= c <= 57)%N \/ c = 45%N \/ c = 46%N \/ c = 101%N \/ c = 43%N) as R.
  { repeat (apply orb_true_iff in H; destruct H as [H|H]);
      try (apply N.eqb_eq in H; auto 6).
    apply andb_true_iff in H. destruct H as [A B]. apply N.leb_le in A, B. auto. }
  destruct R as [R|[->|[->|[->| ->]]]]; try (split; reflexivity).
  split.
  - unfold is_cmd, cmds. cbn [py list_ascii_of_string map existsb].
    repeat (match goal with |- context [(c =? ?k)%N] =>
              replace (c =? k)%N with false by (symmetry; apply N.eqb_neq; cbn; lia) end).
    reflexivity.
  - unfold is_space.
    replace (c <? 128)%N with true by (symmetry; apply N.ltb_lt; lia).
    apply orb_false_iff. split; apply andb_false_iff; right; apply N.leb_gt; lia.
Qed.

Lemma digit_chars_token ds :
  digits_ok ds = true -> forallb token_char (map digit_char ds) = true.
Proof.
  induction ds as [|d ds IH]; [reflexivity|]. cbn [digits_ok forallb map]. intros H.
  apply andb_true_iff in H. destruct H as [Hd H].
  apply andb_true_iff in Hd. destruct Hd as [A B]. apply Z.leb_le in A, B.
  rewrite (IH H), andb_true_r. unfold token_char, is_ascii_digit.
  pose proof (digit_char_range d ltac:(lia)).
  replace (48 <=? digit_char d)%N with true by (symmetry; apply N.leb_le; lia).
  replace (digit_char d <=? 57)%N with true by (symmetry; apply N.leb_le; lia).
  reflexivity.
Qed.

Lemma number_text_chars t :
  wf_number t = true -> forallb token_char (number_text t) = true.
Proof.
  destruct t as [ng ds dot fs ex]. unfold wf_number, number_text.
  cbn [num_neg num_int num_dot num_frac num_exp]. intros W.
  apply andb_true_iff in W. destruct W as [W Wex].
  apply andb_true_iff in W. destruct W as [W Wdot].
  apply andb_true_iff in W. destruct W as [W Wfs].
  apply andb_true_iff in W. destruct W as [Wne Wds].
  rewrite !forallb_app, (digit_chars_token ds Wds), (digit_chars_token fs Wfs).
  assert (forallb token_char (exponent_text ex) = true) as He.
  { destruct ex as [[sg es]|]; [|reflexivity].
    apply andb_true_iff in Wex. destruct Wex as [_ Wes].
    cbn [exponent_text forallb]. rewrite forallb_app, (digit_chars_token es Wes).
    destruct sg as [[|]|]; reflexivity. }
  rewrite He. destruct ng, dot; reflexivity.
Qed.

(** The steps pass over the characters of a token. *)
Lemma space_before_token x : forall prev s,
  forallb token_char x = true ->
  space_before U prev (x ++ s) = x ++ space_before U (fold_left (fun _ c => Some c) x prev) s.
Proof.
  induction x as [|c x IH]; intros prev s H; [reflexivity|].
  cbn [forallb] in H. apply andb_true_iff in H. destruct H as [Hc H].
  destruct (token_char_plain c Hc) as [Cm _].
  cbn [app space_before fold_left]. rewrite Cm. cbn [andb]. rewrite (IH _ _ H). reflexivity.
Qed.

Lemma space_after_token x : forall s,
  forallb token_char x = true -> space_after U (x ++ s) = x ++ space_after U s.
Proof.
  induction x as [|c x IH]; intros s H; [reflexivity|].
  cbn [forallb] in H. apply andb_true_iff in H. destruct H as [Hc H].
  destruct (token_char_plain c Hc) as [Cm _].
  cbn [app space_after]. rewrite Cm. cbn [andb]. rewrite (IH _ H). reflexivity.
Qed.

Lemma collapse_token x : forall inside s,
  forallb token_char x = true -> nonempty x = true ->
  collapse U inside (x ++ s) = x ++ collapse U false s.
Proof.
  induction x as [|c x IH]; intros inside s H Ne; [discriminate|].
  cbn [forallb] in H. apply andb_true_iff in H. destruct H as [Hc H].
  destruct (token_char_plain c Hc) as [_ Sp].
  cbn [app collapse]. rewrite Sp. destruct x as [|c' x']; [reflexivity|].
  rewrite (IH false s H eq_refl). reflexivity.
Qed.

Lemma dropwhile_token x s :
  forallb token_char x = true -> nonempty x = true ->
  dropwhile (is_space U) (x ++ s) = x ++ s.
Proof.
  destruct x as [|c x]; [discriminate|]. cbn [forallb]. intros H _.
  apply andb_true_iff in H. destruct H as [Hc _].
  destruct (token_char_plain c Hc) as [_ Sp]. cbn [app dropwhile]. rewrite Sp. reflexivity.
Qed.

Lemma rstrip_token x : forall s,
  forallb token_char x = true ->
  rstrip (is_space U) (x ++ s) = x ++ rstrip (is_space U) s.
Proof.
  induction x as [|c x IH]; intros s H; [reflexivity|].
  cbn [forallb] in H. apply andb_true_iff in H. destruct H as [Hc H].
  destruct (token_char_plain c Hc) as [_ Sp].
  cbn [app rstrip]. rewrite (IH s H), Sp.
  destruct (x ++ rstrip (is_space U) s); reflexivity.
Qed.

Lemma inert_space : inert U 32 = true.
Proof. reflexivity. Qed.

(** Each step maps a path of tokens to a path of the same tokens. *)
Lemma space_before_path s :
  path U tok s ->
  forall prev, path U tok (space_before U prev s) /\
               (starts_inert U s = true -> starts_inert U (space_before U prev s) = true).
Proof.
  induction 1 as [|c s Hc P IH|t s W T Hs P IH]; intros prev.
  - split; [constructor|auto].
  - cbn [space_before]. destruct (IH (Some c)) as [I1 _].
    destruct (is_cmd c && match prev with Some p => is_digit U p | None => false end).
    + split; [|reflexivity]. constructor; [apply inert_space|]. constructor; assumption.
    + split; [|intros _; exact Hc]. constructor; assumption.
  - pose proof (number_text_chars t W) as Ch.
    pose proof (number_text_nonempty t W) as Ne.
    rewrite (space_before_token _ prev s Ch).
    destruct (IH (fold_left (fun _ c => Some c) (number_text t) prev)) as [I1 I2].
    split; [constructor; auto|].
    intros H. destruct (number_text t) as [|c x]; [discriminate|]. exact H.
Qed.

Lemma space_after_path s :
  path U tok s ->
  path U tok (space_after U s) /\
  (starts_inert U s = true -> starts_inert U (space_after U s) = true).
Proof.
  induction 1 as [|c s Hc P [I1 I2]|t s W T Hs P [I1 I2]].
  - split; [constructor|auto].
  - cbn [space_after]. split; [|intros _; destruct (is_cmd c && _); exact Hc].
    destruct (is_cmd c && match s with [] => false | n :: _ => is_digit U n end).
    + constructor; [exact Hc|]. constructor; [apply inert_space|exact I1].
    + constructor; assumption.
  - pose proof (number_text_chars t W) as Ch.
    pose proof (number_text_nonempty t W) as Ne.
    rewrite (space_after_token _ s Ch).
    split; [constructor; auto|].
    intros H. destruct (number_text t) as [|c x]; [discriminate|]. exact H.
Qed.

Lemma collapse_starts_inert s :
  starts_inert U s = true -> starts_inert U (collapse U false s) = true.
Proof.
  destruct s as [|c s]; [reflexivity|]. cbn [starts_inert collapse].
  destruct (is_space U c); [reflexivity|]. intros H. exact H.
Qed.

Lemma collapse_path s :
  path U tok s -> forall inside, path U tok (collapse U inside s).
Proof.
  induction 1 as [|c s Hc P IH|t s W T Hs P IH]; intros inside.
  - constructor.
  - cbn [collapse]. destruct (is_space U c).
    + destruct inside; [apply IH|]. constructor; [apply inert_space|apply IH].
    + constructor; [exact Hc|apply IH].
  - pose proof (number_text_chars t W) as Ch.
    pose proof (number_text_nonempty t W) as Ne.
    rewrite (collapse_token _ inside s Ch Ne).
    constructor; auto. apply collapse_starts_inert, Hs.
Qed.

Lemma dropwhile_path s : path U tok s -> path U tok (dropwhile (is_space U) s).
Proof.
  induction 1 as [|c s Hc P IH|t s W T Hs P IH].
  - constructor.
  - cbn [dropwhile]. destruct (is_space U c); [exact IH|]. constructor; assumption.
  - pose proof (number_text_chars t W) as Ch.
    pose proof (number_text_nonempty t W) as Ne.
    rewrite (dropwhile_token _ s Ch Ne). constructor; assumption.
Qed.

Lemma rstrip_path s :
  path U tok s ->
  path U tok (rstrip (is_space U) s) /\
  (starts_inert U s = true -> starts_inert U (rstrip (is_space U) s) = true).
Proof.
  induction 1 as [|c s Hc P [I1 I2]|t s W T Hs P [I1 I2]].
  - split; [constructor|auto].
  - cbn [rstrip]. destruct (rstrip (is_space U) s) as [|y r] eqn:E.
    + destruct (is_space U c).
      * split; [constructor|reflexivity].
      * split; [constructor; [exact Hc|constructor]|intros _; exact Hc].
    + split; [constructor; assumption|intros _; exact Hc].
  - pose proof (number_text_chars t W) as Ch.
    pose proof (number_text_nonempty t W) as Ne.
    rewrite (rstrip_token _ s Ch).
    split; [constructor; auto|].
    intros H. destruct (number_text t) as [|c x]; [discriminate|]. exact H.
Qed.

Lemma add_space_path s : path U tok s -> path U tok (add_space_around_commands U s).
Proof.
  intros P. unfold add_space_around_commands. rewrite strip_rstrip.
  apply rstrip_path, dropwhile_path, collapse_path, space_after_path, space_before_path, P.
Qed.

End Passes.

(** *** The spacing steps applied twice *)

Section Idempotence.
Variable U : unicode_db.

Lemma space_before_fixed s : forall prev,
  pairs_ok (digit_then_cmd U) prev s = true -> space_before U prev s = s.
Proof.
  induction s as [|c t IH]; intros prev H; [reflexivity|].
  cbn [pairs_ok space_before] in *. apply andb_true_iff in H. destruct H as [A B].
  rewrite (IH _ B).
  replace (is_cmd c && match prev with Some p => is_digit U p | None => false end)
    with false; [reflexivity|].
  destruct prev as [p|]; [|rewrite andb_false_r; reflexivity].
  apply negb_true_iff in A. unfold digit_then_cmd in A. rewrite andb_comm. auto.
Qed.

Lemma space_after_fixed s : forall prev,
  pairs_ok (cmd_then_digit U) prev s = true -> space_after U s = s.
Proof.
  induction s as [|c t IH]; intros prev H; [reflexivity|].
  cbn [pairs_ok space_after] in *. apply andb_true_iff in H. destruct H as [_ B].
  rewrite (IH _ B).
  replace (is_cmd c && match t with [] => false | n :: _ => is_digit U n end)
    with false; [reflexivity|].
  destruct t as [|n t']; [rewrite andb_false_r; reflexivity|].
  cbn [pairs_ok] in B. apply andb_true_iff in B. destruct B as [A _].
  apply negb_true_iff in A. unfold cmd_then_digit in A. auto.
Qed.

Lemma collapse_single s : forall inside,
  single_spaced U inside (collapse U inside s) = true.
Proof.
  induction s as [|c t IH]; intros inside; [reflexivity|].
  cbn [collapse]. destruct (is_space U c) eqn:E.
  - destruct inside; [apply IH|].
    cbn [single_spaced]. rewrite space_is_space. cbn. apply IH.
  - cbn [single_spaced]. rewrite E. apply IH.
Qed.

Lemma single_collapse s : forall b, single_spaced U b s = true -> collapse U b s = s.
Proof.
  induction s as [|c t IH]; intros b H; [reflexivity|].
  cbn [single_spaced collapse] in *. destruct (is_space U c).
  - apply andb_true_iff in H. destruct H as [H T].
    apply andb_true_iff in H. destruct H as [Ec Hb].
    apply N.eqb_eq in Ec. apply negb_true_iff in Hb. subst. rewrite (IH _ T). reflexivity.
  - rewrite (IH _ H). reflexivity.
Qed.

Lemma single_spaced_weaken s b :
  single_spaced U b s = true -> single_spaced U false s = true.
Proof.
  destruct s as [|c t]; [reflexivity|]. cbn [single_spaced].
  destruct (is_space U c); [|auto]. intros H.
  apply andb_true_iff in H. destruct H as [H T].
  apply andb_true_iff in H. destruct H as [Ec _]. rewrite Ec, T. reflexivity.
Qed.

Lemma single_spaced_tail c t b :
  single_spaced U b (c :: t) = true -> single_spaced U false t = true.
Proof.
  cbn [single_spaced]. destruct (is_space U c); intros H.
  - apply andb_true_iff in H. destruct H as [_ T]. eapply single_spaced_weaken. exact T.
  - exact H.
Qed.

Lemma dropwhile_single s : forall b,
  single_spaced U b s = true -> single_spaced U false (dropwhile (is_space U) s) = true.
Proof.
  induction s as [|c t IH]; intros b H; [reflexivity|].
  cbn [dropwhile]. destruct (is_space U c) eqn:E.
  - apply (IH false). eapply single_spaced_tail. exact H.
  - eapply single_spaced_weaken. exact H.
Qed.

Lemma rstrip_single s : forall b,
  single_spaced U b s = true -> single_spaced U b (rstrip (is_space U) s) = true.
Proof.
  induction s as [|c t IH]; intros b H; [reflexivity|].
  cbn [rstrip]. cbn [single_spaced] in H.
  destruct (rstrip (is_space U) t) as [|y r] eqn:R.
  - destruct (is_space U c) eqn:E; [reflexivity|]. cbn [single_spaced]. rewrite E. reflexivity.
  - cbn [single_spaced]. fold (single_spaced U). destruct (is_space U c).
    + apply andb_true_iff in H. destruct H as [H T]. rewrite H. apply (IH true T).
    + apply (IH false H).
Qed.

Lemma rstrip_cons p c t :
  rstrip p (c :: t) =
  match rstrip p t with [] => if p c then [] else [c] | r => c :: r end.
Proof. reflexivity. Qed.

Lemma rstrip_idem p s : rstrip p (rstrip p s) = rstrip p s.
Proof.
  induction s as [|c t IH]; [reflexivity|].
  rewrite rstrip_cons. destruct (rstrip p t) as [|y r] eqn:R.
  - destruct (p c) eqn:E; [reflexivity|]. rewrite rstrip_cons. cbn [rstrip]. rewrite E.
    reflexivity.
  - rewrite rstrip_cons, IH. reflexivity.
Qed.

Lemma dropwhile_head p s :
  match dropwhile p s with [] => True | c :: _ => p c = false end.
Proof.
  induction s as [|c t IH]; [exact I|]. cbn [dropwhile].
  destruct (p c) eqn:E; [exact IH|exact E].
Qed.

Lemma rstrip_head p c t :
  p c = false -> exists r, rstrip p (c :: t) = c :: r.
Proof.
  intros E. cbn [rstrip]. destruct (rstrip p t); [rewrite E|]; eauto.
Qed.

Lemma strip_idem s : strip U (strip U s) = strip U s.
Proof.
  rewrite !strip_rstrip.
  pose proof (dropwhile_head (is_space U) s) as H.
  destruct (dropwhile (is_space U) s) as [|c v]; [reflexivity|].
  destruct (rstrip_head (is_space U) c v H) as (r & E). rewrite E.
  cbn [dropwhile]. rewrite H, <- E. apply rstrip_idem.
Qed.

Lemma add_space_pairs s :
  pairs_ok (digit_then_cmd U) None (add_space_around_commands U s) = true /\
  pairs_ok (cmd_then_digit U) None (add_space_around_commands U s) = true.
Proof.
  unfold add_space_around_commands. split; apply strip_keeps.
  - apply (collapse_keeps U _ _ (digit_then_cmd_space U) None false).
    apply (space_after_keeps U _ _ (digit_then_cmd_space U)). apply space_before_ok.
  - apply (collapse_keeps U _ _ (cmd_then_digit_space U) None false).
    apply space_after_ok. exact I.
Qed.

Lemma add_space_single s : single_spaced U false (add_space_around_commands U s) = true.
Proof.
  unfold add_space_around_commands. rewrite strip_rstrip.
  apply rstrip_single. apply (dropwhile_single _ false). apply collapse_single.
Qed.

(** Space normalisation is idempotent, on every string. *)
Lemma add_space_idempotent s :
  add_space_around_commands U (add_space_around_commands U s)
  = add_space_around_commands U s.
Proof.
  set (t := add_space_around_commands U s).
  destruct (add_space_pairs s) as [P1 P2]. fold t in P1, P2.
  pose proof (add_space_single s) as S1. fold t in S1.
  unfold add_space_around_commands at 1.
  rewrite (space_before_fixed t None P1), (space_after_fixed t None P2),
    (single_collapse t false S1).
  unfold t, add_space_around_commands. apply strip_idem.
Qed.

End Idempotence.

(** Whatever the input, a canonical form whose numbers [round_path_data]
    leaves unchanged is a fixed point of canonicalisation. *)
Lemma canonicalize_fixed_when_rounded (U : unicode_db) (s t : str) :
  canonicalize U s = Ok t -> round_path_data U t = Ok t -> canonicalize U t = Ok t.
Proof.
  intros H E. unfold canonicalize in *.
  destruct (round_path_data U s) as [r|]; [|discriminate].
  cbn [bind] in H. injection H as <-. rewrite E. cbn [bind].
  rewrite add_space_idempotent. reflexivity.
Qed.

(** Claim C3, amended. On every rendered path, that is a string made of
    numeric tokens written with ASCII digits and of characters that are
    neither a digit nor one of [-], [.], [e], with each token followed by
    the end of the string or by such a character, canonicalising twice
    gives the same string as canonicalising once. *)
Theorem canonicalize_idempotent_on_rendered_paths (U : unicode_db) (s t : str) :
  rendered_path U s -> canonicalize U s = Ok t -> canonicalize U t = Ok t.
Proof.
  intros P H. apply (canonicalize_fixed_when_rounded U s t H).
  unfold canonicalize in H.
  destruct (round_path_data U s) as [r|] eqn:R; [|discriminate].
  cbn [bind] in H. injection H as <-.
  apply canonical_fixed. apply add_space_path. exact (round_rendered U _ s P r R).
Qed.

Lemma scenario_path_rendered : rendered_path ascii_db (py "M10.6,20.4C30,40").
Proof.
  unfold rendered_path.
  apply path_sep; [reflexivity|].
  apply (path_num ascii_db _
           {| num_neg := false; num_int := [1; 0]; num_dot := true; num_frac := [6];
              num_exp := None |} (py ",20.4C30,40")); [reflexivity|exact I|reflexivity|].
  apply path_sep; [reflexivity|].
  apply (path_num ascii_db _
           {| num_neg := false; num_int := [2; 0]; num_dot := true; num_frac := [4];
              num_exp := None |} (py "C30,40")); [reflexivity|exact I|reflexivity|].
  apply path_sep; [reflexivity|].
  apply (path_num ascii_db _
           {| num_neg := false; num_int := [3; 0]; num_dot := false; num_frac := [];
              num_exp := None |} (py ",40")); [reflexivity|exact I|reflexivity|].
  apply path_sep; [reflexivity|].
  apply (path_num ascii_db _
           {| num_neg := false; num_int := [4; 0]; num_dot := false; num_frac := [];
              num_exp := None |} []); [reflexivity|exact I|reflexivity|].
  apply path_nil.
Qed.

Lemma canonicalize_idempotent_witness :
  canonicalize ascii_db (py "M 11,20 C 30,40") = Ok (py "M 11,20 C 30,40").
Proof.
  apply (canonicalize_idempotent_on_rendered_paths ascii_db (py "M10.6,20.4C30,40")).
  - exact scenario_path_rendered.
  - vm_compute. reflexivity.
Defined.

Lemma canonicalize_not_idempotent :
  (forall U, canonicalize U (py "1.5.5") = Ok (py "2.5")) /\
  (forall U, canonicalize U (py "2.5") = Ok (py "2")) /\
  (forall U, canonicalize U (py "M0-0") = Ok (py "M 00")) /\
  (forall U, canonicalize U (py "M 00") = Ok (py "M 0")).
Proof. repeat split; intros U; vm_compute; reflexivity. Qed.

(** * Further properties of the code *)

(** ** File names of distinct characters *)

Lemma format_04X_inj a b : format_04X a = format_04X b -> a = b.
Proof.
  intros H. destruct (format_04X_spec a) as (_ & Va & _).
  destruct (format_04X_spec b) as (_ & Vb & _).
  rewrite <- Va, <- Vb, H. reflexivity.
Qed.

Section Names.
Variable U : unicode_db.

Lemma safe_name_inj c1 c2 :
  Tosvgjpg.safe_name_for_file U c1 c1 = Tosvgjpg.safe_name_for_file U c2 c2 -> c1 = c2.
Proof.
  unfold Tosvgjpg.safe_name_for_file.
  destruct (is_bad_char c1); destruct (is_bad_char c2);
    destruct (startswith_C (uni_category U c1) || is_space U c1);
    destruct (startswith_C (uni_category U c2) || is_space U c2);
    cbn [py list_ascii_of_string map app]; intros H;
    try (injection H as H; apply format_04X_inj; exact H);
    try (injection H as H; exact H);
    try discriminate H.
  all: try (exfalso; destruct (format_04X_spec c2) as (_ & _ & L & _);
            destruct (format_04X c2) as [|? [|? ?]]; cbn in *; try lia; discriminate).
  all: try (exfalso; destruct (format_04X_spec c1) as (_ & _ & L & _);
            destruct (format_04X c1) as [|? [|? ?]]; cbn in *; try lia; discriminate).
Qed.

Lemma safe_name_no_bad c cp : no_bad_char (Tosvgjpg.safe_name_for_file U c cp) = true.
Proof.
  unfold Tosvgjpg.safe_name_for_file.
  destruct (is_bad_char c) eqn:B; [apply code_point_form_safe|].
  destruct (startswith_C (uni_category U c) || is_space U c);
    [apply code_point_form_safe|].
  unfold no_bad_char. cbn [forallb]. rewrite B. reflexivity.
Qed.

Lemma safe_name_head c cp ext :
  startswith_sep (Tosvgjpg.safe_name_for_file U c cp ++ ext) = false.
Proof.
  pose proof (safe_name_no_bad c cp) as H.
  assert (Tosvgjpg.safe_name_for_file U c cp <> []) as Ne.
  { unfold Tosvgjpg.safe_name_for_file.
    destruct (is_bad_char c); [discriminate|].
    destruct (startswith_C (uni_category U c) || is_space U c); discriminate. }
  destruct (Tosvgjpg.safe_name_for_file U c cp) as [|x t]; [contradiction Ne; reflexivity|].
  cbn [app startswith_sep]. unfold no_bad_char in H. cbn [forallb] in H.
  apply andb_true_iff in H. destruct H as [H _]. apply negb_true_iff in H.
  destruct (N.eqb_spec x 47) as [->|]; [discriminate H|reflexivity].
Qed.

End Names.

(** Property X1. Two characters get the same file name only when they are
    the same character: [safe_name_for_file], called with [cp = ord(char)]
    as [process_font_file] calls it, is injective. *)
Theorem safe_name_for_file_injective (U : unicode_db) (c1 c2 : N) :
  Tosvgjpg.safe_name_for_file U c1 c1 = Tosvgjpg.safe_name_for_file U c2 c2
  <-> c1 = c2.
Proof. split; [apply safe_name_inj|intros ->; reflexivity]. Qed.

(** ** Bounds measured from the outline *)

Lemma list_min_le x xs : list_min x xs <= x /\ forall y, In y xs -> list_min x xs <= y.
Proof.
  unfold list_min. revert x. induction xs as [|a xs IH]; intros x; cbn [fold_left].
  - split; [lia|intros y []].
  - destruct (IH (Z.min x a)) as [A B]. split; [lia|].
    intros y [<-|H]; [lia|apply B, H].
Qed.

Lemma list_max_ge x xs : x <= list_max x xs /\ forall y, In y xs -> y <= list_max x xs.
Proof.
  unfold list_max. revert x. induction xs as [|a xs IH]; intros x; cbn [fold_left].
  - split; [lia|intros y []].
  - destruct (IH (Z.max x a)) as [A B]. split; [lia|].
    intros y [<-|H]; [lia|apply B, H].
Qed.

Lemma list_min_in x xs : In (list_min x xs) (x :: xs).
Proof.
  unfold list_min. revert x. induction xs as [|a xs IH]; intros x; cbn [fold_left].
  - left; reflexivity.
  - destruct (IH (Z.min x a)) as [E|H].
    + rewrite <- E. destruct (Z.min_spec x a) as [[_ M]|[_ M]]; rewrite M.
      * left; reflexivity.
      * right; left; reflexivity.
    + right; right; exact H.
Qed.

Lemma list_max_in x xs : In (list_max x xs) (x :: xs).
Proof.
  unfold list_max. revert x. induction xs as [|a xs IH]; intros x; cbn [fold_left].
  - left; reflexivity.
  - destruct (IH (Z.max x a)) as [E|H].
    + rewrite <- E. destruct (Z.max_spec x a) as [[_ M]|[_ M]]; rewrite M.
      * right; left; reflexivity.
      * left; reflexivity.
    + right; right; exact H.
Qed.

(** Property X2. For a glyph without [boundingBox] and without [bounds],
    the box [get_glyph_bounds] measures from the recorded outline encloses
    every recorded point and is the smallest such box: each of its four
    sides is the coordinate of a recorded point. Without any point it is
    [(0,0,0,0)]. *)
Theorem recorded_bounds_are_tight (g : glyph) (xmin ymin xmax ymax : Z) :
  boundingBox g = None -> bounds g = None ->
  get_glyph_bounds g = (xmin, ymin, xmax, ymax) ->
  let pts := flat_map snd (draw g) in
  (forall x y, In (x, y) pts -> xmin <= x <= xmax /\ ymin <= y <= ymax) /\
  (pts = [] -> (xmin, ymin, xmax, ymax) = (0, 0, 0, 0)) /\
  (pts <> [] ->
   In xmin (map fst pts) /\ In xmax (map fst pts) /\
   In ymin (map snd pts) /\ In ymax (map snd pts)).
Proof.
  intros Hb Hn E pts. unfold get_glyph_bounds in E. rewrite Hb, Hn in E.
  fold pts in E. destruct pts as [|[x0 y0] ps].
  - cbn in E. injection E as <- <- <- <-.
    split; [intros x y []|]. split; [reflexivity|]. intros C. contradiction C. reflexivity.
  - cbn [map fst snd] in E. injection E as <- <- <- <-.
    split; [|split; [discriminate|]].
    + intros x y H.
      assert (In x (x0 :: map fst ps)) as Hx by (apply (in_map fst) in H; exact H).
      assert (In y (y0 :: map snd ps)) as Hy by (apply (in_map snd) in H; exact H).
      destruct (list_min_le x0 (map fst ps)) as [A1 A2].
      destruct (list_max_ge x0 (map fst ps)) as [B1 B2].
      destruct (list_min_le y0 (map snd ps)) as [C1 C2].
      destruct (list_max_ge y0 (map snd ps)) as [D1 D2].
      destruct Hx as [<-|Hx]; destruct Hy as [<-|Hy];
        repeat split; auto.
    + intros _. cbn [map fst snd].
      repeat split; first [apply list_min_in | apply list_max_in].
Qed.

Lemma recorded_bounds_are_tight_witness :
  (forall x y, In (x, y) [(1, 2); (5, 0); (3, 7)] -> 1 <= x <= 5 /\ 0 <= y <= 7) /\
  ([(1, 2); (5, 0); (3, 7)] = @nil point -> (1, 0, 5, 7) = (0, 0, 0, 0)) /\
  ([(1, 2); (5, 0); (3, 7)] <> @nil point ->
   In 1 [1; 5; 3] /\ In 5 [1; 5; 3] /\ In 0 [2; 0; 7] /\ In 7 [2; 0; 7]).
Proof.
  apply (recorded_bounds_are_tight triangle 1 0 5 7); reflexivity.
Defined.

(** ** Rounding: what is left alone and what fails *)

Lemma match_number_no_digit U c t :
  is_digit U c = false -> starts_nondigit U t = true -> match_number U (c :: t) = None.
Proof.
  intros Hc Ht. unfold match_number. cbn [match_char].
  destruct (c =? 45)%N.
  - rewrite (span_digits_nondigit U t Ht). reflexivity.
  - rewrite (span_digits_nondigit U (c :: t)); [reflexivity|].
    cbn [starts_nondigit]. rewrite Hc. reflexivity.
Qed.

(** Property X3. A string without any digit is returned unchanged by
    [round_path_data]: the pattern needs a digit to match, so signs, dots
    and letters on their own are never rewritten. *)
Theorem round_path_data_without_digits (U : unicode_db) (s : str) :
  no_digit U s = true -> round_path_data U s = Ok s.
Proof.
  unfold round_path_data, no_digit. induction s as [|c t IH]; [reflexivity|].
  cbn [forallb]. intros H. apply andb_true_iff in H. destruct H as [Hc Ht].
  apply negb_true_iff in Hc. cbn [sub_numbers].
  rewrite (match_number_no_digit U c t Hc).
  - rewrite (IH Ht). reflexivity.
  - destruct t as [|x t']; [reflexivity|]. cbn [forallb] in Ht.
    apply andb_true_iff in Ht. destruct Ht as [Hx _]. exact Hx.
Qed.

Lemma round_path_data_without_digits_witness :
  round_path_data ascii_db (py "M -.e+ Z") = Ok (py "M -.e+ Z").
Proof. apply (round_path_data_without_digits ascii_db). reflexivity. Defined.

(** Property X4. An integer of magnitude at most [2^53] at the start of the
    string, followed by the end of the string or by a character that is
    neither a digit nor one of [-], [.], [e], is written back unchanged by
    [round_path_data], and the rest of the string is rounded on its own. *)
Theorem round_path_data_keeps_integers (U : unicode_db) (z : Z) (s : str) :
  Z.abs z <= 2 ^ 53 -> starts_inert U s = true ->
  round_path_data U (str_of_int z ++ s)
  = (out <- round_path_data U s ;; Ok (str_of_int z ++ out)).
Proof.
  intros Hz Hs. unfold round_path_data.
  rewrite <- int_number_text.
  rewrite (sub_numbers_token U (int_number z) s (int_number_wf z) Hs).
  assert (repl (int_number z) = Ok (number_text (int_number z))) as R.
  { rewrite int_number_text.
    replace z with (signed (z <? 0) (Z.abs z)) at 1 2.
    2:{ unfold signed. destruct (Z.ltb_spec z 0); lia. }
    apply repl_int_number; [lia|].
    destruct (Z.eq_dec (Z.abs z) 0) as [E|E]; [left; exact E|right].
    apply representable_int. lia. }
  rewrite R. reflexivity.
Qed.

Lemma round_path_data_keeps_integers_witness :
  round_path_data ascii_db (py "-9007199254740992,Z")
  = (out <- round_path_data ascii_db (py ",Z") ;; Ok (py "-9007199254740992" ++ out)).
Proof.
  apply (round_path_data_keeps_integers ascii_db (-9007199254740992) (py ",Z")).
  - vm_compute. discriminate.
  - reflexivity.
Defined.

(** Beyond [2^53] an integer can change: it goes through [float]. *)
Example round_path_data_beyond_2_53 (U : unicode_db) :
  round_path_data U (py "9007199254740993") = Ok (py "9007199254740992").
Proof. vm_compute. reflexivity. Qed.

(** A value from [2^1024] on has no finite binary64. *)
Lemma nearest_overflow s n : 2 ^ 1024 <= n -> nearest s n 1 = Inf s.
Proof.
  intros Hn.
  assert (0 < n) as Hpos by (pose proof (Z.pow_pos_nonneg 2 1024); lia).
  destruct (nearest_cases s n 1 Hpos ltac:(lia)) as (q & e & He & Hq & L & R & Eq).
  pose proof (floor_log2_spec n 1 Hpos ltac:(lia)) as [Dn Up].
  rewrite frac_int in *.
  set (lg := floor_log2 n 1) in *.
  assert (1024 <= lg) as Hlg.
  { assert (p2 1024 < p2 (lg + 1))%Q as A.
    { eapply Qle_lt_trans; [|exact Up]. rewrite p2_Z by lia. apply Zle_Q. exact Hn. }
    apply p2_lt_inv in A. lia. }
  assert (e = lg - 52) as He' by (unfold emin in He; lia).
  assert (2 ^ 52 <= q) as Hq52.
  { assert (p2 lg * p2 (- e) == p2 52)%Q as P52.
    { rewrite <- p2_add. replace (lg + - e) with 52 by lia. reflexivity. }
    assert (p2 52 <= inject_Z n * p2 (- e))%Q as B.
    { rewrite <- P52. apply Qmult_le_compat_r; [exact Dn|]. apply Qlt_le_weak, p2_pos. }
    rewrite (p2_Z 52) in B by lia.
    assert (inject_Z (2 ^ 52 - 1) < inject_Z q)%Q as A.
    { change (inject_Z (2 ^ 52 - 1)) with (inject_Z (2 ^ 52) - 1)%Q. lra. }
    apply Q_Zlt in A. lia. }
  rewrite Eq.
  destruct (Z.eqb_spec q 0) as [Z0|_]; [lia|].
  destruct (Z.eqb_spec q (2 ^ 53)); cbv zeta iota beta.
  - replace (emax <? e + 1) with true by (symmetry; apply Z.ltb_lt; unfold emax; lia).
    reflexivity.
  - replace (emax <? e) with true by (symmetry; apply Z.ltb_lt; unfold emax; lia).
    reflexivity.
Qed.

Lemma pow10_309 : 2 ^ 1024 <= 10 ^ 309.
Proof. vm_compute. discriminate. Qed.

Lemma exp_number_text m x :
  0 <= m -> 0 <= x ->
  number_text (exp_number m x) = str_of_nat m ++ 101%N :: str_of_nat x.
Proof.
  intros Hm Hx.
  destruct (str_of_nat_spec m Hm) as (Am & _).
  destruct (str_of_nat_spec x Hx) as (Ax & _).
  destruct (digit_values_ok _ Am) as [_ Em].
  destruct (digit_values_ok _ Ax) as [_ Ex].
  unfold number_text, exp_number. cbn [num_neg num_int num_dot num_frac num_exp].
  rewrite Em. cbn [map exponent_text sign_text app]. rewrite Ex. reflexivity.
Qed.

Lemma exp_number_wf m x : 0 <= m -> 0 <= x -> wf_number (exp_number m x) = true.
Proof.
  intros Hm Hx.
  destruct (str_of_nat_spec m Hm) as (Am & _ & Lm & _).
  destruct (str_of_nat_spec x Hx) as (Ax & _ & Lx & _).
  destruct (digit_values_ok _ Am) as [Dm _].
  destruct (digit_values_ok _ Ax) as [Dx _].
  unfold wf_number, exp_number. cbn [num_neg num_int num_dot num_frac num_exp].
  rewrite Dm, Dx.
  destruct (str_of_nat m); [cbn in Lm; lia|].
  destruct (str_of_nat x); [cbn in Lx; lia|]. reflexivity.
Qed.

Lemma repl_exp_overflow m x :
  1 <= m -> 309 <= x -> repl (exp_number m x) = Raise OverflowError.
Proof.
  intros Hm Hx.
  destruct (str_of_nat_spec m ltac:(lia)) as (_ & Vm & _).
  destruct (str_of_nat_spec x ltac:(lia)) as (_ & Vx & _).
  unfold repl, float_of_number, exp_number.
  cbn [num_neg num_int num_dot num_frac num_exp].
  rewrite app_nil_r, !horner_values, Vm, Vx. cbn [length Z.of_nat].
  rewrite Z.sub_0_r. unfold of_decimal.
  replace (0 <=? x) with true by (symmetry; apply Z.leb_le; lia).
  rewrite nearest_overflow; [reflexivity|].
  pose proof pow10_309.
  assert (10 ^ 309 <= 10 ^ x) by (apply Z.pow_le_mono_r; lia).
  nia.
Qed.

Lemma sub_numbers_inert_prefix U pre : forall s e,
  forallb (inert U) pre = true ->
  sub_numbers U 0 s = Raise e -> sub_numbers U 0 (pre ++ s) = Raise e.
Proof.
  induction pre as [|c pre IH]; intros s e H R; [exact R|].
  cbn [forallb] in H. apply andb_true_iff in H. destruct H as [Hc Hp].
  cbn [app]. rewrite (sub_numbers_sep U c (pre ++ s) Hc), (IH s e Hp R). reflexivity.
Qed.

(** Property X5. A number too large for a binary64 makes [round_path_data]
    raise [OverflowError]: a token [m e x] with [m >= 1] and [x >= 309],
    after characters that belong to no number, is read by [float] as
    infinity, which [round] refuses. *)
Theorem round_path_data_overflow (U : unicode_db) (m x : Z) (pre rest : str) :
  1 <= m -> 309 <= x ->
  forallb (inert U) pre = true -> starts_inert U rest = true ->
  round_path_data U (pre ++ str_of_int m ++ py "e" ++ str_of_int x ++ rest)
  = Raise OverflowError.
Proof.
  intros Hm Hx Hp Hr. unfold round_path_data.
  apply sub_numbers_inert_prefix; [exact Hp|].
  unfold str_of_int.
  replace (m <? 0) with false by (symmetry; apply Z.ltb_ge; lia).
  replace (x <? 0) with false by (symmetry; apply Z.ltb_ge; lia).
  change (py "e" ++ str_of_nat x ++ rest) with (101%N :: str_of_nat x ++ rest).
  replace (str_of_nat m ++ 101%N :: str_of_nat x ++ rest)
    with (number_text (exp_number m x) ++ rest).
  2:{ rewrite exp_number_text by lia. rewrite <- app_assoc. reflexivity. }
  rewrite (sub_numbers_token U _ rest (exp_number_wf m x ltac:(lia) ltac:(lia)) Hr).
  rewrite (repl_exp_overflow m x Hm Hx). reflexivity.
Qed.

Lemma round_path_data_overflow_witness :
  round_path_data ascii_db (py "M 1e309,0") = Raise OverflowError.
Proof.
  apply (round_path_data_overflow ascii_db 1 309 (py "M ") (py ",0"));
    first [lia | reflexivity].
Defined.

Section Integers.
Variable U : unicode_db.

Lemma round_rendered_integers tok s :
  path U tok s -> forall r, sub_numbers U 0 s = Ok r -> integer_path U r.
Proof.
  induction 1 as [|c s Hc P IH|t s W T Hs P IH]; intros r E.
  - injection E as <-. constructor.
  - rewrite (sub_numbers_sep U c s Hc) in E.
    destruct (sub_numbers U 0 s) as [out|]; [|discriminate]. injection E as <-.
    constructor; [exact Hc|]. apply IH. reflexivity.
  - rewrite (sub_numbers_token U t s W Hs) in E.
    destruct (repl t) as [x|] eqn:R; [|discriminate]. cbn [bind] in E.
    destruct (sub_numbers U 0 s) as [out|] eqn:O; [|discriminate]. injection E as <-.
    destruct (repl_rounded t x W R) as (n & -> & Rn).
    constructor; [apply int_number_wf|exists n; reflexivity| |apply IH; reflexivity].
    exact (sub_numbers_starts_inert U s out Hs O).
Qed.

Lemma integer_path_chars s :
  integer_path U s -> forallb (fun c => inert U c || is_number_char c) s = true.
Proof.
  induction 1 as [|c s Hc P IH|t s W [n ->] Hs P IH].
  - reflexivity.
  - cbn [forallb]. rewrite Hc, IH. reflexivity.
  - rewrite forallb_app, IH, andb_true_r, int_number_text.
    pose proof (str_of_int_chars n) as H. rewrite forallb_forall in *.
    intros c Hc. rewrite (H c Hc). apply orb_true_r.
Qed.

End Integers.

(** Property X6. On a rendered path, what [round_path_data] returns holds
    integers only: every numeric token has become a printed integer, so no
    decimal point and no exponent is left, and every character is an ASCII
    digit, a minus sign or a character of the input that belongs to no
    number. *)
Theorem rounded_path_has_integers_only (U : unicode_db) (s r : str) :
  rendered_path U s -> round_path_data U s = Ok r ->
  integer_path U r /\
  forallb (fun c => inert U c || is_number_char c) r = true.
Proof.
  intros P E.
  assert (integer_path U r) as I by exact (round_rendered_integers U _ s P r E).
  split; [exact I|]. apply integer_path_chars. exact I.
Qed.

Lemma rounded_path_has_integers_only_witness :
  integer_path ascii_db (py "M11,20C30,40") /\
  forallb (fun c => inert ascii_db c || is_number_char c) (py "M11,20C30,40") = true.
Proof.
  apply (rounded_path_has_integers_only ascii_db (py "M10.6,20.4C30,40")).
  - exact scenario_path_rendered.
  - vm_compute. reflexivity.
Defined.

(** ** Space normalisation *)

Lemma rstrip_last p s d :
  match rstrip p s with [] => True | c :: r => p (last (c :: r) d) = false end.
Proof.
  induction s as [|c t IH]; [exact I|].
  rewrite rstrip_cons. destruct (rstrip p t) as [|y r] eqn:R.
  - destruct (p c) eqn:E; [exact I|exact E].
  - exact IH.
Qed.

Lemma strip_trimmed U s : trimmed U (strip U s) = true.
Proof.
  rewrite strip_rstrip.
  pose proof (dropwhile_head (is_space U) s) as H.
  destruct (dropwhile (is_space U) s) as [|c v]; [reflexivity|].
  destruct (rstrip_head (is_space U) c v H) as (r & E).
  pose proof (rstrip_last (is_space U) (c :: v) c) as L.
  rewrite E in *. unfold trimmed. rewrite H, L. reflexivity.
Qed.

Lemma add_space_trimmed U s : trimmed U (add_space_around_commands U s) = true.
Proof. unfold add_space_around_commands. apply strip_trimmed. Qed.

(** Property X7. [add_space_around_commands] is idempotent on every
    string: applying it to its own output changes nothing. *)
Theorem add_space_around_commands_idempotent (U : unicode_db) (s : str) :
  add_space_around_commands U (add_space_around_commands U s)
  = add_space_around_commands U s.
Proof. apply add_space_idempotent. Qed.

(** Property X8. The output of [add_space_around_commands] has its white
    space normalised: every white-space character in it is a single space
    between two other characters, so it neither starts nor ends with white
    space and never holds two spaces in a row. *)
Theorem add_space_around_commands_normalises_space (U : unicode_db) (s : str) :
  single_spaced U false (add_space_around_commands U s) = true /\
  trimmed U (add_space_around_commands U s) = true.
Proof. split; [apply add_space_single|apply add_space_trimmed]. Qed.

(** Property X9. [add_space_around_commands] only adds and removes white
    space: the characters of its output that are not white space are those
    of its input, in the same order. *)
Theorem add_space_around_commands_keeps_text (U : unicode_db) (s : str) :
  filter (fun c => negb (is_space U c)) (add_space_around_commands U s)
  = filter (fun c => negb (is_space U c)) s.
Proof. apply add_space_solid. Qed.

(** ** Errors of the layout and flat boxes *)

Lemma of_int_error z e : of_int z = Raise e -> e = OverflowError.
Proof.
  unfold of_int. destruct (nearest (z <? 0) (Z.abs z) 1); intros H;
    try discriminate H. injection H as <-. reflexivity.
Qed.

Lemma int_mul_error z x e : int_mul z x = Raise e -> e = OverflowError.
Proof.
  unfold int_mul. destruct (of_int z) eqn:O; cbn [bind]; intros H; [discriminate|].
  injection H as <-. apply (of_int_error z). exact O.
Qed.

Lemma int_truediv_error a b e :
  int_truediv a b = Raise e ->
  (b = 0 /\ e = ZeroDivisionError) \/ (b <> 0 /\ e = OverflowError).
Proof.
  unfold int_truediv. destruct (Z.eqb_spec b 0) as [->|Hb]; intros H.
  - left. injection H as <-. auto.
  - right. split; [exact Hb|].
    destruct (nearest (xorb (a <? 0) (b <? 0)) (Z.abs a) (Z.abs b));
      try discriminate H. injection H as <-. reflexivity.
Qed.

(** Property X10. The layout divides by zero exactly when the canvas size
    is [0] and the box is flat (zero width or zero height): then both
    dimensions are replaced by the canvas size and the scale is [0 / 0]. In
    every other case [max(width, height)] is not zero. *)
Theorem build_layout_division_by_zero (xmin ymin xmax ymax S : Z) :
  build_layout (xmin, ymin, xmax, ymax) S = Raise ZeroDivisionError
  <-> S = 0 /\ (xmax - xmin = 0 \/ ymax - ymin = 0).
Proof.
  unfold build_layout. split.
  - destruct ((xmax - xmin =? 0) || (ymax - ymin =? 0)) eqn:Dg.
    + intros H. apply orb_true_iff in Dg.
      rewrite Z.max_id in H.
      destruct (int_truediv S S) as [sc|e] eqn:D.
      * cbn [bind] in H.
        destruct (int_mul (- xmin) sc) as [e1|e1] eqn:M1; cbn [bind] in H.
        -- destruct (int_mul ymax sc) as [f1|f1] eqn:M2; cbn [bind] in H; [discriminate|].
           injection H as ->. apply int_mul_error in M2. discriminate.
        -- injection H as ->. apply int_mul_error in M1. discriminate.
      * cbn [bind] in H. injection H as ->.
        apply int_truediv_error in D. destruct D as [[-> _]|[_ D]]; [|discriminate].
        split; [reflexivity|]. destruct Dg as [Dg|Dg]; apply Z.eqb_eq in Dg; auto.
    + intros H. apply orb_false_iff in Dg. destruct Dg as [Dw Dh].
      apply Z.eqb_neq in Dw, Dh. exfalso.
      destruct (int_truediv S (Z.max (xmax - xmin) (ymax - ymin))) as [sc|e] eqn:D.
      * cbn [bind] in H.
        destruct (int_mul (- xmin) sc) as [e1|e1] eqn:M1; cbn [bind] in H.
        -- destruct (int_mul ymax sc) as [f1|f1] eqn:M2; cbn [bind] in H; [discriminate|].
           injection H as ->. apply int_mul_error in M2. discriminate.
        -- injection H as ->. apply int_mul_error in M1. discriminate.
      * cbn [bind] in H. injection H as ->.
        apply int_truediv_error in D. destruct D as [[D _]|[_ D]]; [lia|discriminate].
  - intros [-> Dg].
    replace ((xmax - xmin =? 0) || (ymax - ymin =? 0)) with true.
    + reflexivity.
    + symmetry. apply orb_true_iff.
      destruct Dg as [Dg|Dg]; [left|right]; apply Z.eqb_eq; exact Dg.
Qed.

Lemma int_truediv_same S : 0 < S -> int_truediv S S = Ok float_one.
Proof.
  intros HS. unfold int_truediv.
  replace (S =? 0) with false by (symmetry; apply Z.eqb_neq; lia).
  replace (S <? 0) with false by (symmetry; apply Z.ltb_ge; lia).
  rewrite Z.abs_eq by lia. cbn [xorb].
  unfold nearest.
  replace (S =? 0) with false by (symmetry; apply Z.eqb_neq; lia).
  assert (floor_log2 S S = 0) as F.
  { unfold floor_log2. rewrite Z.sub_diag. unfold scaled. cbn [Z.leb Z.compare Z.pow].
    rewrite Z.mul_1_r, Z.leb_refl. reflexivity. }
  rewrite F. change (Z.max (0 - 52) emin) with (- 52).
  unfold scaled. change (0 <=? - 52) with false. cbv iota beta.
  change (- - 52) with 52.
  rewrite (Z.mul_comm S), rne_exact by lia.
  reflexivity.
Qed.

(** Property X11. A flat box, of zero width or zero height, is not scaled:
    whatever its other dimension, the scale is exactly [1.0] and the canvas
    is [S] by [S], for a canvas size [S] between 1 and [2^53] and an origin
    within [2^53]. A horizontal stroke 2000 units long is drawn at its
    natural size on a canvas of 1024. *)
Theorem flat_box_is_not_scaled (xmin ymin xmax ymax S : Z) :
  xmax - xmin = 0 \/ ymax - ymin = 0 ->
  0 < S <= 2 ^ 53 -> Z.abs xmin <= 2 ^ 53 -> Z.abs ymax <= 2 ^ 53 ->
  exists lay,
    build_layout (xmin, ymin, xmax, ymax) S = Ok lay /\
    lay_scale lay = float_one /\
    ta (lay_transform lay) = float_one /\ td (lay_transform lay) = neg float_one /\
    canvas_size lay = Ok (S, S).
Proof.
  intros Dg HS Hx Hy.
  destruct (int_mul_finite (- xmin) (2 ^ 52) (- 52) ltac:(lia)) as (e1 & E1).
  destruct (int_mul_finite ymax (2 ^ 52) (- 52) ltac:(lia)) as (f1 & F1).
  fold float_one in E1, F1.
  exists {| lay_width := S; lay_height := S; lay_scale := float_one;
            lay_transform := {| ta := float_one; tb := zero; tc := zero;
                                td := neg float_one; te := e1; tf := f1 |} |}.
  split; [|split; [reflexivity|split; [reflexivity|split; [reflexivity|]]]].
  - unfold build_layout.
    replace ((xmax - xmin =? 0) || (ymax - ymin =? 0)) with true.
    2:{ symmetry. apply orb_true_iff.
        destruct Dg as [Dg|Dg]; [left|right]; apply Z.eqb_eq; exact Dg. }
    rewrite Z.max_id, int_truediv_same by lia. cbn [bind].
    rewrite E1. cbn [bind]. rewrite F1. reflexivity.
  - assert ((sw <- int_mul S float_one ;; to_int sw) = Ok S) as C.
    { apply canvas_side_exact; [exact HS|lia|]. reflexivity. }
    apply bind_ok in C. destruct C as (sw & C1 & C2).
    unfold canvas_size. cbn [lay_width lay_height lay_scale].
    rewrite C1. cbn [bind]. rewrite C2. cbn [bind]. reflexivity.
Qed.

Lemma flat_box_is_not_scaled_witness :
  exists lay,
    build_layout (100, 40, 2100, 40) 1024 = Ok lay /\
    lay_scale lay = float_one /\
    ta (lay_transform lay) = float_one /\ td (lay_transform lay) = neg float_one /\
    canvas_size lay = Ok (1024, 1024).
Proof.
  apply (flat_box_is_not_scaled 100 40 2100 40 1024); [right; reflexivity|lia|lia|lia].
Defined.

(** ** The emitted path data *)

Section ExportedPath.
Variable U : unicode_db.
Variable pen : Type.
Variable pen_init : pen.
Variable pen_draw :
  transform -> operator * list point -> pen * list str -> pen * list str.

(** Property X12. The path data of every emitted document is not empty,
    neither starts nor ends with white space and holds single spaces only;
    it is the fall-back [M0 0], or a string in which no command letter
    touches a digit. *)
Theorem exported_path_data_is_normalised (g : glyph) (S : Z) (doc : svg_document) :
  export_svg_for_glyph_dynamic U pen pen_init pen_draw g S = Ok doc ->
  d doc <> [] /\
  trimmed U (d doc) = true /\ single_spaced U false (d doc) = true /\
  (d doc = py "M0 0" \/ cmd_separated U (d doc) = true).
Proof.
  unfold export_svg_for_glyph_dynamic. intros H.
  apply bind_ok in H. destruct H as (lay & _ & H).
  apply bind_ok in H. destruct H as (p & _ & H).
  apply bind_ok in H. destruct H as ([w h] & _ & H).
  injection H as <-. cbn [d].
  pose proof (add_space_single U p) as S1.
  pose proof (add_space_trimmed U p) as T1.
  pose proof (add_space_separates U p) as C1.
  destruct (add_space_around_commands U p) as [|c t].
  - split; [discriminate|]. split; [reflexivity|]. split; [reflexivity|]. left. reflexivity.
  - split; [discriminate|]. auto.
Qed.

End ExportedPath.

Lemma exported_path_data_is_normalised_witness :
  py "M 11,20 L 30,40 Z" <> [] /\
  trimmed ascii_db (py "M 11,20 L 30,40 Z") = true /\
  single_spaced ascii_db false (py "M 11,20 L 30,40 Z") = true /\
  (py "M 11,20 L 30,40 Z" = py "M0 0" \/
   cmd_separated ascii_db (py "M 11,20 L 30,40 Z") = true).
Proof.
  apply (exported_path_data_is_normalised ascii_db unit tt sketch_pen triangle 1024
           {| viewBox := (0, 0, 585, 1024); width := 585; height := 1024;
              d := py "M 11,20 L 30,40 Z" |}).
  vm_compute. reflexivity.
Defined.

(** ** The picture of a character *)

Lemma of_int_abs z :
  0 < Z.abs z <= 2 ^ 53 ->
  exists m e, of_int z = Ok (Fin (z <? 0) m e) /\ 0 < m < 2 ^ 53 /\
              (mag m e == inject_Z (Z.abs z))%Q.
Proof.
  intros Hz. destruct (representable_int (Z.abs z) Hz) as (m0 & e0 & Hm & He & X).
  destruct (nearest_exact (z <? 0) (Z.abs z) 1 m0 e0) as (m & e & N & Hm' & _ & M);
    try lia; try assumption.
  { rewrite frac_int. exact X. }
  exists m, e. unfold of_int. rewrite N.
  split; [reflexivity|]. split; [exact Hm'|]. rewrite M. apply frac_int.
Qed.

Lemma three_quarters_val : three_quarters = Fin false 6755399441055744 (- 53).
Proof. vm_compute. reflexivity. Qed.

Lemma quot_signed n k : 0 <= k -> Z.quot (signed (n <? 0) k) 4 = signed (n <? 0) (k / 4).
Proof.
  intros Hk. unfold signed. destruct (n <? 0).
  - rewrite Z.quot_opp_l by lia. rewrite Z.quot_div_nonneg by lia. reflexivity.
  - apply Z.quot_div_nonneg; lia.
Qed.

(** [int(n * 0.75)] is three quarters of [n], truncated toward zero. *)
Lemma int_three_quarters n :
  Z.abs n <= 2 ^ 51 ->
  (x <- int_mul n three_quarters ;; to_int x) = Ok (Z.quot (3 * n) 4).
Proof.
  intros Hn. destruct (Z.eq_dec n 0) as [->|Hz]; [vm_compute; reflexivity|].
  destruct (of_int_abs n ltac:(lia)) as (m & e & O & Hm & M).
  rewrite three_quarters_val. unfold int_mul. rewrite O. cbn [bind].
  destruct (mul_frac (n <? 0) m e false 6755399441055744 (- 53))
    as (a & b & Mu & Hb & Fr & Ha).
  specialize (Ha ltac:(lia) ltac:(lia)).
  assert (mag 6755399441055744 (- 53) == 3 # 4)%Q as T by reflexivity.
  assert (frac (a, b) == mag (3 * Z.abs n) (- 2))%Q as X.
  { rewrite Fr, M, T. unfold mag. rewrite inject_Z_mult.
    change (p2 (- 2)) with (1 # 4)%Q. change (inject_Z 3) with 3%Q. field. }
  destruct (nearest_exact (xorb (n <? 0) false) a b (3 * Z.abs n) (- 2))
    as (m' & e' & N & Hm' & _ & M'); try assumption;
    try (unfold emin, emax; lia).
  rewrite Mu, N.
  destruct (to_int_spec (xorb (n <? 0) false) m' e') as (z & Tz & Lz & Rz).
  rewrite Tz. f_equal. rewrite xorb_false_r.
  rewrite M', X in Lz, Rz.
  assert (z = (3 * Z.abs n) / 4) as ->.
  { assert (inject_Z (4 * z) <= inject_Z (3 * Z.abs n))%Q as A.
    { unfold mag in Lz. rewrite !inject_Z_mult in *.
      change (p2 (- 2)) with (1 # 4)%Q in Lz. change (inject_Z 4) with 4%Q. lra. }
    assert (inject_Z (3 * Z.abs n) < inject_Z (4 * z + 4))%Q as B.
    { unfold mag in Rz. rewrite inject_Z_plus, !inject_Z_mult in *.
      change (p2 (- 2)) with (1 # 4)%Q in Rz. change (inject_Z 4) with 4%Q. lra. }
    apply Q_Zle in A. apply Q_Zlt in B.
    apply Z.div_unique with (r := 3 * Z.abs n - 4 * z); lia. }
  rewrite <- quot_signed by lia. f_equal.
  unfold signed. destruct (Z.ltb_spec n 0); lia.
Qed.

Lemma str_eqb_refl s : str_eqb s s = true.
Proof. induction s as [|c s IH]; [reflexivity|]. cbn. rewrite N.eqb_refl. exact IH. Qed.

Lemma str_eqb_eq a : forall b, str_eqb a b = true <-> a = b.
Proof.
  induction a as [|x a IH]; intros [|y b]; cbn; split; intros H;
    try reflexivity; try discriminate.
  - apply andb_true_iff in H. destruct H as [E H]. apply N.eqb_eq in E.
    apply IH in H. subst. reflexivity.
  - injection H as -> ->. rewrite N.eqb_refl. apply str_eqb_refl.
Qed.

Lemma fs_read_write p f fs : fs_read p (fs_write p f fs) = Some f.
Proof. cbn. rewrite str_eqb_refl. reflexivity. Qed.

Lemma fs_read_other p q f fs : p <> q -> fs_read q (fs_write p f fs) = fs_read q fs.
Proof.
  intros H. cbn. destruct (str_eqb p q) eqn:E; [|reflexivity].
  apply str_eqb_eq in E. contradiction.
Qed.

Section Pictures.
Variable textbbox : str -> Z -> Z -> str -> option bbox.
Variable save_ok : picture -> bool.

Local Abbreviation jpg := (export_jpg_by_pillow textbbox save_ok).

(** Property X13. For an image size [n] of magnitude at most [2^51],
    [export_jpg_by_pillow] never fails in its arithmetic, and the picture it
    saves has side [n] and the font size [int(n * 0.75)], which is exactly
    three quarters of [n] truncated toward zero. *)
Theorem jpg_font_size_is_three_quarters
    (ttf_path char out_jpg_path : str) (n : Z) (fs : files) :
  Z.abs n <= 2 ^ 51 ->
  (forall fs' e, jpg ttf_path char out_jpg_path n fs <> (fs', Some (Arithmetic e))) /\
  (forall fs', jpg ttf_path char out_jpg_path n fs = (fs', None) ->
     exists pic, fs_read out_jpg_path fs' = Some (Jpeg pic) /\
                 pic_size pic = n /\ pic_font pic = ttf_path /\ pic_text pic = char /\
                 pic_font_size pic = Z.quot (3 * n) 4).
Proof.
  intros Hn. unfold export_jpg_by_pillow. rewrite (int_three_quarters n Hn).
  destruct (textbbox ttf_path (Z.quot (3 * n) 4) n char) as [[[[b0 b1] b2] b3]|].
  - match goal with |- context [save_ok ?p] => destruct (save_ok p) eqn:Sv end.
    + split; [intros fs' e H; discriminate H|].
      intros fs' H. injection H as <-.
      eexists. rewrite fs_read_write. split; [reflexivity|]. cbn. auto.
    + split; intros; discriminate.
  - split; intros; discriminate.
Qed.

(** Property X14. The character is centred: in the saved picture the
    measured text box, moved to the drawing position, leaves a left margin
    of half the free width rounded down, and its right margin exceeds the
    left one by at most one pixel; likewise for the top and bottom margins. *)
Theorem jpg_text_is_centred
    (ttf_path char out_jpg_path : str) (n : Z) (fs fs' : files) :
  jpg ttf_path char out_jpg_path n fs = (fs', None) ->
  exists pic b0 b1 b2 b3 x y,
    fs' = fs_write out_jpg_path (Jpeg pic) fs /\
    textbbox ttf_path (pic_font_size pic) n char = Some (b0, b1, b2, b3) /\
    pic_xy pic = (x, y) /\
    x + b0 = (n - (b2 - b0)) / 2 /\ y + b1 = (n - (b3 - b1)) / 2 /\
    0 <= (n - (x + b2)) - (x + b0) <= 1 /\
    0 <= (n - (y + b3)) - (y + b1) <= 1.
Proof.
  unfold export_jpg_by_pillow.
  destruct (x <- int_mul n three_quarters ;; to_int x) as [fsz|e]; [|discriminate].
  destruct (textbbox ttf_path fsz n char) as [[[[b0 b1] b2] b3]|] eqn:B; [|discriminate].
  match goal with |- context [save_ok ?p] => destruct (save_ok p) eqn:Sv end;
    [|discriminate].
  intros H. injection H as <-.
  eexists _, b0, b1, b2, b3, _, _.
  split; [reflexivity|]. cbn [pic_font_size pic_xy].
  split; [exact B|]. split; [reflexivity|].
  pose proof (Z.div_mod (n - (b2 - b0)) 2 ltac:(lia)).
  pose proof (Z.mod_pos_bound (n - (b2 - b0)) 2 ltac:(lia)).
  pose proof (Z.div_mod (n - (b3 - b1)) 2 ltac:(lia)).
  pose proof (Z.mod_pos_bound (n - (b3 - b1)) 2 ltac:(lia)).
  repeat split; lia.
Qed.

End Pictures.

Lemma jpg_font_size_is_three_quarters_witness :
  (forall fs' e,
     export_jpg_by_pillow fixed_box (fun _ => true) (py "F.ttf") (py "A") (py "A.jpg") 512 []
     <> (fs', Some (Arithmetic e))) /\
  (forall fs',
     export_jpg_by_pillow fixed_box (fun _ => true) (py "F.ttf") (py "A") (py "A.jpg") 512 []
     = (fs', None) ->
     exists pic, fs_read (py "A.jpg") fs' = Some (Jpeg pic) /\
                 pic_size pic = 512 /\ pic_font pic = py "F.ttf" /\
                 pic_text pic = py "A" /\ pic_font_size pic = Z.quot (3 * 512) 4).
Proof.
  apply (jpg_font_size_is_three_quarters fixed_box (fun _ => true)). vm_compute. discriminate.
Defined.

Lemma jpg_text_is_centred_witness :
  exists pic b0 b1 b2 b3 x y,
    [(py "A.jpg", Jpeg {| pic_size := 512; pic_font := py "F.ttf"; pic_font_size := 384;
                          pic_text := py "A"; pic_xy := (104, 88) |})]
    = fs_write (py "A.jpg") (Jpeg pic) [] /\
    fixed_box (py "F.ttf") (pic_font_size pic) 512 (py "A") = Some (b0, b1, b2, b3) /\
    pic_xy pic = (x, y) /\
    x + b0 = (512 - (b2 - b0)) / 2 /\ y + b1 = (512 - (b3 - b1)) / 2 /\
    0 <= (512 - (x + b2)) - (x + b0) <= 1 /\
    0 <= (512 - (y + b3)) - (y + b1) <= 1.
Proof.
  apply (jpg_text_is_centred fixed_box (fun _ => true) (py "F.ttf") (py "A") (py "A.jpg") 512 []).
  vm_compute. reflexivity.
Defined.

(** ** Paths of the exported files *)

Lemma join_step_suffix X b :
  startswith_sep b = false -> exists Y, join_step X b = Y ++ b.
Proof.
  intros H. unfold join_step. rewrite H. destruct X as [|x X].
  - exists []. reflexivity.
  - destruct (endswith_sep (x :: X)).
    + exists (x :: X). reflexivity.
    + exists ((x :: X) ++ [47%N]). rewrite <- app_assoc. reflexivity.
Qed.

Lemma endswith_sep_app Y b c :
  (c =? 47)%N = false -> endswith_sep (Y ++ b ++ [c]) = false.
Proof.
  intros H. unfold endswith_sep. rewrite app_assoc, rev_app_distr. cbn. exact H.
Qed.

(** A file name joined to a directory that does not end with a slash. *)
Lemma join_file dir name :
  (exists Y b c, dir = Y ++ b ++ [c] /\ (c =? 47)%N = false) ->
  startswith_sep name = false ->
  os_path_join dir [name] = dir ++ 47%N :: name.
Proof.
  intros (Y & b & c & -> & Hc) Hn. unfold os_path_join. cbn [fold_left].
  unfold join_step. rewrite Hn, (endswith_sep_app Y b c Hc).
  destruct (Y ++ b ++ [c]) eqn:E; [|reflexivity].
  destruct Y; destruct b; discriminate.
Qed.

Lemma join_dir outdir fb sub c :
  startswith_sep (sub ++ [c]) = false -> (c =? 47)%N = false ->
  exists Y b, os_path_join outdir [fb; sub ++ [c]] = Y ++ b ++ [c].
Proof.
  intros Hs Hc. unfold os_path_join. cbn [fold_left].
  destruct (join_step_suffix (join_step outdir fb) (sub ++ [c]) Hs) as (Y & E).
  exists Y, sub. exact E.
Qed.

Section Paths.
Variable U : unicode_db.

Lemma svg_path_eq outdir ttf_path c :
  os_path_join (svg_dir outdir ttf_path) [Tosvgjpg.safe_name_for_file U c c ++ py ".svg"]
  = svg_file U outdir ttf_path c.
Proof.
  unfold svg_file. apply join_file; [|apply safe_name_head].
  destruct (join_dir outdir (font_basename ttf_path) (py "sv") 103%N) as (Y & b & E);
    [reflexivity|reflexivity|].
  exists Y, b, 103%N. split; [exact E|reflexivity].
Qed.

Lemma jpg_path_eq outdir ttf_path c :
  os_path_join (jpg_dir outdir ttf_path) [Tosvgjpg.safe_name_for_file U c c ++ py ".jpg"]
  = jpg_file U outdir ttf_path c.
Proof.
  unfold jpg_file. apply join_file; [|apply safe_name_head].
  destruct (join_dir outdir (font_basename ttf_path) (py "jp") 103%N) as (Y & b & E);
    [reflexivity|reflexivity|].
  exists Y, b, 103%N. split; [exact E|reflexivity].
Qed.

Lemma svg_file_inj outdir ttf_path c1 c2 :
  svg_file U outdir ttf_path c1 = svg_file U outdir ttf_path c2 -> c1 = c2.
Proof.
  unfold svg_file. intros H. apply app_inv_head in H. apply app_inv_head in H.
  apply app_inv_tail in H. apply safe_name_inj in H. exact H.
Qed.

Lemma svg_not_jpg outdir ttf_path c1 c2 :
  svg_file U outdir ttf_path c1 <> jpg_file U outdir ttf_path c2.
Proof.
  unfold svg_file, jpg_file. intros H.
  apply (f_equal (@rev N)) in H. rewrite !app_assoc, !rev_app_distr in H.
  cbn in H. discriminate H.
Qed.

End Paths.

(** ** The batch loop *)

Section BatchFacts.
Variable U : unicode_db.
Variable pen : Type.
Variable pen_init : pen.
Variable pen_draw :
  transform -> operator * list point -> pen * list str -> pen * list str.
Variable textbbox : str -> Z -> Z -> str -> option bbox.
Variable save_ok : picture -> bool.
Variable ttf_path : str.
Variable font : ttfont.
Variable outdir : str.
Variable svg_scale img_size : Z.
Variable export_jpg : bool.

Local Abbreviation export := (export_svg_for_glyph_dynamic U pen pen_init pen_draw).
Local Abbreviation jpg := (export_jpg_by_pillow textbbox save_ok).
Local Abbreviation step :=
  (export_char U pen pen_init pen_draw textbbox save_ok ttf_path font outdir
     svg_scale img_size export_jpg).
Local Abbreviation run_chars :=
  (process_chars U pen pen_init pen_draw textbbox save_ok ttf_path font outdir
     svg_scale img_size export_jpg).
Local Abbreviation svg_of := (svg_file U outdir ttf_path).
Local Abbreviation jpg_of := (jpg_file U outdir ttf_path).

(** Pillow leaves the files as they are or adds the picture. *)
Lemma jpg_cases ch out n fs :
  (exists f, jpg ttf_path ch out n fs = (fs, Some f)) \/
  (exists pic, jpg ttf_path ch out n fs = (fs_write out (Jpeg pic) fs, None)).
Proof.
  unfold export_jpg_by_pillow.
  destruct (x <- int_mul n three_quarters ;; to_int x) as [fsz|e]; [|left; eauto].
  destruct (textbbox ttf_path fsz n ch) as [[[[b0 b1] b2] b3]|]; [|left; eauto].
  match goal with |- context [save_ok ?p] => destruct (save_ok p) end;
    [right; eauto|left; eauto].
Qed.

(** Whether Pillow succeeds does not depend on the files. *)
Lemma jpg_outcome ch out n fs fs0 :
  snd (jpg ttf_path ch out n fs) = snd (jpg ttf_path ch out n fs0).
Proof.
  unfold export_jpg_by_pillow.
  destruct (x <- int_mul n three_quarters ;; to_int x) as [fsz|e]; [|reflexivity].
  destruct (textbbox ttf_path fsz n ch) as [[[[b0 b1] b2] b3]|]; [|reflexivity].
  match goal with |- context [save_ok ?p] => destruct (save_ok p) end; reflexivity.
Qed.

(** The files after one character: unchanged when the document cannot be
    built, and otherwise with the document, and with the picture when it
    is asked for and Pillow succeeds. *)
Lemma step_cases c gname fs :
  (exists f, step c gname fs = (fs, Some f) /\
             (forall g doc, getGlyphSet font gname = Some g -> export g svg_scale <> Ok doc)) \/
  (exists g doc,
     getGlyphSet font gname = Some g /\ export g svg_scale = Ok doc /\
     let fs1 := fs_write (svg_of c) (Text (svg_content doc)) fs in
     (export_jpg = false /\ step c gname fs = (fs1, None) \/
      export_jpg = true /\
      ((exists f, step c gname fs = (fs1, Some f) /\
                  snd (jpg ttf_path [c] (jpg_of c) img_size []) = Some f) \/
       (exists pic, step c gname fs = (fs_write (jpg_of c) (Jpeg pic) fs1, None) /\
                    snd (jpg ttf_path [c] (jpg_of c) img_size []) = None)))).
Proof.
  unfold export_char, export_svg_file. rewrite svg_path_eq, jpg_path_eq.
  destruct (getGlyphSet font gname) as [g|].
  2:{ left. eexists. split; [reflexivity|]. intros; discriminate. }
  destruct (export g svg_scale) as [doc|e] eqn:E.
  2:{ left. eexists. split; [reflexivity|]. intros g' doc' G. injection G as <-.
      rewrite E. discriminate. }
  right. exists g, doc. split; [reflexivity|]. split; [exact E|]. cbv zeta.
  destruct export_jpg; [right; split; [reflexivity|]|left; auto].
  set (fs1 := fs_write (svg_of c) (Text (svg_content doc)) fs).
  pose proof (jpg_outcome [c] (jpg_of c) img_size fs1 []) as O.
  destruct (jpg_cases [c] (jpg_of c) img_size fs1) as [(f & J)|(pic & J)];
    rewrite J in *; cbn [snd] in O; [left|right]; eauto.
Qed.

(** One character touches its own two files only. *)
Lemma step_frame c gname fs q :
  q <> svg_of c -> q <> jpg_of c ->
  fs_read q (fst (step c gname fs)) = fs_read q fs.
Proof.
  intros Hs Hj.
  destruct (step_cases c gname fs) as [(f & E & _)|(g & doc & _ & _ & H)].
  - rewrite E. reflexivity.
  - cbv zeta in H.
    destruct H as [[_ E]|[_ [(f & E & _)|(pic & E & _)]]]; rewrite E; cbn [fst].
    + apply fs_read_other. congruence.
    + apply fs_read_other. congruence.
    + rewrite fs_read_other by congruence. apply fs_read_other. congruence.
Qed.

(** A file that exists is never removed. *)
Lemma step_keeps c gname fs q :
  os_path_exists q fs = true -> os_path_exists q (fst (step c gname fs)) = true.
Proof.
  intros H.
  assert (forall p f fs', os_path_exists q fs' = true ->
                          os_path_exists q (fs_write p f fs') = true) as K.
  { intros p f fs' H'. unfold os_path_exists in *. cbn.
    destruct (str_eqb p q); [reflexivity|exact H']. }
  destruct (step_cases c gname fs) as [(f & E & _)|(g & doc & _ & _ & H')].
  - rewrite E. exact H.
  - cbv zeta in H'.
    destruct H' as [[_ E]|[_ [(f & E & _)|(pic & E & _)]]]; rewrite E; cbn [fst];
      repeat apply K; exact H.
Qed.

Lemma step_svg c gname fs g doc :
  getGlyphSet font gname = Some g -> export g svg_scale = Ok doc ->
  fs_read (svg_of c) (fst (step c gname fs)) = Some (Text (svg_content doc)).
Proof.
  intros G E.
  destruct (step_cases c gname fs) as [(f & _ & No)|(g' & doc' & G' & E' & H)].
  - exfalso. exact (No g doc G E).
  - rewrite G in G'. injection G' as <-. rewrite E in E'. injection E' as <-.
    cbv zeta in H.
    destruct H as [[_ R]|[_ [(f & R & _)|(pic & R & _)]]]; rewrite R; cbn [fst].
    + apply fs_read_write.
    + apply fs_read_write.
    + rewrite fs_read_other by (intros X; symmetry in X; revert X; apply svg_not_jpg).
      apply fs_read_write.
Qed.

Lemma step_jpg c gname fs g doc :
  getGlyphSet font gname = Some g -> export g svg_scale = Ok doc ->
  export_jpg = true -> snd (jpg ttf_path [c] (jpg_of c) img_size []) = None ->
  os_path_exists (jpg_of c) (fst (step c gname fs)) = true.
Proof.
  intros G E J Ok.
  destruct (step_cases c gname fs) as [(f & _ & No)|(g' & doc' & G' & E' & H)].
  - exfalso. exact (No g doc G E).
  - cbv zeta in H.
    destruct H as [[Jf _]|[_ [(f & _ & R)|(pic & R & _)]]].
    + congruence.
    + congruence.
    + rewrite R. cbn [fst]. unfold os_path_exists. rewrite fs_read_write. reflexivity.
Qed.

(** The loop, one list after the other. *)
Lemma process_chars_app l1 : forall l2 w,
  run_chars (l1 ++ l2) w =
  match run_chars l1 w with
  | Completed w1 => run_chars l2 w1
  | Aborted w1 => Aborted w1
  end.
Proof.
  induction l1 as [|k l1 IH]; intros l2 w; [reflexivity|].
  cbn [app process_chars].
  destruct k as [|cp [|]]; try reflexivity.
  destruct (getBestCmap font) as [cmap|]; [|reflexivity].
  destruct (cmap cp) as [gname|]; [|apply IH].
  destruct (step cp gname (stored w)) as [fs raised]. apply IH.
Qed.

Lemma process_chars_completes chars : forall w cmap,
  getBestCmap font = Some cmap -> forallb single_character chars = true ->
  exists w', run_chars chars w = Completed w'.
Proof.
  induction chars as [|k chars IH]; intros w cmap C F; [eexists; reflexivity|].
  cbn [forallb] in F. apply andb_true_iff in F. destruct F as [Fk F].
  destruct k as [|cp [|]]; try discriminate Fk.
  cbn [process_chars]. rewrite C.
  destruct (cmap cp) as [gname|]; [|eapply IH; eassumption].
  destruct (step cp gname (stored w)) as [fs raised]. eapply IH; eassumption.
Qed.

(** Files that are not those of a listed character of the font are left
    alone. *)
Lemma process_chars_frame chars q : forall w,
  (forall c cmap gname,
     In [c] chars -> getBestCmap font = Some cmap -> cmap c = Some gname ->
     q <> svg_of c /\ q <> jpg_of c) ->
  fs_read q (stored (world_of (run_chars chars w))) = fs_read q (stored w).
Proof.
  induction chars as [|k chars IH]; intros w H; [reflexivity|].
  cbn [process_chars].
  assert (forall c cmap gname,
            In [c] chars -> getBestCmap font = Some cmap -> cmap c = Some gname ->
            q <> svg_of c /\ q <> jpg_of c) as H'.
  { intros c cmap gname Hc. apply H. right. exact Hc. }
  destruct k as [|cp [|]]; try reflexivity.
  destruct (getBestCmap font) as [cmap|] eqn:C; [|reflexivity].
  destruct (cmap cp) as [gname|] eqn:Cp; [|apply IH, H'].
  destruct (H cp cmap gname (or_introl eq_refl) eq_refl Cp) as [Hs Hj].
  pose proof (step_frame cp gname (stored w) q Hs Hj) as Fr.
  destruct (step cp gname (stored w)) as [fs raised]. cbn [fst] in Fr.
  rewrite IH by exact H'. exact Fr.
Qed.

Lemma process_chars_keeps chars q : forall w,
  os_path_exists q (stored w) = true ->
  os_path_exists q (stored (world_of (run_chars chars w))) = true.
Proof.
  induction chars as [|k chars IH]; intros w H; [exact H|].
  cbn [process_chars].
  destruct k as [|cp [|]]; try exact H.
  destruct (getBestCmap font) as [cmap|]; [|exact H].
  destruct (cmap cp) as [gname|]; [|apply IH, H].
  pose proof (step_keeps cp gname (stored w) q H) as K.
  destruct (step cp gname (stored w)) as [fs raised]. cbn [fst] in K.
  apply IH. exact K.
Qed.

(** A stored document survives the rest of the loop: only the same
    character writes to its file again, and it writes the same document. *)
Lemma process_chars_preserves chars c cmap gname g doc : forall w,
  getBestCmap font = Some cmap -> cmap c = Some gname ->
  getGlyphSet font gname = Some g -> export g svg_scale = Ok doc ->
  fs_read (svg_of c) (stored w) = Some (Text (svg_content doc)) ->
  fs_read (svg_of c) (stored (world_of (run_chars chars w)))
  = Some (Text (svg_content doc)).
Proof.
  intros w C Cc G E. revert w.
  induction chars as [|k chars IH]; intros w H; [exact H|].
  cbn [process_chars].
  destruct k as [|cp [|]]; try exact H.
  rewrite C.
  destruct (cmap cp) as [gname'|] eqn:Cp; [|apply IH, H].
  assert (fs_read (svg_of c) (fst (step cp gname' (stored w)))
          = Some (Text (svg_content doc))) as S.
  { destruct (N.eq_dec cp c) as [->|Ne].
    - rewrite Cc in Cp. injection Cp as <-. apply (step_svg c gname _ g doc G E).
    - rewrite step_frame; [exact H| |].
      + intros X. apply svg_file_inj in X. congruence.
      + apply svg_not_jpg. }
  destruct (step cp gname' (stored w)) as [fs raised]. cbn [fst] in S.
  apply IH. exact S.
Qed.

Lemma process_chars_stores chars c cmap gname g doc : forall w,
  getBestCmap font = Some cmap -> cmap c = Some gname ->
  getGlyphSet font gname = Some g -> export g svg_scale = Ok doc ->
  forallb single_character chars = true -> In [c] chars ->
  fs_read (svg_of c) (stored (world_of (run_chars chars w)))
  = Some (Text (svg_content doc)) /\
  (export_jpg = true -> snd (jpg ttf_path [c] (jpg_of c) img_size []) = None ->
   os_path_exists (jpg_of c) (stored (world_of (run_chars chars w))) = true).
Proof.
  intros w C Cc G E. revert w.
  induction chars as [|k chars IH]; intros w F I; [destruct I|].
  cbn [forallb] in F. apply andb_true_iff in F. destruct F as [Fk F].
  destruct k as [|cp [|]]; try discriminate Fk.
  cbn [process_chars]. rewrite C.
  destruct I as [I|I].
  - injection I as ->. rewrite Cc.
    pose proof (step_svg c gname (stored w) g doc G E) as S.
    pose proof (step_jpg c gname (stored w) g doc G E) as J.
    destruct (step c gname (stored w)) as [fs raised]. cbn [fst] in S, J.
    split.
    + apply (process_chars_preserves chars c cmap gname g doc); assumption.
    + intros Hj Ok. apply process_chars_keeps. cbn [stored]. apply J; assumption.
  - destruct (cmap cp) as [gname'|]; [|apply IH; assumption].
    destruct (step cp gname' (stored w)) as [fs raised]. apply IH; assumption.
Qed.

End BatchFacts.

Section BatchTheorems.
Variable U : unicode_db.
Variable pen : Type.
Variable pen_init : pen.
Variable pen_draw :
  transform -> operator * list point -> pen * list str -> pen * list str.
Variable textbbox : str -> Z -> Z -> str -> option bbox.
Variable save_ok : picture -> bool.

Local Abbreviation export := (export_svg_for_glyph_dynamic U pen pen_init pen_draw).
Local Abbreviation jpg := (export_jpg_by_pillow textbbox save_ok).
Local Abbreviation process :=
  (process_font_file U pen pen_init pen_draw textbbox save_ok).

(** Property X15. When every key of the list is one character and the font
    has a character map, [process_font_file] runs to the end, and then, for
    every listed character of the font whose document can be built, the
    file [<outdir>/<font>/svg/<name>.svg] holds exactly that document,
    whatever happened to the other characters; and when pictures are asked
    for and Pillow succeeds on the character, its [.jpg] file exists too. *)
Theorem process_font_file_stores_documents
    (ttf_path : str) (font : ttfont) (char_list : list str) (outdir : str)
    (svg_scale img_size : Z) (export_jpg : bool) (w : world)
    (cmap : N -> option str) :
  getBestCmap font = Some cmap ->
  forallb single_character char_list = true ->
  exists w',
    process ttf_path font char_list outdir svg_scale img_size export_jpg w
    = Completed w' /\
    forall c glyph_name g doc,
      In [c] char_list -> cmap c = Some glyph_name ->
      getGlyphSet font glyph_name = Some g -> export g svg_scale = Ok doc ->
      fs_read (svg_file U outdir ttf_path c) (stored w')
      = Some (Text (svg_content doc)) /\
      (export_jpg = true ->
       snd (jpg ttf_path [c] (jpg_file U outdir ttf_path c) img_size []) = None ->
       os_path_exists (jpg_file U outdir ttf_path c) (stored w') = true).
Proof.
  intros C F. unfold process_font_file.
  destruct (process_chars_completes U pen pen_init pen_draw textbbox save_ok
              ttf_path font outdir svg_scale img_size export_jpg char_list w cmap C F)
    as (w' & R).
  exists w'. split; [exact R|].
  intros c gname g doc I Cc G E.
  pose proof (process_chars_stores U pen pen_init pen_draw textbbox save_ok
                ttf_path font outdir svg_scale img_size export_jpg
                char_list c cmap gname g doc w C Cc G E F I) as H.
  rewrite R in H. exact H.
Qed.

(** Property X16. [process_font_file] touches no other file than the
    [.svg] and [.jpg] files of the listed characters that the font maps:
    every other path reads the same after the run as before it, whether the
    run completes or not. *)
Theorem process_font_file_touches_own_files
    (ttf_path : str) (font : ttfont) (char_list : list str) (outdir : str)
    (svg_scale img_size : Z) (export_jpg : bool) (w : world) (q : str) :
  (forall c cmap glyph_name,
     In [c] char_list -> getBestCmap font = Some cmap -> cmap c = Some glyph_name ->
     q <> svg_file U outdir ttf_path c /\ q <> jpg_file U outdir ttf_path c) ->
  fs_read q
    (stored (world_of
       (process ttf_path font char_list outdir svg_scale img_size export_jpg w)))
  = fs_read q (stored w).
Proof. intros H. unfold process_font_file. apply process_chars_frame. exact H. Qed.

(** Property X17. A key that is not one character, or a font without
    character map, stops [process_font_file] with a [TypeError]: the keys
    before it are processed, the keys after it never are. *)
Theorem process_font_file_stops_at_bad_key
    (ttf_path : str) (font : ttfont) (before after : list str) (key : str)
    (outdir : str) (svg_scale img_size : Z) (export_jpg : bool) (w : world) :
  single_character key = false \/ getBestCmap font = None ->
  process ttf_path font (before ++ key :: after) outdir svg_scale img_size export_jpg w
  = Aborted (world_of
      (process ttf_path font before outdir svg_scale img_size export_jpg w)).
Proof.
  intros H. unfold process_font_file. rewrite process_chars_app.
  destruct (process_chars U pen pen_init pen_draw textbbox save_ok ttf_path font
              outdir svg_scale img_size export_jpg before w) as [w1|w1];
    [|reflexivity].
  cbn [process_chars world_of].
  destruct H as [H|H].
  - destruct key as [|cp [|]]; try reflexivity. discriminate H.
  - rewrite H. destruct key as [|cp [|]]; reflexivity.
Qed.

End BatchTheorems.

Lemma process_font_file_stores_documents_witness :
  exists w',
    process_font_file letters_db unit tt no_pen fixed_box (fun _ => true)
      (py "fonts/F.ttf") letter_font [py "B"; py "A"] (py "out") 1024 512 true empty_world
    = Completed w' /\
    forall c glyph_name g doc,
      In [c] [py "B"; py "A"] ->
      (if (c =? 65)%N then Some (py "A") else None) = Some glyph_name ->
      getGlyphSet letter_font glyph_name = Some g ->
      export_svg_for_glyph_dynamic letters_db unit tt no_pen g 1024 = Ok doc ->
      fs_read (svg_file letters_db (py "out") (py "fonts/F.ttf") c) (stored w')
      = Some (Text (svg_content doc)) /\
      (true = true ->
       snd (export_jpg_by_pillow fixed_box (fun _ => true) (py "fonts/F.ttf") [c]
              (jpg_file letters_db (py "out") (py "fonts/F.ttf") c) 512 []) = None ->
       os_path_exists (jpg_file letters_db (py "out") (py "fonts/F.ttf") c) (stored w')
       = true).
Proof.
  apply (process_font_file_stores_documents letters_db unit tt no_pen fixed_box
           (fun _ => true) (py "fonts/F.ttf") letter_font [py "B"; py "A"] (py "out")
           1024 512 true empty_world
           (fun c => if (c =? 65)%N then Some (py "A") else None));
    reflexivity.
Defined.

Lemma process_font_file_touches_own_files_witness :
  fs_read (py "out/F/svg/notes.txt")
    (stored (world_of
       (process_font_file letters_db unit tt no_pen fixed_box (fun _ => true)
          (py "fonts/F.ttf") letter_font [py "B"; py "A"] (py "out") 1024 512 true
          {| stored := [(py "out/F/svg/notes.txt", Text (py "kept"))]; printed := [] |})))
  = Some (Text (py "kept")).
Proof.
  apply (process_font_file_touches_own_files letters_db unit tt no_pen fixed_box
           (fun _ => true) (py "fonts/F.ttf") letter_font [py "B"; py "A"] (py "out")
           1024 512 true
           {| stored := [(py "out/F/svg/notes.txt", Text (py "kept"))]; printed := [] |}
           (py "out/F/svg/notes.txt")).
  intros c cmap glyph_name [I|[I|[]]] _ _; injection I as <-;
    split; vm_compute; discriminate.
Defined.

Lemma process_font_file_stops_at_bad_key_witness :
  process_font_file letters_db unit tt no_pen fixed_box (fun _ => true)
    (py "fonts/F.ttf") letter_font ([py "A"] ++ py "AB" :: [py "A"]) (py "out")
    1024 512 false empty_world
  = Aborted (world_of
      (process_font_file letters_db unit tt no_pen fixed_box (fun _ => true)
         (py "fonts/F.ttf") letter_font [py "A"] (py "out") 1024 512 false empty_world)).
Proof.
  apply (process_font_file_stops_at_bad_key letters_db unit tt no_pen fixed_box
           (fun _ => true) (py "fonts/F.ttf") letter_font [py "A"] [py "A"] (py "AB")).
  left. reflexivity.
Defined.

(** A run on a font with the single character [A]: [B] is skipped, and the
    two files of [A] are written under [out/F]. *)
Example letter_font_run :
  process_font_file letters_db unit tt no_pen fixed_box (fun _ => true)
    (py "fonts/F.ttf") letter_font [py "B"; py "A"] (py "out") 1024 512 true empty_world
  = Completed
      {| stored :=
           [(py "out/F/jpg/A.jpg",
             Jpeg {| pic_size := 512; pic_font := py "fonts/F.ttf"; pic_font_size := 384;
                     pic_text := py "A"; pic_xy := (104, 88) |});
            (py "out/F/svg/A.svg",
             Text (svg_content {| viewBox := (0, 0, 1023, 1023); width := 1023;
                                  height := 1023; d := py "M0 0" |}))];
         printed := [] |}.
Proof. vm_compute. reflexivity. Qed.

(** ** Collecting the exported files *)

Lemma replace_char_clean s : no_backslash (replace_char 92 47 s) = true.
Proof.
  induction s as [|c s IH]; [reflexivity|].
  cbn [replace_char map no_backslash forallb].
  fold (replace_char 92 47 s). fold (no_backslash (replace_char 92 47 s)).
  rewrite IH, andb_true_r. destruct (N.eqb_spec c 92) as [->|Ne]; [reflexivity|].
  apply negb_true_iff, N.eqb_neq. exact Ne.
Qed.

Lemma replace_char_id s : no_backslash s = true -> replace_char 92 47 s = s.
Proof.
  induction s as [|c s IH]; [reflexivity|].
  cbn [no_backslash forallb replace_char map]. intros H.
  apply andb_true_iff in H. destruct H as [Hc Hs]. apply negb_true_iff in Hc.
  rewrite Hc. f_equal. apply IH. exact Hs.
Qed.

Lemma no_backslash_app a b : no_backslash (a ++ b) = no_backslash a && no_backslash b.
Proof. apply forallb_app. Qed.

Lemma join_step_clean X b :
  no_backslash X = true -> no_backslash b = true -> no_backslash (join_step X b) = true.
Proof.
  intros HX Hb. unfold join_step. destruct (startswith_sep b); [exact Hb|].
  destruct X as [|x X]; [exact Hb|].
  destruct (endswith_sep (x :: X)).
  - rewrite no_backslash_app, HX, Hb. reflexivity.
  - rewrite no_backslash_app, HX. cbn [andb]. cbn [no_backslash forallb].
    fold (no_backslash b). rewrite Hb. reflexivity.
Qed.

Lemma join_clean p : forall a,
  no_backslash a = true -> forallb no_backslash p = true ->
  no_backslash (os_path_join a p) = true.
Proof.
  unfold os_path_join. induction p as [|b p IH]; intros a Ha Hp; [exact Ha|].
  cbn [forallb] in Hp. apply andb_true_iff in Hp. destruct Hp as [Hb Hp].
  cbn [fold_left]. apply IH; [|exact Hp]. apply join_step_clean; assumption.
Qed.

Lemma bad_char_backslash s : no_bad_char s = true -> no_backslash s = true.
Proof.
  unfold no_bad_char, no_backslash. induction s as [|c s IH]; [reflexivity|].
  cbn [forallb]. intros H. apply andb_true_iff in H. destruct H as [Hc Hs].
  rewrite (IH Hs), andb_true_r. apply negb_true_iff in Hc. apply negb_true_iff.
  destruct (N.eqb_spec c 92) as [->|]; [discriminate Hc|reflexivity].
Qed.

Section Collected.
Variable U : unicode_db.

Lemma reader_name c :
  ToDataJson.safe_name_for_file U c None = Tosvgjpg.safe_name_for_file U c c.
Proof. reflexivity. Qed.

(** The reader looks for the files where the writer put them, when no
    directory name holds a backslash. *)
Lemma reader_svg_path outdir ttf_path c :
  no_backslash outdir = true -> no_backslash (font_basename ttf_path) = true ->
  ToDataJson.svg_path U outdir (font_basename ttf_path) c = svg_file U outdir ttf_path c.
Proof.
  intros Ho Hf. unfold ToDataJson.svg_path. rewrite reader_name.
  change (os_path_join (os_path_join outdir [font_basename ttf_path])
            [py "svg"; Tosvgjpg.safe_name_for_file U c c ++ py ".svg"])
    with (os_path_join (svg_dir outdir ttf_path)
            [Tosvgjpg.safe_name_for_file U c c ++ py ".svg"]).
  rewrite replace_char_id; [apply svg_path_eq|].
  apply join_clean.
  - unfold svg_dir. apply join_clean; [exact Ho|]. cbn [forallb]. rewrite Hf. reflexivity.
  - cbn [forallb]. rewrite no_backslash_app, (bad_char_backslash _ (safe_name_no_bad U c c)).
    reflexivity.
Qed.

Lemma reader_jpg_path outdir ttf_path c :
  no_backslash outdir = true -> no_backslash (font_basename ttf_path) = true ->
  ToDataJson.jpg_path U outdir (font_basename ttf_path) c = jpg_file U outdir ttf_path c.
Proof.
  intros Ho Hf. unfold ToDataJson.jpg_path. rewrite reader_name.
  change (os_path_join (os_path_join outdir [font_basename ttf_path])
            [py "jpg"; Tosvgjpg.safe_name_for_file U c c ++ py ".jpg"])
    with (os_path_join (jpg_dir outdir ttf_path)
            [Tosvgjpg.safe_name_for_file U c c ++ py ".jpg"]).
  rewrite replace_char_id; [apply jpg_path_eq|].
  apply join_clean.
  - unfold jpg_dir. apply join_clean; [exact Ho|]. cbn [forallb]. rewrite Hf. reflexivity.
  - cbn [forallb]. rewrite no_backslash_app, (bad_char_backslash _ (safe_name_no_bad U c c)).
    reflexivity.
Qed.

(** Property X18. Every image path in the entries [build_json_for_char]
    returns is free of backslashes, whatever the directory and font names
    are: the separator is always the slash. *)
Theorem build_json_for_char_paths_use_slashes
    (char : str) (fonts : list str) (output_dir : str) (fs : files)
    (items : list ToDataJson.item) :
  ToDataJson.build_json_for_char U char fonts output_dir fs = Some items ->
  forallb (fun it => forallb no_backslash (ToDataJson.images it)) items = true.
Proof.
  revert items. induction fonts as [|font_name rest IH]; intros items H.
  - injection H as <-. reflexivity.
  - cbn [ToDataJson.build_json_for_char] in H.
    destruct char as [|c [|]]; try discriminate H.
    destruct (negb (os_path_exists (ToDataJson.svg_path U output_dir font_name c) fs)
              || negb (os_path_exists (ToDataJson.jpg_path U output_dir font_name c) fs)).
    + exact (IH items H).
    + destruct (ToDataJson.read_text (ToDataJson.svg_path U output_dir font_name c) fs)
        as [text|]; [|discriminate H].
      destruct (ToDataJson.build_json_for_char U [c] rest output_dir fs) as [more|];
        [|discriminate H].
      injection H as <-. cbn [forallb ToDataJson.images].
      rewrite (IH more eq_refl), andb_true_r, andb_true_r.
      unfold ToDataJson.jpg_path. apply replace_char_clean.
Qed.

(** Property X19. The entries of a character follow the fonts: there is one
    entry, in the order of the list, for each font that has both the [.svg]
    and the [.jpg] file of the character, and none for the other fonts. *)
Theorem build_json_for_char_follows_fonts
    (c : N) (fonts : list str) (output_dir : str) (fs : files)
    (items : list ToDataJson.item) :
  ToDataJson.build_json_for_char U [c] fonts output_dir fs = Some items ->
  map ToDataJson.images items
  = map (fun font_name => [ToDataJson.jpg_path U output_dir font_name c])
      (filter (fun font_name =>
                 os_path_exists (ToDataJson.svg_path U output_dir font_name c) fs
                 && os_path_exists (ToDataJson.jpg_path U output_dir font_name c) fs)
         fonts).
Proof.
  revert items. induction fonts as [|font_name rest IH]; intros items H.
  - injection H as <-. reflexivity.
  - cbn [ToDataJson.build_json_for_char] in H. cbn [filter].
    destruct (os_path_exists (ToDataJson.svg_path U output_dir font_name c) fs);
      destruct (os_path_exists (ToDataJson.jpg_path U output_dir font_name c) fs);
      cbn [negb orb andb] in *; try exact (IH items H).
    destruct (ToDataJson.read_text (ToDataJson.svg_path U output_dir font_name c) fs)
      as [text|]; [|discriminate H].
    destruct (ToDataJson.build_json_for_char U [c] rest output_dir fs) as [more|];
      [|discriminate H].
    injection H as <-. cbn [map ToDataJson.images]. f_equal. apply IH. reflexivity.
Qed.

End Collected.

Section EndToEnd.
Variable U : unicode_db.
Variable pen : Type.
Variable pen_init : pen.
Variable pen_draw :
  transform -> operator * list point -> pen * list str -> pen * list str.
Variable textbbox : str -> Z -> Z -> str -> option bbox.
Variable save_ok : picture -> bool.

(** Property X20. What [process_font_file] exports, [build_json_for_char]
    finds: after a run with pictures over keys of one character, for a
    listed character of the font whose document and picture are produced,
    and when neither the output directory nor the font's base name holds a
    backslash, the entry of the character for that font exists, its last
    message is the document that was written and its image is the [.jpg]
    file that was written. *)
Theorem exported_character_is_collected
    (ttf_path : str) (font : ttfont) (char_list : list str) (outdir : str)
    (svg_scale img_size : Z) (w : world) (cmap : N -> option str)
    (c : N) (glyph_name : str) (g : glyph) (doc : svg_document) :
  getBestCmap font = Some cmap ->
  forallb single_character char_list = true ->
  In [c] char_list -> cmap c = Some glyph_name ->
  getGlyphSet font glyph_name = Some g ->
  export_svg_for_glyph_dynamic U pen pen_init pen_draw g svg_scale = Ok doc ->
  snd (export_jpg_by_pillow textbbox save_ok ttf_path [c]
         (jpg_file U outdir ttf_path c) img_size []) = None ->
  no_backslash outdir = true -> no_backslash (font_basename ttf_path) = true ->
  exists w',
    process_font_file U pen pen_init pen_draw textbbox save_ok
      ttf_path font char_list outdir svg_scale img_size true w = Completed w' /\
    ToDataJson.build_json_for_char U [c] [font_basename ttf_path] outdir (stored w')
    = Some
        [ {| ToDataJson.messages :=
               [ {| ToDataJson.content := ToDataJson.ask_style;
                    ToDataJson.role := py "user" |};
                 {| ToDataJson.content :=
                      ToDataJson.answer_style (font_basename ttf_path) [c];
                    ToDataJson.role := py "assistant" |};
                 {| ToDataJson.content := ToDataJson.ask_svg;
                    ToDataJson.role := py "user" |};
                 {| ToDataJson.content := svg_content doc;
                    ToDataJson.role := py "assistant" |} ];
             ToDataJson.images := [jpg_file U outdir ttf_path c] |} ].
Proof.
  intros C F I Cc G E J Ho Hf.
  destruct (process_chars_completes U pen pen_init pen_draw textbbox save_ok
              ttf_path font outdir svg_scale img_size true char_list w cmap C F)
    as (w' & R).
  pose proof (process_chars_stores U pen pen_init pen_draw textbbox save_ok
                ttf_path font outdir svg_scale img_size true
                char_list c cmap glyph_name g doc w C Cc G E F I) as [S P].
  rewrite R in S, P. cbn [world_of] in S, P. specialize (P eq_refl J).
  exists w'. split; [exact R|].
  cbn [ToDataJson.build_json_for_char].
  rewrite (reader_svg_path U outdir ttf_path c Ho Hf),
    (reader_jpg_path U outdir ttf_path c Ho Hf).
  unfold os_path_exists at 1. rewrite S, P. cbn [negb orb].
  unfold ToDataJson.read_text. rewrite S. reflexivity.
Qed.

End EndToEnd.

Lemma build_json_for_char_paths_use_slashes_witness :
  forallb (fun it => forallb no_backslash (ToDataJson.images it)) [sample_item] = true.
Proof.
  apply (build_json_for_char_paths_use_slashes letters_db (py "A")
           [py "Song"; py "Kai\Ti"] (py "out") sample_files).
  vm_compute. reflexivity.
Defined.

Lemma build_json_for_char_follows_fonts_witness :
  map ToDataJson.images [sample_item]
  = map (fun font_name => [ToDataJson.jpg_path letters_db (py "out") font_name 65])
      (filter (fun font_name =>
                 os_path_exists (ToDataJson.svg_path letters_db (py "out") font_name 65)
                   sample_files
                 && os_path_exists (ToDataJson.jpg_path letters_db (py "out") font_name 65)
                      sample_files)
         [py "Song"; py "Kai\Ti"]).
Proof.
  apply (build_json_for_char_follows_fonts letters_db 65
           [py "Song"; py "Kai\Ti"] (py "out") sample_files).
  vm_compute. reflexivity.
Defined.

Lemma exported_character_is_collected_witness :
  exists w',
    process_font_file letters_db unit tt no_pen fixed_box (fun _ => true)
      (py "fonts/F.ttf") letter_font [py "B"; py "A"] (py "out") 1024 512 true empty_world
    = Completed w' /\
    ToDataJson.build_json_for_char letters_db (py "A") [font_basename (py "fonts/F.ttf")]
      (py "out") (stored w')
    = Some
        [ {| ToDataJson.messages :=
               [ {| ToDataJson.content := ToDataJson.ask_style;
                    ToDataJson.role := py "user" |};
                 {| ToDataJson.content :=
                      ToDataJson.answer_style (font_basename (py "fonts/F.ttf")) (py "A");
                    ToDataJson.role := py "assistant" |};
                 {| ToDataJson.content := ToDataJson.ask_svg;
                    ToDataJson.role := py "user" |};
                 {| ToDataJson.content :=
                      svg_content {| viewBox := (0, 0, 1023, 1023); width := 1023;
                                     height := 1023; d := py "M0 0" |};
                    ToDataJson.role := py "assistant" |} ];
             ToDataJson.images :=
               [jpg_file letters_db (py "out") (py "fonts/F.ttf") 65] |} ].
Proof.
  apply (exported_character_is_collected letters_db unit tt no_pen fixed_box
           (fun _ => true) (py "fonts/F.ttf") letter_font [py "B"; py "A"] (py "out")
           1024 512 empty_world
           (fun c => if (c =? 65)%N then Some (py "A") else None)
           65%N (py "A") square49);
    first [reflexivity | (right; left; reflexivity) | (vm_compute; reflexivity)].
Defined.
